(** * The numerical core of the biorbd tutorial notebooks

    Shallow embedding of the two notebooks that carry algorithmic content:
    - [6-forward_dynamics.ipynb]: [euler], [x_dot], [perform_integration],
      [rk4], [lagrange_cost_function] and the call of the bounded optimizer;
    - the inverse kinematics notebook: [forward_kinematics],
      [marker_jacobian] and [inverse_kinematics].

    Numbers.  The notebooks compute with numpy [float64] arrays.  The
    embedding is generic in the scalar type: every array operation is written
    over an interface [Scalar] that only names the operations Python applies
    ([+], [-], [*], [/], unary minus, [<=]).  Results that talk about the
    shape of a computation (which calls are made, in which order, on which
    arguments) are proved for every [Scalar], hence in particular for any
    model of IEEE arithmetic; [binary64_Scalar] is numpy's [float64].
    Results that need algebra or the order of the reals are stated under
    [ExactArith], the laws of an Archimedean ordered field, which binary64
    does not satisfy; the canonical rationals [Qc] are an instance.  Every
    definition can be run in both.

    Arrays.  A one-dimensional array is the list of its entries and a
    two-dimensional array the list of its rows.  numpy raises on shape
    mismatch; the array operations below return in [result] and raise the
    same way, including numpy's broadcasting of axes of length one.

    Effects.  The [while] loop of [perform_integration] is run on fuel;
    the results say how much fuel makes it return.  [inverse_kinematics]
    updates its argument in place, so the caller's arrays live in a store
    and the functions of that notebook thread a world: the store and the
    list of calls made to the external model and to numpy's pseudo-inverse.

    The external collaborators (the rigid-body model, [numpy.linalg.pinv],
    [scipy.optimize.minimize]) are variables of the sections that use
    them. *)

From Stdlib Require Import ZArith QArith Qcanon Field Ring Lia Sorted.
From Stdlib Require Import PrimFloat.
From stdpp Require Import base option list gmap.

(** ** Scalars *)

Class Scalar (R : Type) := {
  s0 : R;
  s1 : R;
  sadd : R → R → R;
  ssub : R → R → R;
  smul : R → R → R;
  sdiv : R → R → R;
  sopp : R → R;
  sleb : R → R → bool
}.

Declare Scope scalar_scope.
Delimit Scope scalar_scope with S.
Infix "+" := sadd : scalar_scope.
Infix "-" := ssub : scalar_scope.
Infix "*" := smul : scalar_scope.
Infix "/" := sdiv : scalar_scope.
Notation "- x" := (sopp x) : scalar_scope.

(** A Python integer literal used as a float: [2], [6], [20], ... *)
Definition snat `{Scalar R} (n : nat) : R := Nat.iter n (λ r, (r + s1)%S) s0.

(** A decimal literal [n / d], such as [0.1] or [0.999]. *)
Definition sdec `{Scalar R} (n d : N) : R :=
  (snat (N.to_nat n) / snat (N.to_nat d))%S.

(** Python's [a <= b] and [a < b] as propositions. *)
Definition sle `{Scalar R} (a b : R) : Prop := sleb a b = true.
Definition slt `{Scalar R} (a b : R) : Prop := sleb b a = false.

(** The reciprocal [1 / x]. *)
Definition sinv `{Scalar R} (x : R) : R := (s1 / x)%S.

(** The laws of exact arithmetic: an Archimedean totally ordered field. *)
Class ExactArith (R : Type) `{Scalar R} : Prop := {
  ea_field : field_theory s0 s1 sadd smul ssub sopp sdiv sinv eq;
  ea_le_trans : ∀ a b c : R, sle a b → sle b c → sle a c;
  ea_le_antisym : ∀ a b : R, sle a b → sle b a → a = b;
  ea_le_total : ∀ a b : R, sle a b ∨ sle b a;
  ea_add_le : ∀ a b c : R, sle a b → sle (c + a)%S (c + b)%S;
  ea_0_lt_1 : slt (s0 : R) s1;
  ea_archimedean : ∀ x d : R, slt s0 d → ∃ n : nat, slt x (snat n * d)%S
}.

(** The canonical rationals: exact and executable. *)
#[export] Instance Qc_Scalar : Scalar Qc := {|
  s0 := 0%Qc;
  s1 := 1%Qc;
  sadd := Qcplus;
  ssub := Qcminus;
  smul := Qcmult;
  sdiv := Qcdiv;
  sopp := Qcopp;
  sleb := λ a b, bool_decide (a ≤ b)%Qc
|}.

(** The integers, for runs that only move entries around. *)
#[export] Instance Z_Scalar : Scalar Z := {|
  s0 := 0%Z;
  s1 := 1%Z;
  sadd := Z.add;
  ssub := Z.sub;
  smul := Z.mul;
  sdiv := Z.div;
  sopp := Z.opp;
  sleb := Z.leb
|}.

(** IEEE 754 binary64, the [float64] of numpy, with the operations of
    the processor: no law of [ExactArith] is claimed for it. *)
#[export] Instance binary64_Scalar : Scalar float := {|
  s0 := 0%float;
  s1 := 1%float;
  sadd := PrimFloat.add;
  ssub := PrimFloat.sub;
  smul := PrimFloat.mul;
  sdiv := PrimFloat.div;
  sopp := PrimFloat.opp;
  sleb := PrimFloat.leb
|}.

(** ** Exceptions and results *)

Inductive exn : Type :=
  | ValueError_broadcast (n m : nat)
      (* operands could not be broadcast together with shapes (n,) (m,) *)
  | ValueError_inhomogeneous
      (* numpy.array of sequences of different lengths *)
  | ValueError_matmul (n m : nat)
      (* matmul: mismatch in the core dimension, n against m *)
  | ValueError_concatenate (n m : nat)
      (* concatenate: the array dimensions must match, n against m *)
  | IndexError (i size : nat)
      (* index i is out of bounds for an axis of the given size *)
  | KeyError.
      (* a name that denotes no array *)

Inductive result (A : Type) : Type :=
  | Ok (a : A)
  | Raise (e : exn).
Arguments Ok {A} a.
Arguments Raise {A} e.

#[export] Instance result_ret : MRet result := λ A a, Ok a.
#[export] Instance result_bind : MBind result := λ A B f m,
  match m with
  | Ok a => f a
  | Raise e => Raise e
  end.

(** ** numpy arrays *)

Module Np.
Section Arrays.
Context {R : Type} `{Scalar R}.

(** Broadcasting of one axis: equal lengths pair up entry by entry, an
    axis of length one is stretched, anything else raises. *)
Definition bcast {A B C} (f : A → B → result C)
    (xs : list A) (ys : list B) : result (list C) :=
  if decide (length xs = length ys) then mapM (λ p, f p.1 p.2) (zip xs ys)
  else match xs, ys with
       | [x], _ => mapM (f x) ys
       | _, [y] => mapM (λ x, f x y) xs
       | _, _ => Raise (ValueError_broadcast (length xs) (length ys))
       end.

(** Broadcasting for an in-place operator ([a -= b]): the left operand
    fixes the shape of the result, only the right one may be stretched. *)
Definition ibcast {A B} (f : A → B → result A)
    (xs : list A) (ys : list B) : result (list A) :=
  if decide (length xs = length ys) then mapM (λ p, f p.1 p.2) (zip xs ys)
  else match ys with
       | [y] => mapM (λ x, f x y) xs
       | _ => Raise (ValueError_broadcast (length xs) (length ys))
       end.

Definition pure2 {A B C} (f : A → B → C) : A → B → result C :=
  λ a b, Ok (f a b).

(** [a + b] on one-dimensional arrays. *)
Definition add (a b : list R) : result (list R) := bcast (pure2 sadd) a b.

(** [a * s] and [s * a] with a scalar [s]. *)
Definition mul_scalar (a : list R) (s : R) : list R :=
  map (λ v, (v * s)%S) a.
Definition scalar_mul (s : R) (a : list R) : list R :=
  map (λ v, (s * v)%S) a.

(** [a - b] on two-dimensional arrays, and [a -= b]. *)
Definition sub2 (a b : list (list R)) : result (list (list R)) :=
  bcast (bcast (pure2 ssub)) a b.
Definition isub2 (a b : list (list R)) : result (list (list R)) :=
  ibcast (ibcast (pure2 ssub)) a b.

(** [a - b] with [a] two-dimensional and [b] one-dimensional: [b] is one
    row, stretched over the rows of [a]. *)
Definition sub21 (a : list (list R)) (b : list R) : result (list (list R)) :=
  sub2 a [b].

(** [numpy.array(rows)] on a sequence of one-dimensional arrays. *)
Definition array (rows : list (list R)) : result (list (list R)) :=
  match rows with
  | [] => Ok []
  | r :: rs =>
      if forallb (λ r', length r' =? length r) rs then Ok rows
      else Raise ValueError_inhomogeneous
  end.

(** [a[:, j]] *)
Definition col (j : nat) (a : list (list R)) : result (list R) :=
  mapM (λ r : list R,
          match r !! j with
          | Some v => Ok v
          | None => Raise (IndexError j (length r))
          end) a.

(** [a[:, numpy.newaxis]] on a one-dimensional array. *)
Definition newaxis (a : list R) : list (list R) := map (λ v, [v]) a.

Definition ncols (a : list (list R)) : nat :=
  match a with [] => 0 | r :: _ => length r end.

(** [a.transpose()] *)
Definition transpose (a : list (list R)) : list (list R) :=
  map (λ j, map (λ r : list R, nth j r s0) a) (seq 0 (ncols a)).

(** [numpy.sum(a)] and [a ** 2] *)
Definition sum (a : list R) : R := fold_left sadd a s0.
Definition sum2 (a : list (list R)) : R := sum (map sum a).
Definition square2 (a : list (list R)) : list (list R) :=
  map (map (λ v, (v * v)%S)) a.

(** [a @ b] on two-dimensional arrays. *)
Definition dot (a b : list R) : R := sum (zip_with smul a b).
Definition matmul (a b : list (list R)) : result (list (list R)) :=
  mapM (λ r : list R,
          if decide (length r = length b)
          then Ok (map (dot r) (transpose b))
          else Raise (ValueError_matmul (length r) (length b))) a.

(** [numpy.concatenate((a, b), axis=0)] where [a] has [n] columns. *)
Definition concatenate_rows (n : nat) (a b : list (list R))
    : result (list (list R)) :=
  match list_find (λ r : list R, length r ≠ n) b with
  | Some (_, r) => Raise (ValueError_concatenate n (length r))
  | None => Ok (a ++ b)
  end.
End Arrays.
End Np.

(** ** Notebook [6-forward_dynamics] *)

Section ForwardDynamics.
Context {R : Type} `{Scalar R}.

(** The rigid-body model is an external collaborator.  [n_q] is
    [model.nbQ()], [n_muscles] is [model.nbMuscles()], [model_stateSet]
    holds the activations the model's muscle states carry, and the two
    functions are [model.muscularJointTorque(..).to_array()] and
    [model.ForwardDynamics(..).to_array()]. *)
Variable n_q : nat.
Variable n_muscles : nat.
Variable model_stateSet : list R.
Variable model_muscularJointTorque : list R → list R → list R → list R.
Variable model_ForwardDynamics : list R → list R → list R → list R.

(** [for a, state in zip(activation, states): state.setActivation(a)]
    overwrites as many states as both sequences have. *)
Definition muscular_joint_torque (activation q qdot : list R) : list R :=
  let states := model_stateSet in
  let states :=
    take (length states) activation ++ drop (length activation) states in
  model_muscularJointTorque states q qdot.

Definition forward_dynamics (q qdot tau : list R) : list R :=
  model_ForwardDynamics q qdot tau.

Definition muscular_joint_acceleration (activation q qdot : list R) : list R :=
  let tau := muscular_joint_torque activation q qdot in
  forward_dynamics q qdot tau.

(** [return x + dot_fun(x, activation) * dt] *)
Definition euler (dt : R) (x : list R)
    (dot_fun : list R → list R → result (list R))
    (activation : list R) : result (list R) :=
  d ← dot_fun x activation;
  Np.add x (Np.mul_scalar d dt).

(** [xdot = numpy.array((qdot, muscular_joint_acceleration(..)))[:, 0]] *)
Definition x_dot (x activation : list R) : result (list R) :=
  let q := take n_q x in
  let qdot := drop n_q x in
  a ← Np.array [qdot; muscular_joint_acceleration activation q qdot];
  xdot ← Np.col 0 a;
  mret xdot.

(** The [while] loop of [perform_integration].  [None] means that the
    fuel ran out before the loop condition became false. *)
Fixpoint perform_integration_loop (fuel : nat) (final_time dt : R)
    (x_dot_fun : list R → list R → result (list R)) (activation : list R)
    (integration_fun :
       R → list R → (list R → list R → result (list R)) → list R →
       result (list R))
    (time_vector : list R) (all_x : list (list R)) (x_initial : list R)
    : option (result (list R * list (list R))) :=
  match fuel with
  | O => None
  | S fuel =>
      if sleb (List.last time_vector s0) final_time then
        let time_vector := time_vector ++ [(List.last time_vector s0 + dt)%S] in
        match integration_fun dt x_initial x_dot_fun activation with
        | Raise e => Some (Raise e)
        | Ok x_next =>
            let all_x := all_x ++ [x_next] in
            let x_initial := List.last all_x x_next in
            perform_integration_loop fuel final_time dt x_dot_fun activation
              integration_fun time_vector all_x x_initial
        end
      else Some (Ok (time_vector, all_x))
  end.

Definition perform_integration (fuel : nat) (final_time dt : R)
    (x_initial : list R)
    (x_dot_fun : list R → list R → result (list R)) (activation : list R)
    (integration_fun :
       R → list R → (list R → list R → result (list R)) → list R →
       result (list R))
    : option (result (list R * list (list R))) :=
  let time_vector := [s0] in
  let all_x := [x_initial] in
  r ← perform_integration_loop fuel final_time dt x_dot_fun activation
        integration_fun time_vector all_x x_initial;
  Some ('(time_vector, all_x) ← r;
        all_x ← Np.array all_x;
        mret (time_vector, Np.transpose all_x)).

Definition rk4 (dt : R) (x : list R)
    (dot_fun : list R → list R → result (list R))
    (activation : list R) : result (list R) :=
  k1 ← dot_fun x activation;
  x2 ← Np.add x (Np.scalar_mul (dt / snat 2)%S k1);
  k2 ← dot_fun x2 activation;
  x3 ← Np.add x (Np.scalar_mul (dt / snat 2)%S k2);
  k3 ← dot_fun x3 activation;
  x4 ← Np.add x (Np.scalar_mul dt k3);
  k4 ← dot_fun x4 activation;
  s ← Np.add k1 (Np.scalar_mul (snat 2) k2);
  s ← Np.add s (Np.scalar_mul (snat 2) k3);
  s ← Np.add s k4;
  Np.add x (Np.scalar_mul (dt / snat 6)%S s).

(** The globals of the optimal-control cell. *)
Variable target_position : list R.
Variable final_time : R.
Variable dt : R.
Variable x_dot_fun : list R → list R → result (list R).
Variable integration_method :
  R → list R → (list R → list R → result (list R)) → list R → result (list R).
Variable numpy_pi : R.

Definition states : list R := target_position ++ repeat s0 n_q.
Definition controls : list R := [sdec 1 10; sdec 1 10000].
Definition initial_guess : list R := states ++ controls.

Definition bounds : list (R * R) :=
  repeat ((- snat 2 * numpy_pi)%S, (snat 2 * numpy_pi)%S) n_q
  ++ repeat ((- snat 20 * numpy_pi)%S, (snat 20 * numpy_pi)%S) n_q
  ++ repeat (sdec 1 1000, sdec 999 1000) n_muscles.

Definition lagrange_cost_function (fuel : nat) (x : list R)
    : option (result R) :=
  let states := take (n_q * 2) x in
  let controls := drop (n_q * 2) x in
  r ← perform_integration fuel final_time dt states x_dot_fun controls
        integration_method;
  Some ('(t, x_integrated) ← r;
        d ← Np.sub21 (take n_q x_integrated) target_position;
        mret (Np.sum2 (Np.square2 d))).

(** [optimize.minimize] is external: it receives the objective, the
    initial vector and the bounds, and returns [results.x] or raises. *)
Variable optimize_minimize :
  (list R → option (result R)) → list R → list (R * R) → result (list R).

(** The cell's calls: the optimizer, then the split of [results.x]. *)
Definition shooting_solver (fuel : nat) : result (list R * list R) :=
  results_x ← optimize_minimize (lagrange_cost_function fuel)
                initial_guess bounds;
  let optimized_states := take (n_q * 2) results_x in
  let optimized_controls := drop (n_q * 2) results_x in
  mret (optimized_states, optimized_controls).
End ForwardDynamics.

(** ** The inverse kinematics notebook *)

(** The caller's arrays live in a store: [inverse_kinematics] updates its
    argument in place and returns the same object.  The world also records
    the calls made to the external collaborators, in order. *)

Inductive event (R : Type) : Type :=
  | Ev_markers (q : list R)
  | Ev_markersJacobian (q : list R)
  | Ev_pinv (a : list (list R)).
Arguments Ev_markers {R} q.
Arguments Ev_markersJacobian {R} q.
Arguments Ev_pinv {R} a.

Record world (R : Type) : Type := World {
  heap : gmap nat (list (list R));
  calls : list (event R)
}.
Arguments World {R} heap calls.
Arguments heap {R} w.
Arguments calls {R} w.

(** Computations that read and write the world and may raise; an exception
    leaves the world as it was when it was raised. *)
Definition py (R A : Type) : Type := world R → result A * world R.

#[export] Instance py_ret {R} : MRet (py R) := λ A a w, (Ok a, w).
#[export] Instance py_bind {R} : MBind (py R) := λ A B f m w,
  match m w with
  | (Ok a, w') => f a w'
  | (Raise e, w') => (Raise e, w')
  end.

Definition lift {R A} (r : result A) : py R A := λ w, (r, w).

Definition load {R} (p : nat) : py R (list (list R)) := λ w,
  match heap w !! p with
  | Some a => (Ok a, w)
  | None => (Raise KeyError, w)
  end.

Definition store {R} (p : nat) (a : list (list R)) : py R unit := λ w,
  (Ok (), World (<[p := a]> (heap w)) (calls w)).

Definition call {R} (e : event R) : py R unit := λ w,
  (Ok (), World (heap w) (calls w ++ [e])).

(** [copy(a)], from the [copy] module: a new array with the entries
    of [a]. *)
Definition copy {R} (p : nat) : py R nat := λ w,
  match heap w !! p with
  | Some a =>
      let p' := fresh (dom (heap w)) in
      (Ok p', World (<[p' := a]> (heap w)) (calls w))
  | None => (Raise KeyError, w)
  end.

Section InverseKinematics.
Context {R : Type} `{Scalar R}.

(** [n_q] is [model.nbQ()]; [model_markers q] lists the [to_array()] of
    every marker, [model_markersJacobian q] the [to_array()] of every
    marker's Jacobian; [numpy_linalg_pinv] is [numpy.linalg.pinv]. *)
Variable n_q : nat.
Variable model_markers : list R → list (list R).
Variable model_markersJacobian : list R → list (list (list R)).
Variable numpy_linalg_pinv : list (list R) → list (list R).

Definition forward_kinematics (q : list R) : py R (list (list R)) :=
  call (Ev_markers q);;
  let markers := model_markers q in
  let markersVector := fold_left (λ acc m, acc ++ m) markers [] in
  mret (Np.newaxis markersVector).

Definition marker_jacobian (q : list R) : py R (list (list R)) :=
  call (Ev_markersJacobian q);;
  let jacobian := model_markersJacobian q in
  lift (foldl (λ acc j, jacobianMatrix ← acc;
                        Np.concatenate_rows n_q jacobianMatrix j)
              (Ok []) jacobian).

(** One pass through the body of the [for] loop; [real_markers] and
    [q_init] name the caller's arrays. *)
Definition inverse_kinematics_body (real_markers q_init : nat) : py R unit :=
  q ← load q_init;
  q0 ← lift (Np.col 0 q);
  simulated_markers ← forward_kinematics q0;
  q ← load q_init;
  q0 ← lift (Np.col 0 q);
  jacobianMatrix ← marker_jacobian q0;
  call (Ev_pinv jacobianMatrix);;
  let pinv := numpy_linalg_pinv jacobianMatrix in
  observed ← load real_markers;
  residual ← lift (Np.sub2 simulated_markers observed);
  q_advance ← lift (Np.matmul pinv residual);
  q ← load q_init;
  q ← lift (Np.isub2 q q_advance);
  store q_init q.

Fixpoint inverse_kinematics_loop (iterations : nat)
    (real_markers q_init : nat) : py R unit :=
  match iterations with
  | O => mret ()
  | S iterations =>
      inverse_kinematics_body real_markers q_init;;
      inverse_kinematics_loop iterations real_markers q_init
  end.

(** [range(number_of_iterations)] is empty for a negative count. *)
Definition inverse_kinematics (real_markers q_init : nat)
    (number_of_iterations : Z) : py R nat :=
  inverse_kinematics_loop (Z.to_nat number_of_iterations)
    real_markers q_init;;
  mret q_init.

(** The call that leaves [number_of_iterations] to its default. *)
Definition inverse_kinematics_default (real_markers q_init : nat)
    : py R nat :=
  inverse_kinematics real_markers q_init 5.
End InverseKinematics.

(** ** The spec's reading: vectors, sample times, iterates *)

Section SpecSide.
Context {R : Type} `{Scalar R}.

(** Vectors of equal length: sum, difference, scalar multiple. *)
Definition vadd (a b : list R) : list R := zip_with sadd a b.
Definition vsub (a b : list R) : list R := zip_with ssub a b.
Definition vscale (s : R) (a : list R) : list R := map (smul s) a.

(** A matrix with [r] rows and [c] columns, and matrix times vector. *)
Definition is_mat (r c : nat) (a : list (list R)) : Prop :=
  length a = r ∧ Forall (λ row, length row = c) a.
Definition mvmul (a : list (list R)) (v : list R) : list R :=
  map (λ row, Np.dot row v) a.

(** The [k]-th sample time [k·Δt] and the [k]-th state of a step map. *)
Definition sample_time (dt : R) (k : nat) : R := (snat k * dt)%S.
Definition nth_state (step : list R → list R) (x0 : list R) (k : nat)
    : list R :=
  Nat.iter k step x0.

(** The [k]-th time as the loop computes it, by repeated addition. *)
Definition running_time (dt : R) (k : nat) : R :=
  Nat.iter k (λ t, (t + dt)%S) s0.

(** A step function that honours the contract
    [(Δt, x, derivative_fn, control) → x'] on states as long as [x0]:
    it returns, and what it returns is again a state. *)
Definition conforming
    (g : R → list R → (list R → list R → result (list R)) → list R →
         result (list R))
    (dt : R) (f : list R → list R → result (list R)) (u : list R)
    (x0 : list R) (step : list R → list R) : Prop :=
  ∀ x, length x = length x0 →
       g dt x f u = Ok (step x) ∧ length (step x) = length x0.

(** The squared deviation of a joint position from a target that puts
    every joint at [θ]. *)
Definition squared_deviation (θ : R) (q : list R) : R :=
  Np.sum (map (λ v, ((v - θ) * (v - θ))%S) q).

(** Section 4.3 of the spec: residual, then the Gauss-Newton update. *)
Section GaussNewton.
Variable model_markers : list R → list (list R).
Variable model_markersJacobian : list R → list (list (list R)).
Variable pinv : list (list R) → list (list R).

Definition simulated (q : list R) : list R := concat (model_markers q).
Definition jacobian (q : list R) : list (list R) :=
  concat (model_markersJacobian q).
Definition residual (observed q : list R) : list R :=
  vsub (simulated q) observed.
Definition ik_update (observed q : list R) : list R :=
  vsub q (mvmul (pinv (jacobian q)) (residual observed q)).

(** The collaborators one iteration consults at [q], in order. *)
Definition ik_events (q : list R) : list (event R) :=
  [Ev_markers q; Ev_markersJacobian q; Ev_pinv (jacobian q)].

(** The calls of [n] successive iterations started at [q]. *)
Fixpoint ik_trace (observed q : list R) (n : nat) : list (event R) :=
  match n with
  | O => []
  | S n => ik_events q ++ ik_trace observed (ik_update observed q) n
  end.

(** The model answers with [n_markers] points of three coordinates
    and as many [3 × n_q] Jacobians, and the pseudo-inverse of a
    [3·n_markers × n_q] matrix is [n_q × 3·n_markers]. *)
Definition well_shaped (n_q n_markers : nat) : Prop :=
  (∀ q, length q = n_q →
        length (model_markers q) = n_markers ∧
        Forall (λ m, length m = 3) (model_markers q)) ∧
  (∀ q, length q = n_q →
        length (model_markersJacobian q) = n_markers ∧
        Forall (is_mat 3 n_q) (model_markersJacobian q)) ∧
  (∀ a, is_mat (3 * n_markers) n_q a →
        is_mat n_q (3 * n_markers) (pinv a)).
End GaussNewton.

(** Failing fast: an exception, and the world untouched. *)
Definition fails_fast {A} (out : result A * world R) (w : world R) : Prop :=
  ∃ e, out = (Raise e, w).

(** Bounds the spec calls invalid: a lower bound above its upper bound,
    or a control bound that excludes its component of the guess.  The
    controls start at index [2·n_q]. *)
Definition invalid_bounds (n_q : nat) (bounds : list (R * R))
    (guess : list R) : Prop :=
  (∃ i b, bounds !! i = Some b ∧ slt b.2 b.1) ∨
  (∃ i b v, n_q * 2 ≤ i ∧ bounds !! i = Some b ∧ guess !! i = Some v ∧
            (slt v b.1 ∨ slt b.2 v)).
End SpecSide.

(** ** Small models to run the definitions on *)

Module Toy.
(** One degree of freedom, one marker that slides along the first axis:
    the marker sits at [(q, 0, 0)], its Jacobian is the unit column, and
    the pseudo-inverse of a matrix with orthonormal columns is its
    transpose. *)
Definition markers (q : list Z) : list (list Z) := [[nth 0 q 0%Z; 0%Z; 0%Z]].
Definition markersJacobian (q : list Z) : list (list (list Z)) :=
  [[[1%Z]; [0%Z]; [0%Z]]].
Definition pinv (a : list (list Z)) : list (list Z) := Np.transpose a.

(** The observed markers sit in array 0, the initial guess in array 1. *)
Definition world_of (observed q_init : list Z) : world Z :=
  World (<[0 := Np.newaxis observed]> (<[1 := Np.newaxis q_init]> ∅)) [].

(** A point mass on a spring, one degree of freedom: no muscle acts and
    the acceleration is minus the position. *)
Definition spring (q qdot tau : list Qc) : list Qc := map Qcopp q.
Definition spring_dot : list Qc → list Qc → result (list Qc) :=
  x_dot 1 [] (λ states q qdot, []) spring.

(** The Euler step of the spring, written out. *)
Definition spring_euler (dt : Qc) (x : list Qc) : list Qc :=
  vadd x (Np.mul_scalar (drop 1 x ++ spring (take 1 x) (drop 1 x) []) dt).

(** A derivative that ignores the state. *)
Definition steady (c : list Qc) (x u : list Qc) : result (list Qc) := Ok c.

(** Doubling, over the integers, defined at four states and nowhere
    else: any other call raises. *)
Definition stage_points : list (list Z) :=
  [[1; 2]; [7; 14]; [43; 86]; [517; 1034]]%Z.
Definition double (x u : list Z) : result (list Z) :=
  if decide (x ∈ stage_points) then Ok (map (Z.mul 2) x) else Raise KeyError.

(** A model with two degrees of freedom whose acceleration is constant. *)
Definition two_dof_acceleration (q qdot tau : list Z) : list Z := [7%Z; 8%Z].

(** An optimizer that clips the initial vector into the bounds and
    returns it without a single iteration. *)
Definition clip (v : Qc) (b : Qc * Qc) : Qc :=
  if sleb v b.1 then b.1 else if sleb b.2 v then b.2 else v.
Definition minimize (cost : list Qc → option (result Qc)) (x0 : list Qc)
    (bounds : list (Qc * Qc)) : result (list Qc) :=
  Ok (zip_with clip x0 bounds).
End Toy.

(** ** More of the two notebooks *)

(** *** Further array operations *)

Module Np2.
Section Arrays.
Context {R : Type} `{Scalar R}.

(** [numpy.zeros((r, c))] *)
Definition zeros (r c : nat) : list (list R) := repeat (repeat s0 c) r.

(** [a.flatten()]: the rows one after the other. *)
Definition flatten (a : list (list R)) : list R := concat a.

(** [numpy.repeat(a, n, axis=1)]: every entry of a row [n] times. *)
Definition repeat_cols (a : list (list R)) (n : nat) : list (list R) :=
  map (λ row, concat (map (λ v, repeat v n) row)) a.

(** [a[:, j] = v] with [v] one-dimensional: the index is checked first,
    then [v] is laid along column [j], stretched if it has one entry. *)
Definition set_col (j : nat) (v : list R) (a : list (list R))
    : result (list (list R)) :=
  match list_find (λ row : list R, length row ≤ j) a with
  | Some (_, row) => Raise (IndexError j (length row))
  | None => Np.ibcast (λ (row : list R) x, Ok (<[j := x]> row)) a v
  end.

(** [a[i, :] = v] with [v] one-dimensional. *)
Definition set_row (i : nat) (v : list R) (a : list (list R))
    : result (list (list R)) :=
  match a !! i with
  | None => Raise (IndexError i (length a))
  | Some row =>
      row ← Np.ibcast (λ (_ x : R), Ok x) row v;
      mret (<[i := row]> a)
  end.
End Arrays.
End Np2.

(** [numpy.zeros], [numpy.ndarray] and the like hand out a new array. *)
Definition alloc {R} (a : list (list R)) : py R nat := λ w,
  let p := fresh (dom (heap w)) in
  (Ok p, World (<[p := a]> (heap w)) (calls w)).

(** *** The inverse kinematics notebook: the data and the frames *)

Section Frames.
Context {R : Type} `{Scalar R}.
Variable n_q : nat.
Variable model_markers : list R → list (list R).
Variable model_markersJacobian : list R → list (list (list R)).
Variable numpy_linalg_pinv : list (list R) → list (list R).

(** [numpy.ndarray((r, c))] hands out an array that nothing has written:
    its entries are whatever they are. *)
Variable numpy_ndarray : nat → nat → list (list R).

(** The body positions: [initial_pose] as a column, repeated for every
    frame, then the row of the arm overwritten with the arm's positions. *)
Definition full_body_positions (initial_pose : list R) (arm_index : nat)
    (arm_position_over_time_noised : list R) (number_frames : nat)
    : result (list (list R)) :=
  a ← Np.array [initial_pose];
  let full_body_position := Np.transpose a in
  let full_body_all_position :=
    Np2.repeat_cols full_body_position number_frames in
  Np2.set_row arm_index arm_position_over_time_noised full_body_all_position.

(** The loop that collects the skin markers of every frame, each as a
    [3 × n markers] array. *)
Definition collect_skin_markers (full_body_all_position : list (list R))
    (number_frames : nat) : py R (list (list (list R))) :=
  mapM (λ f,
          q ← lift (Np.col f full_body_all_position);
          call (Ev_markers q);;
          skin_markers ← lift (Np.array (model_markers q));
          mret (Np.transpose skin_markers))
       (seq 0 number_frames).

(** [all_skin_markers[frame].transpose().flatten()[:, numpy.newaxis]] *)
Definition frame_markers (all_skin_markers : list (list (list R)))
    (frame : nat) : result (list (list R)) :=
  match all_skin_markers !! frame with
  | Some a => Ok (Np.newaxis (Np2.flatten (Np.transpose a)))
  | None => Raise (IndexError frame (length all_skin_markers))
  end.

(** One pass through the loop over the frames; the value is the array
    that [q_init] names afterwards. *)
Definition reconstruct_frame (all_skin_markers : list (list (list R)))
    (q_inverse frame q_init : nat) (number_of_iterations : Z) : py R nat :=
  real_markers ← lift (frame_markers all_skin_markers frame);
  real_markers ← alloc real_markers;
  solved ← inverse_kinematics n_q model_markers model_markersJacobian
              numpy_linalg_pinv real_markers q_init number_of_iterations;
  solved ← load solved;
  column ← lift (Np.col 0 solved);
  a ← load q_inverse;
  a ← lift (Np2.set_col frame column a);
  store q_inverse a;;
  a ← load q_inverse;
  column ← lift (Np.col frame a);
  alloc (Np.newaxis column).

Fixpoint reconstruct_loop (frames : list nat)
    (all_skin_markers : list (list (list R))) (q_inverse q_init : nat)
    (number_of_iterations : Z) : py R unit :=
  match frames with
  | [] => mret ()
  | frame :: frames =>
      q_init ← reconstruct_frame all_skin_markers q_inverse frame q_init
                 number_of_iterations;
      let number_of_iterations := 2%Z in
      reconstruct_loop frames all_skin_markers q_inverse q_init
        number_of_iterations
  end.

(** The cell that reconstructs every frame; the value is [q_inverse]. *)
Definition reconstruct (all_skin_markers : list (list (list R)))
    (number_frames : nat) : py R nat :=
  let number_of_iterations := 5%Z in
  q_init ← alloc (Np2.zeros n_q 1);
  q_inverse ← alloc (numpy_ndarray n_q number_frames);
  reconstruct_loop (seq 0 (length all_skin_markers)) all_skin_markers
    q_inverse q_init number_of_iterations;;
  mret q_inverse.
End Frames.

(** *** Further readings of the spec *)

(** The order is compatible with products: with [ExactArith], an ordered
    field. *)
Class OrderedArith (R : Type) `{ExactArith R} : Prop := {
  oa_mul_pos : ∀ a b : R, slt s0 a → slt s0 b → slt s0 (a * b)%S
}.

Section MoreSpecSide.
Context {R : Type} `{Scalar R}.

(** [1 + z + z²/2 + z³/6 + z⁴/24], the exponential series cut after the
    fourth power. *)
Definition taylor4 (z : R) : R :=
  (s1 + z + z * z / snat 2 + z * z * z / snat 6
   + z * z * z * z / snat 24)%S.

(** The solutions of the frames: the first from [guess] with [n]
    iterations, each later one from its predecessor with two. *)
Fixpoint warm_starts (update : list R → list R → list R) (guess : list R)
    (n : nat) (observations : list (list R)) : list (list R) :=
  match observations with
  | [] => []
  | observed :: observations =>
      let solved := Nat.iter n (update observed) guess in
      solved :: warm_starts update solved 2 observations
  end.

(** A marker model that is affine in [q], with matrix [a] and offset [b],
    and a pseudo-inverse [p] of [a] that undoes [a] on the left. *)
Definition affine_model (model_markers : list R → list (list R))
    (model_markersJacobian : list R → list (list (list R)))
    (pinv : list (list R) → list (list R))
    (n_q : nat) (a : list (list R)) (b : list R) : Prop :=
  (∀ q, length q = n_q →
        simulated model_markers q = vadd (mvmul a q) b) ∧
  (∀ q, length q = n_q → jacobian model_markersJacobian q = a) ∧
  (∀ v, length v = n_q → mvmul (pinv a) (mvmul a v) = v).
End MoreSpecSide.

(** One degree of freedom and one marker at [(q + 1, 0, 0)], in any
    arithmetic: the markers are affine in [q], the Jacobian is the unit
    column, and its pseudo-inverse is its transpose. *)
Module Slider.
Section Slider.
Context {R : Type} `{Scalar R}.

Definition markers (q : list R) : list (list R) :=
  [[(nth 0 q s0 + s1)%S; s0; s0]].
Definition markersJacobian (q : list R) : list (list (list R)) :=
  [[[s1]; [s0]; [s0]]].
Definition pinv (a : list (list R)) : list (list R) := Np.transpose a.

(** The matrix and the offset of the markers. *)
Definition matrix : list (list R) := [[s1]; [s0]; [s0]].
Definition offset : list R := [s1; s0; s0].

(** The observed markers sit in array 0, the initial guess in array 1. *)
Definition world_of (observed q_init : list R) : world R :=
  World (<[0 := Np.newaxis observed]> (<[1 := Np.newaxis q_init]> ∅)) [].
End Slider.
End Slider.

(** The update when the observed array has the single entry [v]: numpy
    stretches it, and [v] is subtracted from every simulated
    coordinate. *)
Definition ik_update_stretched {R} `{Scalar R}
    (model_markers : list R → list (list R))
    (model_markersJacobian : list R → list (list (list R)))
    (pinv : list (list R) → list (list R)) (v : R) (q : list R) : list R :=
  vsub q (mvmul (pinv (jacobian model_markersJacobian q))
            (map (λ s, (s - v)%S) (simulated model_markers q))).

(** Runs in binary64: a state that grows by one per unit of time, and a
    state that stays where it is. *)
Module Binary64.
Definition ramp (x u : list float) : result (list float) := Ok [s1].
Definition ramp_step (dt : float) (x : list float) : list float :=
  vadd x (Np.mul_scalar [s1] dt).
Definition still (x u : list float) : result (list float) := Ok [s0; s0].
End Binary64.

(** * Properties *)

(** ** Sequencing *)

Lemma bind_Ok {A B} (a : A) (k : A → result B) : (Ok a ≫= k) = k a.
Proof. reflexivity. Qed.

Lemma bind_Raise {A B} (e : exn) (k : A → result B) :
  (Raise e ≫= k) = Raise e.
Proof. reflexivity. Qed.

Ltac ok_step := rewrite ?bind_Ok; cbv beta.

(** ** Array operations on well-shaped operands *)

Section ArrayFacts.
Context {R : Type} `{Scalar R}.

Lemma mapM_Ok_ext {A B} (f : A → result B) (g : A → B) (l : list A) :
  Forall (λ x, f x = Ok (g x)) l → mapM f l = Ok (map g l).
Proof.
  induction 1 as [|x l Hx _ IH]; [reflexivity|].
  cbn. rewrite Hx. cbn. rewrite IH. reflexivity.
Qed.

Lemma mapM_Ok {A B} (g : A → B) (l : list A) :
  mapM (λ x, Ok (g x)) l = Ok (map g l).
Proof. apply mapM_Ok_ext, Forall_forall. reflexivity. Qed.

Lemma mapM_zip_Ok {A B C} (f : A → B → result C) (g : A → B → C) xs ys :
  Forall2 (λ x y, f x y = Ok (g x y)) xs ys →
  mapM (λ p, f p.1 p.2) (zip xs ys) = Ok (zip_with g xs ys).
Proof.
  induction 1 as [|x y xs ys Hxy _ IH]; [reflexivity|].
  change (zip (x :: xs) (y :: ys)) with ((x, y) :: zip xs ys).
  change (zip_with g (x :: xs) (y :: ys)) with (g x y :: zip_with g xs ys).
  cbn [mapM]. rewrite IH. cbn. rewrite Hxy. reflexivity.
Qed.

Lemma bcast_zip {A B C} (f : A → B → result C) (g : A → B → C) xs ys :
  Forall2 (λ x y, f x y = Ok (g x y)) xs ys →
  Np.bcast f xs ys = Ok (zip_with g xs ys).
Proof.
  intros HF. unfold Np.bcast.
  rewrite decide_True by (eapply Forall2_length; eassumption).
  apply mapM_zip_Ok, HF.
Qed.

Lemma ibcast_zip {A B} (f : A → B → result A) (g : A → B → A) xs ys :
  Forall2 (λ x y, f x y = Ok (g x y)) xs ys →
  Np.ibcast f xs ys = Ok (zip_with g xs ys).
Proof.
  intros HF. unfold Np.ibcast.
  rewrite decide_True by (eapply Forall2_length; eassumption).
  apply mapM_zip_Ok, HF.
Qed.

Lemma Forall2_pure2 {A B C} (g : A → B → C) xs ys :
  length xs = length ys →
  Forall2 (λ x y, Np.pure2 g x y = Ok (g x y)) xs ys.
Proof.
  intros Hlen. apply Forall2_same_length_lookup_2; [exact Hlen|].
  reflexivity.
Qed.

Lemma add_same_length (a b : list R) :
  length a = length b → Np.add a b = Ok (vadd a b).
Proof. intros Hlen. apply bcast_zip, Forall2_pure2, Hlen. Qed.
End ArrayFacts.

(** Lengths of sums and multiples. *)
Ltac vlen :=
  unfold vadd, vsub, vscale, Np.mul_scalar, Np.scalar_mul;
  repeat (rewrite length_zip_with || rewrite length_map);
  repeat match goal with
         | |- context [Nat.min ?a ?b] =>
             destruct (Nat.min_spec a b) as [[? ->]|[? ->]]
         end;
  lia.

(** ** The integrators *)

Ltac rk_step :=
  ok_step;
  repeat match goal with
         | |- context [Np.scalar_mul ?s ?a] =>
             change (Np.scalar_mul s a) with (vscale s a)
         end.

Section Integrators.
Context {R : Type} `{Scalar R}.

Lemma euler_step (dt : R) (x d : list R)
    (f : list R → list R → result (list R)) (u : list R) :
  f x u = Ok d → length d = length x →
  euler dt x f u = Ok (vadd x (Np.mul_scalar d dt)).
Proof.
  intros Hf Hlen. unfold euler. rewrite Hf. ok_step.
  apply add_same_length. vlen.
Qed.

(** C3.  The classical Runge-Kutta step: with the four stage derivatives
    [k1 = f(x, u)], [k2 = f(x + Δt/2·k1, u)], [k3 = f(x + Δt/2·k2, u)]
    and [k4 = f(x + Δt·k3, u)], each as long as [x], [rk4] returns
    [x + Δt/6·(k1 + 2·k2 + 2·k3 + k4)].  Nothing is asked of [f] at any
    other state, where it may as well raise: the step evaluates [f] at these
    four states only. *)
Theorem rk4_four_stages (dt : R) (x : list R)
    (f : list R → list R → result (list R)) (u k1 k2 k3 k4 : list R) :
  f x u = Ok k1 →
  f (vadd x (vscale (dt / snat 2)%S k1)) u = Ok k2 →
  f (vadd x (vscale (dt / snat 2)%S k2)) u = Ok k3 →
  f (vadd x (vscale dt k3)) u = Ok k4 →
  length k1 = length x → length k2 = length x →
  length k3 = length x → length k4 = length x →
  rk4 dt x f u =
    Ok (vadd x (vscale (dt / snat 6)%S
                  (vadd (vadd (vadd k1 (vscale (snat 2) k2))
                              (vscale (snat 2) k3)) k4))).
Proof.
  intros H1 H2 H3 H4 L1 L2 L3 L4. unfold rk4.
  rewrite H1; rk_step.
  rewrite (add_same_length x) by vlen.
  rk_step; rewrite H2; rk_step.
  rewrite (add_same_length x) by vlen.
  rk_step; rewrite H3; rk_step.
  rewrite (add_same_length x) by vlen.
  rk_step; rewrite H4; rk_step.
  rewrite (add_same_length k1) by vlen.
  rk_step.
  rewrite (add_same_length (vadd k1 _)) by vlen.
  rk_step.
  rewrite (add_same_length (vadd (vadd k1 _) _)) by vlen.
  rk_step.
  apply add_same_length. vlen.
Qed.
End Integrators.

(** ** Consequences of exact arithmetic *)

Section ExactFacts.
Context {R : Type} `{ExactArith R}.

Add Field scalar_field : ea_field.

Lemma sle_refl (a : R) : sle a a.
Proof. destruct (ea_le_total a a); assumption. Qed.

Lemma slt_not_sle (a b : R) : slt a b ↔ ¬ sle b a.
Proof.
  unfold slt, sle. destruct (sleb b a); split; intros; congruence.
Qed.

Lemma slt_sle (a b : R) : slt a b → sle a b.
Proof.
  intros Hlt. apply slt_not_sle in Hlt.
  destruct (ea_le_total a b); [assumption | contradiction].
Qed.

Lemma slt_irrefl (a : R) : ¬ slt a a.
Proof. intros Hlt. apply slt_not_sle in Hlt. apply Hlt, sle_refl. Qed.

Lemma sle_slt_trans (a b c : R) : sle a b → slt b c → slt a c.
Proof.
  intros Hab Hbc. apply slt_not_sle. intros Hca.
  apply slt_not_sle in Hbc. apply Hbc. eapply ea_le_trans; eassumption.
Qed.

Lemma slt_sle_trans (a b c : R) : slt a b → sle b c → slt a c.
Proof.
  intros Hab Hbc. apply slt_not_sle. intros Hca.
  apply slt_not_sle in Hab. apply Hab. eapply ea_le_trans; eassumption.
Qed.

Lemma slt_trans (a b c : R) : slt a b → slt b c → slt a c.
Proof. intros Hab Hbc. eapply sle_slt_trans; [apply slt_sle|]; eassumption. Qed.

Lemma sle_lt_or_eq (a b : R) : sle a b → slt a b ∨ a = b.
Proof.
  intros Hab. destruct (sleb b a) eqn:Hba.
  - right. apply ea_le_antisym; assumption.
  - left. exact Hba.
Qed.

Lemma add_slt (a b c : R) : slt a b → slt (c + a)%S (c + b)%S.
Proof.
  intros Hab. apply slt_not_sle. intros Hle.
  apply slt_not_sle in Hab. apply Hab.
  apply (ea_add_le _ _ (- c)%S) in Hle.
  replace (- c + (c + b))%S with b in Hle by ring.
  replace (- c + (c + a))%S with a in Hle by ring.
  exact Hle.
Qed.

Lemma snat_S (n : nat) : snat (S n) = (snat n + s1 : R)%S.
Proof. reflexivity. Qed.

Lemma snat_0 : snat 0 = (s0 : R).
Proof. reflexivity. Qed.

Lemma snat_pos (n : nat) : slt (s0 : R) (snat (S n)).
Proof.
  induction n as [|n IH].
  - rewrite snat_S, snat_0. replace (s0 + s1)%S with (s1 : R) by ring.
    apply ea_0_lt_1.
  - rewrite snat_S. eapply slt_trans; [exact IH|].
    replace (snat (S n) : R) with (snat (S n) + s0)%S at 1 by ring.
    apply add_slt, ea_0_lt_1.
Qed.

Lemma snat_nonzero (n : nat) : snat (S n) ≠ (s0 : R).
Proof.
  intros Heq. apply (slt_irrefl (s0 : R)).
  rewrite <- Heq at 2. apply snat_pos.
Qed.

(** The times the loop builds by repeated addition are the multiples
    of the step. *)
Lemma sample_time_S (dt : R) (k : nat) :
  sample_time dt (S k) = (sample_time dt k + dt)%S.
Proof. unfold sample_time. rewrite snat_S. ring. Qed.

Lemma sample_time_0 (dt : R) : sample_time dt 0 = s0.
Proof. unfold sample_time. rewrite snat_0. ring. Qed.

Lemma sample_time_step (dt : R) (k : nat) :
  slt s0 dt → slt (sample_time dt k) (sample_time dt (S k)).
Proof.
  intros Hdt. rewrite sample_time_S.
  replace (sample_time dt k) with (sample_time dt k + s0)%S at 1 by ring.
  apply add_slt, Hdt.
Qed.

Lemma sample_time_mono (dt : R) (i j : nat) :
  slt s0 dt → i < j → slt (sample_time dt i) (sample_time dt j).
Proof.
  intros Hdt. induction 1 as [|j _ IH].
  - apply sample_time_step, Hdt.
  - eapply slt_trans; [exact IH|]. apply sample_time_step, Hdt.
Qed.

(** In exact arithmetic the running sums are the multiples of the step. *)
Lemma running_time_exact (dt : R) (k : nat) :
  running_time dt k = sample_time dt k.
Proof.
  induction k as [|k IH]; [symmetry; apply sample_time_0|].
  rewrite sample_time_S, <- IH. reflexivity.
Qed.

(** The first sample time past [final_time]. *)
Lemma first_sample_past (final_time dt : R) :
  slt s0 dt →
  ∃ n, slt final_time (sample_time dt n) ∧
       ∀ k, k < n → sle (sample_time dt k) final_time.
Proof.
  intros Hdt. destruct (ea_archimedean final_time dt Hdt) as [m Hm].
  fold (sample_time dt m) in Hm.
  induction m as [|m IH].
  - exists 0. split; [exact Hm|]. intros k Hk. lia.
  - destruct (sleb (sample_time dt m) final_time) eqn:Hle.
    + exists (S m). split; [exact Hm|]. intros k Hk.
      destruct (decide (k = m)) as [->|Hne]; [exact Hle|].
      apply slt_sle. eapply slt_sle_trans; [|exact Hle].
      apply sample_time_mono; [exact Hdt | lia].
    + apply IH. exact Hle.
Qed.
End ExactFacts.

(** ** The canonical rationals are exact *)

Lemma Qc_sle (a b : Qc) : sle a b ↔ (a ≤ b)%Qc.
Proof. unfold sle. cbn. apply bool_decide_eq_true. Qed.

Lemma Qc_slt (a b : Qc) : slt a b ↔ (a < b)%Qc.
Proof.
  unfold slt. cbn. rewrite bool_decide_eq_false. symmetry. apply Qclt_nge.
Qed.

Lemma Qc_snat (n : nat) : (snat n : Qc) = Qc_of_Z (Z.of_nat n).
Proof.
  induction n as [|n IH]; [symmetry; apply Z2Qc_inj_0|].
  change (snat (S n) : Qc) with (snat n + 1)%Qc.
  rewrite IH, Nat2Z.inj_succ, <- Z.add_1_r, Z2Qc_inj_add. reflexivity.
Qed.

Lemma Qc_archimedean (x d : Qc) :
  (0 < d)%Qc → ∃ n : nat, (x < Qc_of_Z (Z.of_nat n) * d)%Qc.
Proof.
  intros Hd. destruct (Qarchimedean (this (x / d)%Qc)) as [p Hp].
  exists (Pos.to_nat p). rewrite positive_nat_Z.
  assert (x / d < Qc_of_Z (Z.pos p))%Qc as Hlt.
  { unfold Qclt. exact Hp. }
  apply (Qcmult_lt_compat_r _ _ d Hd) in Hlt.
  replace (x / d * d)%Qc with x in Hlt; [exact Hlt|].
  field. intros ->. exact (Qclt_not_eq _ _ Hd eq_refl).
Qed.

#[export] Instance Qc_ExactArith : ExactArith Qc.
Proof.
  split.
  - constructor.
    + exact Qcrt.
    + exact Q_apart_0_1.
    + intros p q. unfold sinv. cbn. unfold Qcdiv. ring.
    + intros p Hp. unfold sinv. cbn. unfold Qcdiv. rewrite Qcmult_1_l.
      apply Qcmult_inv_l, Hp.
  - intros a b c. rewrite !Qc_sle. apply Qcle_trans.
  - intros a b. rewrite !Qc_sle. apply Qcle_antisym.
  - intros a b. rewrite !Qc_sle.
    destruct (Qclt_le_dec a b) as [Hlt|Hle]; [left; apply Qclt_le_weak | right];
      assumption.
  - intros a b c. rewrite !Qc_sle. intros Hab.
    apply Qcplus_le_mono_l, Hab.
  - apply Qc_slt. reflexivity.
  - intros x d. rewrite Qc_slt. intros Hd.
    destruct (Qc_archimedean x d Hd) as [n Hn]. exists n.
    apply Qc_slt. rewrite Qc_snat. exact Hn.
Qed.

(** ** A derivative that ignores the state *)

Section ConstantDerivative.
Context {R : Type} `{ExactArith R}.

Add Field scalar_field_cd : ea_field.

(** What [a + b] does, by the lengths of its operands. *)
Lemma add_closed_form (a b : list R) :
  Np.add a b =
    if decide (length a = length b) then Ok (vadd a b)
    else match a, b with
         | [v], _ => Ok (map (sadd v) b)
         | _, [w] => Ok (map (λ x, (x + w)%S) a)
         | _, _ => Raise (ValueError_broadcast (length a) (length b))
         end.
Proof.
  unfold Np.add, Np.bcast. case_decide as Hlen.
  - apply mapM_zip_Ok, Forall2_pure2, Hlen.
  - destruct a as [|v [|v' a]], b as [|w [|w' b]];
      try reflexivity; try (cbn in Hlen; lia);
      unfold Np.pure2; apply mapM_Ok.
Qed.

(** Whether [a + b] raises, and what, depends on [b] through its length. *)
Lemma add_respects_length (a b b' : list R) :
  length b = length b' →
  match Np.add a b, Np.add a b' with
  | Ok _, Ok _ => True
  | Raise e, Raise e' => e = e'
  | _, _ => False
  end.
Proof.
  intros Hlen. rewrite !add_closed_form, <- Hlen.
  case_decide; [exact I|].
  destruct a as [|v [|v' a]], b as [|w [|w' b]], b' as [|z [|z' b']];
    cbn in Hlen; try lia; try exact I; try reflexivity.
Qed.

Lemma six_nonzero : ((s1 + s1) * (s1 + (s1 + s1)))%S ≠ (s0 : R).
Proof.
  intros Heq. apply (snat_nonzero (R:=R) 5). rewrite <- Heq.
  rewrite !snat_S, snat_0. ring.
Qed.

Lemma weighted_stages_constant (dt : R) (c : list R) :
  vscale (dt / snat 6)%S
    (vadd (vadd (vadd c (vscale (snat 2) c)) (vscale (snat 2) c)) c)
  = Np.scalar_mul dt c.
Proof.
  unfold vadd, vscale, Np.scalar_mul.
  induction c as [|v c IH]; [reflexivity|].
  cbn [map zip_with]. rewrite IH. f_equal.
  rewrite !snat_S, !snat_0. field. exact six_nonzero.
Qed.

Lemma mul_scalar_comm (dt : R) (c : list R) :
  Np.mul_scalar c dt = Np.scalar_mul dt c.
Proof. apply map_ext. intros v. ring. Qed.

(** In exact arithmetic, when the derivative does not depend on the
    state, the Runge-Kutta step and the Euler step coincide, and both are
    [x + Δt·c]; for [c] as long as [x] this is the vector sum. *)
Lemma rk4_euler_constant_derivative_exact (dt : R) (x u c : list R)
    (f : list R → list R → result (list R)) :
  (∀ y, f y u = Ok c) →
  rk4 dt x f u = euler dt x f u ∧
  euler dt x f u = Np.add x (Np.scalar_mul dt c) ∧
  (length c = length x → euler dt x f u = Ok (vadd x (vscale dt c))).
Proof.
  intros Hf.
  assert (euler dt x f u = Np.add x (Np.scalar_mul dt c)) as He.
  { unfold euler. rewrite Hf. ok_step. rewrite mul_scalar_comm. reflexivity. }
  split; [|split; [exact He|]].
  - rewrite He. change (Np.scalar_mul dt c) with (vscale dt c).
    unfold rk4. rewrite Hf. rk_step.
    pose proof (add_respects_length x (vscale (dt / snat 2)%S c)
                  (vscale dt c)) as Hhalf.
    destruct (Np.add x (vscale (dt / snat 2)%S c)) as [x2|e] eqn:E2.
    + rk_step. rewrite Hf. rk_step. rewrite E2. rk_step. rewrite Hf. rk_step.
      destruct (Np.add x (vscale dt c)) as [x4|e] eqn:E4.
      * rk_step. rewrite Hf. rk_step.
        rewrite (add_same_length c) by vlen. rk_step.
        rewrite (add_same_length (vadd c _)) by vlen. rk_step.
        rewrite (add_same_length (vadd (vadd c _) _)) by vlen. rk_step.
        rewrite weighted_stages_constant. exact E4.
      * exfalso. apply Hhalf. vlen.
    + rewrite bind_Raise.
      destruct (Np.add x (vscale dt c)) as [x4|e'].
      * exfalso. apply Hhalf. vlen.
      * f_equal. apply Hhalf. vlen.
  - intros Hlen. rewrite He. apply add_same_length. vlen.
Qed.
End ConstantDerivative.

(** ** The derivative of the state *)

Section StateDerivative.
Context {R : Type} `{Scalar R}.
Variable n_q : nat.
Variable model_stateSet : list R.
Variable model_muscularJointTorque : list R → list R → list R → list R.
Variable model_ForwardDynamics : list R → list R → list R → list R.

Local Notation "'xdot'" :=
  (x_dot n_q model_stateSet model_muscularJointTorque model_ForwardDynamics).
Local Notation "'acceleration'" :=
  (muscular_joint_acceleration model_stateSet model_muscularJointTorque
     model_ForwardDynamics).

(** Whatever [n_q] is, [x_dot] returns two numbers: the first velocity
    and the first acceleration. *)
Lemma x_dot_first_entries (x u : list R) (v a : R) (vs as_ : list R) :
  drop n_q x = v :: vs →
  acceleration u (take n_q x) (drop n_q x) = a :: as_ →
  length vs = length as_ →
  xdot x u = Ok [v; a].
Proof.
  intros Hv Ha Hlen. unfold x_dot. rewrite Ha, Hv.
  unfold Np.array. cbn [forallb length].
  rewrite Hlen, Nat.eqb_refl. reflexivity.
Qed.

(** X2.  On a state of length [2·n_q], with an acceleration of length
    [n_q], [x_dot] returns two entries, whatever [n_q] is: the first
    velocity [x[n_q]] and the first acceleration; the result has the
    length of the state only when [n_q = 1]. *)
Lemma x_dot_returns_two_entries (x u : list R) :
  1 ≤ n_q → length x = 2 * n_q →
  length (acceleration u (take n_q x) (drop n_q x)) = n_q →
  let v := nth n_q x s0 in
  let a := nth 0 (acceleration u (take n_q x) (drop n_q x)) s0 in
  x_dot n_q model_stateSet model_muscularJointTorque model_ForwardDynamics
    x u
  = Ok [v; a] ∧
  (length [v; a] = length x ↔ n_q = 1).
Proof.
  intros Hn Hx Ha. cbv zeta.
  assert (length (drop n_q x) = n_q) as Hv by (rewrite length_drop; lia).
  destruct (drop n_q x) as [|v vs] eqn:Ev; [cbn in Hv; lia|].
  destruct (acceleration u (take n_q x) (v :: vs)) as [|a as_] eqn:Ea;
    [cbn in Ha; lia|].
  assert (nth n_q x s0 = v) as ->.
  { apply nth_lookup_Some.
    rewrite <- (Nat.add_0_r n_q), <- lookup_drop, Ev. reflexivity. }
  cbn [nth]. split.
  - apply (x_dot_first_entries x u v a vs as_); [exact Ev | | ].
    + rewrite Ev. exact Ea.
    + cbn in Hv, Ha. lia.
  - cbn [length]. lia.
Qed.

(** X3.  With a single degree of freedom [x_dot] returns the whole
    derivative: the velocity, then the acceleration. *)
Lemma x_dot_one_dof (x u : list R) :
  n_q = 1 → length x = 2 →
  length (acceleration u (take n_q x) (drop n_q x)) = 1 →
  x_dot n_q model_stateSet model_muscularJointTorque model_ForwardDynamics
    x u
  = Ok (drop n_q x ++ acceleration u (take n_q x) (drop n_q x)).
Proof.
  intros Hn Hx Ha.
  destruct x as [|q [|v [|? ?]]]; try discriminate Hx.
  destruct (acceleration u (take n_q [q; v]) (drop n_q [q; v]))
    as [|a [|? ?]] eqn:E; try discriminate Ha.
  rewrite (x_dot_first_entries [q; v] u v a [] []).
  - subst n_q. reflexivity.
  - subst n_q. reflexivity.
  - exact E.
  - reflexivity.
Qed.
End StateDerivative.

(** ** Rectangular arrays and their transpose *)

Section Rectangular.
Context {R : Type} `{Scalar R}.

Lemma array_rectangular (d : nat) (rows : list (list R)) :
  Forall (λ r, length r = d) rows → Np.array rows = Ok rows.
Proof.
  intros Hrows. destruct rows as [|r rs]; [reflexivity|].
  unfold Np.array. apply Forall_cons in Hrows as [Hr Hrs].
  replace (forallb (λ r', length r' =? length r) rs) with true;
    [reflexivity|].
  symmetry. apply forallb_forall. intros r' Hin.
  apply Nat.eqb_eq. rewrite Hr.
  rewrite Forall_forall in Hrs. apply Hrs, list_elem_of_In, Hin.
Qed.

Lemma nth_map_default {A B} (f : A → B) (l : list A) (k : nat) (d : A)
    (d' : B) :
  k < length l → nth k (map f l) d' = f (nth k l d).
Proof.
  intros Hk. rewrite (nth_indep _ d' (f d)) by (rewrite length_map; exact Hk).
  apply map_nth.
Qed.

Lemma lookup_nth {A} (l : list A) (k : nat) (d : A) :
  k < length l → l !! k = Some (nth k l d).
Proof.
  intros Hk. destruct (nth_lookup_or_length l k d) as [Hl|Hl];
    [exact Hl | lia].
Qed.

Lemma map_nth_seq_id (l : list R) :
  map (λ j, nth j l s0) (seq 0 (length l)) = l.
Proof.
  apply nth_ext with (d := s0) (d' := s0).
  - rewrite length_map, length_seq. reflexivity.
  - intros j Hj. rewrite length_map, length_seq in Hj.
    rewrite (nth_map_default _ _ _ 0) by (rewrite length_seq; exact Hj).
    rewrite seq_nth by exact Hj. reflexivity.
Qed.

Lemma ncols_rectangular (d : nat) (rows : list (list R)) :
  Forall (λ r, length r = d) rows → rows ≠ [] → Np.ncols rows = d.
Proof.
  intros Hrows Hne. destruct rows as [|r rs]; [contradiction|].
  apply Forall_cons in Hrows as [Hr _]. exact Hr.
Qed.

(** Column [k] of the transposed array is row [k] of the array. *)
Lemma col_transpose (d k : nat) (rows : list (list R)) :
  Forall (λ r, length r = d) rows →
  k < length rows →
  Np.col k (Np.transpose rows) = Ok (nth k rows []).
Proof.
  intros Hrows Hk.
  assert (rows ≠ []) as Hne by (intros ->; cbn in Hk; lia).
  assert (length (nth k rows []) = d) as Hrow.
  { rewrite Forall_forall in Hrows.
    apply Hrows, list_elem_of_In, nth_In, Hk. }
  unfold Np.col, Np.transpose.
  rewrite (ncols_rectangular d) by assumption.
  rewrite (mapM_Ok_ext _ (λ r : list R, nth k r s0)).
  - rewrite map_map. f_equal. rewrite <- Hrow.
    rewrite <- (map_nth_seq_id (nth k rows [])) at 2.
    apply map_ext. intros j.
    apply (nth_map_default (λ r : list R, nth j r s0)), Hk.
  - apply Forall_forall. intros r Hr.
    apply list_elem_of_In, in_map_iff in Hr as (j & <- & _).
    rewrite (lookup_nth _ k s0) by (rewrite length_map; exact Hk).
    reflexivity.
Qed.
End Rectangular.

(** ** The trajectory driver, in any arithmetic *)

Section TrajectoryShape.
Context {R : Type} `{Scalar R}.
Variable final_time dt : R.
Variable f : list R → list R → result (list R).
Variable u : list R.
Variable g :
  R → list R → (list R → list R → result (list R)) → list R →
  result (list R).

(** Whenever the loop returns, it has appended the running times up to
    the first one that fails the test [t <= final_time], and one state per
    time. *)
Lemma loop_returns (fuel k : nat) (tv tv' : list R)
    (ax ax' : list (list R)) (x : list R) :
  List.last tv s0 = running_time dt k →
  perform_integration_loop fuel final_time dt f u g tv ax x
  = Some (Ok (tv', ax')) →
  ∃ n, k ≤ n ∧
       tv' = tv ++ map (running_time dt) (seq (S k) (n - k)) ∧
       length ax' = length ax + (n - k) ∧
       (∀ j, k ≤ j < n → sle (running_time dt j) final_time) ∧
       slt final_time (running_time dt n).
Proof.
  revert k tv ax x.
  induction fuel as [|fuel IH]; intros k tv ax x Hlast Hrun; [discriminate|].
  cbn [perform_integration_loop] in Hrun. rewrite Hlast in Hrun.
  destruct (sleb (running_time dt k) final_time) eqn:Htest.
  - destruct (g dt x f u) as [x'|e]; [|discriminate].
    apply IH with (k := S k) in Hrun; [|apply last_last].
    destruct Hrun as (n & Hkn & Htv & Hax & Hbefore & Hpast).
    exists n. split; [lia|]. split; [|split; [|split]].
    + rewrite Htv, <- app_assoc. f_equal.
      replace (n - k) with (S (n - S k)) by lia. reflexivity.
    + rewrite Hax, length_app. cbn [length]. lia.
    + intros j Hj. destruct (decide (j = k)) as [->|Hne]; [exact Htest|].
      apply Hbefore. lia.
    + exact Hpast.
  - injection Hrun as <- <-. exists k. split; [lia|].
    rewrite Nat.sub_diag. cbn [seq map]. rewrite app_nil_r.
    split; [reflexivity|]. split; [lia|]. split; [intros j Hj; lia|].
    exact Htest.
Qed.

(** X5.  The times [perform_integration] returns, whatever the
    arithmetic and the step function: the running sums
    [0, 0 + Δt, (0 + Δt) + Δt, …] up to the first one that is not
    [<= final_time]. *)
Lemma perform_integration_returns (fuel : nat) (x0 : list R)
    (times : list R) (all_x : list (list R)) :
  perform_integration fuel final_time dt x0 f u g = Some (Ok (times, all_x)) →
  ∃ n, times = map (running_time dt) (seq 0 (S n)) ∧
       (∀ j, j < n → sle (running_time dt j) final_time) ∧
       slt final_time (running_time dt n).
Proof.
  unfold perform_integration. intros Hrun.
  destruct (perform_integration_loop _ _ _ _ _ _ _ _ _)
    as [[[tv ax]|e]|] eqn:Hloop; try discriminate Hrun.
  cbn [mbind option_bind] in Hrun. rewrite bind_Ok in Hrun.
  destruct (Np.array ax) as [m|e]; [|discriminate Hrun].
  rewrite bind_Ok in Hrun. injection Hrun as <- _.
  apply (loop_returns fuel 0) in Hloop; [|reflexivity].
  destruct Hloop as (n & _ & Htv & _ & Hbefore & Hpast).
  exists n. split; [|split].
  - rewrite Htv, Nat.sub_0_r. reflexivity.
  - intros j Hj. apply Hbefore. lia.
  - exact Hpast.
Qed.
End TrajectoryShape.

(** ** The trajectory driver, in exact arithmetic *)

Section Trajectory.
Context {R : Type} `{ExactArith R}.
Variable final_time dt : R.
Variable x0 : list R.
Variable f : list R → list R → result (list R).
Variable u : list R.
Variable g :
  R → list R → (list R → list R → result (list R)) → list R →
  result (list R).
Variable step : list R → list R.
Hypothesis dt_positive : slt s0 dt.
Hypothesis g_conforming : conforming g dt f u x0 step.

Local Notation "'time'" := (sample_time dt).
Local Notation "'state'" := (nth_state step x0).

Lemma length_state (k : nat) : length (state k) = length x0.
Proof.
  induction k as [|k IH]; [reflexivity|].
  apply (g_conforming (state k) IH).
Qed.

Lemma g_state (k : nat) : g dt (state k) f u = Ok (state (S k)).
Proof. apply (g_conforming (state k) (length_state k)). Qed.

(** The loop, entered with the samples up to index [k], leaves with the
    samples up to the first index [n] whose time is past [final_time]. *)
Lemma loop_run (fuel k n : nat) :
  k ≤ n → n - k < fuel →
  (∀ j, j < n → sle (time j) final_time) →
  slt final_time (time n) →
  perform_integration_loop fuel final_time dt f u g
    (map time (seq 0 (S k))) (map state (seq 0 (S k))) (state k)
  = Some (Ok (map time (seq 0 (S n)), map state (seq 0 (S n)))).
Proof.
  intros Hkn Hfuel Hbefore Hpast. revert k Hkn Hfuel.
  induction fuel as [|fuel IH]; intros k Hkn Hfuel; [lia|].
  cbn [perform_integration_loop].
  assert (List.last (map time (seq 0 (S k))) s0 = time k) as ->.
  { rewrite seq_S, map_app. apply last_last. }
  destruct (decide (k = n)) as [->|Hne].
  - rewrite Hpast. reflexivity.
  - rewrite (Hbefore k) by lia. rewrite g_state.
    rewrite last_last.
    replace (map time (seq 0 (S k)) ++ [(time k + dt)%S])
      with (map time (seq 0 (S (S k))))
      by (rewrite (seq_S (S k)), map_app; cbn [map Nat.add];
          rewrite sample_time_S; reflexivity).
    replace (map state (seq 0 (S k)) ++ [state (S k)])
      with (map state (seq 0 (S (S k))))
      by (rewrite (seq_S (S k)), map_app; reflexivity).
    apply IH; lia.
Qed.

Lemma perform_integration_run (fuel n : nat) :
  n < fuel →
  (∀ j, j < n → sle (time j) final_time) →
  slt final_time (time n) →
  perform_integration fuel final_time dt x0 f u g
  = Some (Ok (map time (seq 0 (S n)),
              Np.transpose (map state (seq 0 (S n))))).
Proof.
  intros Hfuel Hbefore Hpast. unfold perform_integration.
  assert (perform_integration_loop fuel final_time dt f u g [s0] [x0] x0
          = Some (Ok (map time (seq 0 (S n)), map state (seq 0 (S n)))))
    as Hloop.
  { rewrite <- (sample_time_0 dt).
    apply (loop_run fuel 0 n); [lia | lia | assumption | assumption]. }
  rewrite Hloop. cbn [mbind option_bind].
  f_equal. rewrite bind_Ok.
  rewrite (array_rectangular (length x0)).
  - reflexivity.
  - apply Forall_forall. intros r Hr.
    apply list_elem_of_In, in_map_iff in Hr as (k & <- & _).
    apply length_state.
Qed.

Lemma col_state (n k : nat) :
  k ≤ n →
  Np.col k (Np.transpose (map state (seq 0 (S n)))) = Ok (state k).
Proof.
  intros Hk. rewrite (col_transpose (length x0)).
  - rewrite (nth_map_default _ _ _ 0) by (rewrite length_seq; lia).
    rewrite seq_nth by lia. reflexivity.
  - apply Forall_forall. intros r Hr.
    apply list_elem_of_In, in_map_iff in Hr as (j & <- & _).
    apply length_state.
  - rewrite length_map, length_seq. lia.
Qed.

(** The first sample at or after [final_time] is the last one returned
    or the one before it. *)
Lemma first_sample_at_or_after (n : nat) :
  (∀ j, j < n → sle (time j) final_time) →
  slt final_time (time n) →
  ∃ m, sle final_time (time m) ∧
       (∀ k, k < m → slt (time k) final_time) ∧
       (n = m ∨ n = S m).
Proof.
  intros Hbefore Hpast. destruct n as [|n].
  - exists 0. split; [apply slt_sle, Hpast|]. split; [intros k Hk; lia|].
    left. reflexivity.
  - destruct (sle_lt_or_eq (time n) final_time) as [Hlt|Heq].
    + apply Hbefore. lia.
    + exists (S n). split; [apply slt_sle, Hpast|]. split; [|left; reflexivity].
      intros k Hk. destruct (decide (k = n)) as [->|Hne]; [exact Hlt|].
      eapply slt_trans; [|exact Hlt].
      apply sample_time_mono; [exact dt_positive | lia].
    + exists n. split; [rewrite Heq; apply sle_refl|].
      split; [|right; reflexivity].
      intros k Hk. rewrite <- Heq.
      apply sample_time_mono; [exact dt_positive | lia].
Qed.
End Trajectory.

Section TrajectoryResults.
Context {R : Type} `{ExactArith R}.

Lemma sample_times_sorted (dt : R) (a len : nat) :
  slt s0 dt → StronglySorted slt (map (sample_time dt) (seq a len)).
Proof.
  intros Hdt. revert a. induction len as [|len IH]; intros a.
  - constructor.
  - cbn [seq map]. constructor; [apply IH|].
    apply Forall_forall. intros t Ht.
    apply list_elem_of_In, in_map_iff in Ht as (j & <- & Hj).
    apply in_seq in Hj. apply sample_time_mono; [exact Hdt | lia].
Qed.

Lemma sample_times_lookup (dt : R) (n k : nat) (t : R) :
  map (sample_time dt) (seq 0 (S n)) !! k = Some t →
  k ≤ n ∧ t = sample_time dt k.
Proof.
  intros Hk. pose proof (lookup_lt_Some _ _ _ Hk) as Hlt.
  rewrite length_map, length_seq in Hlt. split; [lia|].
  rewrite (lookup_nth _ k s0) in Hk by (rewrite length_map, length_seq; lia).
  rewrite (nth_map_default _ _ _ 0) in Hk by (rewrite length_seq; lia).
  rewrite seq_nth in Hk by lia. cbn [Nat.add] in Hk. congruence.
Qed.

(** In exact arithmetic, with a positive step and a step function [g]
    that honours the contract, [perform_integration] returns, given fuel for its [n + 1]
    tests of the loop condition, the times [0, Δt, …, n·Δt] and the array
    whose columns are the states [x0, x1, …, xn] with
    [x(k+1) = g(Δt, xk, f, u)].  The loop runs while the last time is
    [≤ final_time]: every time but the last is [≤ final_time], the last
    one is past it, and it is the first sample at or after [final_time]
    or the one right after that. *)
Lemma perform_integration_trajectory_exact (final_time dt : R) (x0 : list R)
    (f : list R → list R → result (list R)) (u : list R)
    (g : R → list R → (list R → list R → result (list R)) → list R →
         result (list R))
    (step : list R → list R) :
  slt s0 dt →
  conforming g dt f u x0 step →
  ∃ n,
    (∀ fuel, n < fuel →
       perform_integration fuel final_time dt x0 f u g
       = Some (Ok (map (sample_time dt) (seq 0 (S n)),
                   Np.transpose (map (nth_state step x0) (seq 0 (S n)))))) ∧
    (∀ k, k ≤ n →
       Np.col k (Np.transpose (map (nth_state step x0) (seq 0 (S n))))
       = Ok (nth_state step x0 k)) ∧
    (∀ k, g dt (nth_state step x0 k) f u = Ok (nth_state step x0 (S k))) ∧
    (∀ k, k < n → sle (sample_time dt k) final_time) ∧
    slt final_time (sample_time dt n) ∧
    (∃ m, sle final_time (sample_time dt m) ∧
          (∀ k, k < m → slt (sample_time dt k) final_time) ∧
          (n = m ∨ n = S m)).
Proof.
  intros Hdt Hg.
  destruct (first_sample_past final_time dt Hdt) as (n & Hpast & Hbefore).
  exists n. repeat split.
  - intros fuel Hfuel. apply perform_integration_run; assumption.
  - intros k Hk. eapply col_state; eassumption.
  - intros k. eapply g_state; eassumption.
  - exact Hbefore.
  - exact Hpast.
  - apply first_sample_at_or_after; assumption.
Qed.

(** In exact arithmetic, with a positive step, the driver returns: its
    times are [0, Δt, …, n·Δt] and increase strictly, column [k] of its
    array is the state after [k] steps, and among the samples is the
    first one at or after [final_time]: a time [≥ final_time] before
    which every time is [< final_time], with its state. *)
Lemma perform_integration_times_increasing_exact (final_time dt : R)
    (x0 : list R) (f : list R → list R → result (list R)) (u : list R)
    (g : R → list R → (list R → list R → result (list R)) → list R →
         result (list R))
    (step : list R → list R) :
  slt s0 dt →
  conforming g dt f u x0 step →
  ∃ n times all_x,
    (∀ fuel, n < fuel →
       perform_integration fuel final_time dt x0 f u g
       = Some (Ok (times, all_x))) ∧
    length times = S n ∧
    (∀ k, k ≤ n →
       times !! k = Some (sample_time dt k) ∧
       Np.col k all_x = Ok (nth_state step x0 k)) ∧
    StronglySorted slt times ∧
    (∃ m t, m ≤ n ∧ times !! m = Some t ∧ sle final_time t ∧
            (∀ k t', k < m → times !! k = Some t' → slt t' final_time) ∧
            Np.col m all_x = Ok (nth_state step x0 m)).
Proof.
  intros Hdt Hg.
  destruct (first_sample_past final_time dt Hdt) as (n & Hpast & Hbefore).
  exists n, (map (sample_time dt) (seq 0 (S n))),
    (Np.transpose (map (nth_state step x0) (seq 0 (S n)))).
  assert (∀ k, k ≤ n →
            map (sample_time dt) (seq 0 (S n)) !! k = Some (sample_time dt k))
    as Hlookup.
  { intros k Hk.
    rewrite (lookup_nth _ k s0) by (rewrite length_map, length_seq; lia).
    rewrite (nth_map_default _ _ _ 0) by (rewrite length_seq; lia).
    rewrite seq_nth by lia. reflexivity. }
  split; [|split; [|split; [|split]]].
  - intros fuel Hfuel. eapply perform_integration_run; eassumption.
  - rewrite length_map, length_seq. reflexivity.
  - intros k Hk. split; [apply Hlookup, Hk|].
    eapply col_state; eassumption.
  - apply sample_times_sorted, Hdt.
  - destruct (first_sample_at_or_after final_time dt Hdt n Hbefore Hpast)
      as (m & Hm & Hearlier & Hnm).
    exists m, (sample_time dt m).
    split; [lia|]. split; [apply Hlookup; lia|]. split; [exact Hm|].
    split.
    + intros k t' Hk Ht'. apply sample_times_lookup in Ht' as [_ ->].
      apply Hearlier, Hk.
    + eapply col_state; [eassumption | lia].
Qed.
End TrajectoryResults.

(** ** The cost of a shot *)

Section Cost.
Context {R : Type} `{ExactArith R}.

Add Ring scalar_ring_cost : (F_R ea_field).

Lemma fold_sum (l : list R) (a : R) : fold_left sadd l a = (a + Np.sum l)%S.
Proof.
  unfold Np.sum. revert a. induction l as [|v l IH]; intros a; cbn [fold_left].
  - ring.
  - rewrite IH, (IH (s0 + v)%S). ring.
Qed.

Lemma sum_cons (v : R) (l : list R) : Np.sum (v :: l) = (v + Np.sum l)%S.
Proof. unfold Np.sum at 1. cbn [fold_left]. rewrite fold_sum. ring. Qed.

Lemma sum_nil : Np.sum [] = (s0 : R).
Proof. reflexivity. Qed.

Lemma sum_zero {A} (l : list A) : Np.sum (map (λ _, s0 : R) l) = s0.
Proof.
  induction l as [|a l IH]; [reflexivity|].
  cbn [map]. rewrite sum_cons, IH. ring.
Qed.

Lemma sum_plus {A} (F G : A → R) (l : list A) :
  Np.sum (map (λ a, (F a + G a)%S) l)
  = (Np.sum (map F l) + Np.sum (map G l))%S.
Proof.
  induction l as [|a l IH]; cbn [map].
  - rewrite sum_nil. ring.
  - rewrite !sum_cons, IH. ring.
Qed.

(** A double sum may be taken in either order. *)
Lemma sum_swap {A B} (F : A → B → R) (la : list A) (lb : list B) :
  Np.sum (map (λ a, Np.sum (map (F a) lb)) la)
  = Np.sum (map (λ b, Np.sum (map (λ a, F a b) la)) lb).
Proof.
  induction la as [|a la IH]; cbn [map].
  - rewrite sum_nil. symmetry. apply sum_zero.
  - rewrite sum_cons, IH.
    rewrite <- sum_plus. f_equal. apply map_ext. intros b.
    rewrite sum_cons. reflexivity.
Qed.

(** Subtracting a one-entry array subtracts its entry everywhere. *)
Lemma sub_scalar_row (row : list R) (θ : R) :
  Np.bcast (Np.pure2 ssub) row [θ] = Ok (map (λ v, (v - θ)%S) row).
Proof.
  unfold Np.bcast. case_decide as Hlen.
  - destruct row as [|v [|? ?]]; try discriminate Hlen. reflexivity.
  - destruct row as [|v [|v' row]].
    + reflexivity.
    + contradiction Hlen. reflexivity.
    + unfold Np.pure2. apply mapM_Ok.
Qed.

Lemma sub21_scalar (a : list (list R)) (θ : R) :
  Np.sub21 a [θ] = Ok (map (map (λ v, (v - θ)%S)) a).
Proof.
  unfold Np.sub21, Np.sub2, Np.bcast at 1. case_decide as Hlen.
  - destruct a as [|row [|? ?]]; try discriminate Hlen.
    cbn [zip zip_with mapM fst snd]. rewrite sub_scalar_row. reflexivity.
  - destruct a as [|row [|row' a]].
    + reflexivity.
    + contradiction Hlen. reflexivity.
    + apply mapM_Ok_ext, Forall_forall. intros r _. apply sub_scalar_row.
Qed.

Lemma take_as_nth (n : nat) (r : list R) :
  take n r = map (λ j, nth j r s0) (seq 0 (n `min` length r)).
Proof.
  rewrite <- (map_nth_seq_id r) at 1.
  rewrite firstn_map, take_seq. reflexivity.
Qed.

(** The sum over the first [n] rows of the transposed trajectory is the
    sum over the samples of the sum over their first [n] entries. *)
Lemma sum2_take_transpose (φ : R → R) (n d : nat) (rows : list (list R)) :
  Forall (λ r, length r = d) rows → rows ≠ [] →
  Np.sum2 (map (map φ) (take n (Np.transpose rows)))
  = Np.sum (map (λ r, Np.sum (map φ (take n r))) rows).
Proof.
  intros Hrows Hne. unfold Np.sum2, Np.transpose.
  rewrite (ncols_rectangular d) by assumption.
  rewrite firstn_map, take_seq, !map_map.
  erewrite (map_ext _ (λ j, Np.sum (map (λ r, φ (nth j r s0)) rows)))
    by (intros j; rewrite map_map; reflexivity).
  rewrite <- (sum_swap (λ (r : list R) j, φ (nth j r s0))).
  f_equal. apply map_ext_in. intros r Hr.
  rewrite take_as_nth, map_map.
  rewrite Forall_forall in Hrows.
  rewrite (Hrows r) by (apply list_elem_of_In, Hr). reflexivity.
Qed.

Lemma square2_map (a : list (list R)) (θ : R) :
  Np.square2 (map (map (λ v, (v - θ)%S)) a)
  = map (map (λ v, ((v - θ) * (v - θ))%S)) a.
Proof.
  unfold Np.square2. rewrite map_map. apply map_ext. intros r.
  rewrite map_map. reflexivity.
Qed.

(** In exact arithmetic, the cost of an augmented vector [x]: the trajectory driver
    integrates from the state part [x[:2·n_q]] under the constant control
    [x[2·n_q:]]; the cost is the sum, over every sample the driver returns
    and not only the last, of the squared deviation of the sample's joint
    position from the target.  The target is a one-entry array, as in the
    notebook. *)
Lemma lagrange_cost_is_path_cost_exact (n_q : nat) (θ final_time dt : R)
    (f : list R → list R → result (list R))
    (g : R → list R → (list R → list R → result (list R)) → list R →
         result (list R))
    (x : list R) (step : list R → list R) :
  slt s0 dt →
  conforming g dt f (drop (n_q * 2) x) (take (n_q * 2) x) step →
  ∃ n, ∀ fuel, n < fuel →
    ∃ t x_integrated,
      perform_integration fuel final_time dt (take (n_q * 2) x) f
        (drop (n_q * 2) x) g
      = Some (Ok (t, x_integrated)) ∧
      length t = S n ∧
      (∀ k, k ≤ n →
         Np.col k x_integrated = Ok (nth_state step (take (n_q * 2) x) k)) ∧
      lagrange_cost_function n_q [θ] final_time dt f g fuel x
      = Some (Ok (Np.sum
                    (map (λ k, squared_deviation θ
                                 (take n_q
                                    (nth_state step (take (n_q * 2) x) k)))
                         (seq 0 (S n))))).
Proof.
  intros Hdt Hg.
  destruct (first_sample_past final_time dt Hdt) as (n & Hpast & Hbefore).
  exists n. intros fuel Hfuel.
  pose proof (perform_integration_run final_time dt (take (n_q * 2) x) f
                (drop (n_q * 2) x) g step Hg fuel n Hfuel Hbefore Hpast)
    as Hrun.
  eexists _, _. split; [exact Hrun|].
  split; [rewrite length_map, length_seq; reflexivity|].
  split; [intros k Hk; eapply col_state; eassumption|].
  unfold lagrange_cost_function. rewrite Hrun.
  cbn [mbind option_bind]. f_equal. rewrite bind_Ok.
  rewrite sub21_scalar, bind_Ok, square2_map.
  unfold mret, result_ret. f_equal.
  rewrite (sum2_take_transpose _ n_q (length (take (n_q * 2) x))).
  - rewrite map_map. reflexivity.
  - apply Forall_forall. intros r Hr.
    apply list_elem_of_In, in_map_iff in Hr as (k & <- & _).
    eapply length_state; eassumption.
  - discriminate.
Qed.
End Cost.

(** ** Inverse kinematics *)

Lemma py_bind_run {R A B} (m : py R A) (k : A → py R B) (w : world R) :
  (m ≫= k) w =
    match m w with
    | (Ok a, w') => k a w'
    | (Raise e, w') => (Raise e, w')
    end.
Proof. reflexivity. Qed.

Section ColumnArrays.
Context {R : Type} `{Scalar R}.

Lemma col_newaxis (q : list R) : Np.col 0 (Np.newaxis q) = Ok q.
Proof.
  unfold Np.col, Np.newaxis.
  rewrite (mapM_Ok_ext _ (λ r : list R, nth 0 r s0)).
  - rewrite map_map. cbn [nth]. rewrite map_id. reflexivity.
  - apply Forall_forall. intros r Hr.
    apply list_elem_of_In, in_map_iff in Hr as (v & <- & _). reflexivity.
Qed.

Lemma length_newaxis (q : list R) : length (Np.newaxis q) = length q.
Proof. apply length_map. Qed.

Lemma zip_newaxis (op : R → R → R) (a b : list R) :
  zip_with (zip_with op) (Np.newaxis a) (Np.newaxis b)
  = Np.newaxis (zip_with op a b).
Proof.
  revert b. induction a as [|x a IH]; intros [|y b]; try reflexivity.
  cbn. f_equal. apply IH.
Qed.

Lemma Forall2_newaxis (op : R → R → R) (a b : list R) :
  length a = length b →
  Forall2 (λ x y, Np.bcast (Np.pure2 op) x y = Ok (zip_with op x y))
    (Np.newaxis a) (Np.newaxis b).
Proof.
  intros Hlen. apply Forall2_same_length_lookup_2.
  - rewrite !length_newaxis. exact Hlen.
  - intros i x y Hx Hy.
    apply list_elem_of_lookup_2, list_elem_of_In, in_map_iff in Hx
      as (v & <- & _).
    apply list_elem_of_lookup_2, list_elem_of_In, in_map_iff in Hy
      as (v' & <- & _).
    reflexivity.
Qed.

Lemma Forall2_newaxis_i (op : R → R → R) (a b : list R) :
  length a = length b →
  Forall2 (λ x y, Np.ibcast (Np.pure2 op) x y = Ok (zip_with op x y))
    (Np.newaxis a) (Np.newaxis b).
Proof.
  intros Hlen. apply Forall2_same_length_lookup_2.
  - rewrite !length_newaxis. exact Hlen.
  - intros i x y Hx Hy.
    apply list_elem_of_lookup_2, list_elem_of_In, in_map_iff in Hx
      as (v & <- & _).
    apply list_elem_of_lookup_2, list_elem_of_In, in_map_iff in Hy
      as (v' & <- & _).
    reflexivity.
Qed.

Lemma sub2_columns (a b : list R) :
  length a = length b →
  Np.sub2 (Np.newaxis a) (Np.newaxis b) = Ok (Np.newaxis (vsub a b)).
Proof.
  intros Hlen. unfold Np.sub2.
  rewrite (bcast_zip _ (zip_with ssub)) by (apply Forall2_newaxis, Hlen).
  rewrite zip_newaxis. reflexivity.
Qed.

Lemma isub2_columns (a b : list R) :
  length a = length b →
  Np.isub2 (Np.newaxis a) (Np.newaxis b) = Ok (Np.newaxis (vsub a b)).
Proof.
  intros Hlen. unfold Np.isub2.
  rewrite (ibcast_zip _ (zip_with ssub)) by (apply Forall2_newaxis_i, Hlen).
  rewrite zip_newaxis. reflexivity.
Qed.

Lemma transpose_newaxis (v : list R) :
  v ≠ [] → Np.transpose (Np.newaxis v) = [v].
Proof.
  intros Hv. destruct v as [|x v]; [contradiction|].
  unfold Np.transpose. cbn [Np.newaxis map Np.ncols length seq].
  f_equal. cbn [nth]. f_equal.
  rewrite map_map. cbn [nth]. apply map_id.
Qed.

Lemma matmul_column (a : list (list R)) (v : list R) :
  v ≠ [] → Forall (λ row, length row = length v) a →
  Np.matmul a (Np.newaxis v) = Ok (Np.newaxis (mvmul a v)).
Proof.
  intros Hv Ha. unfold Np.matmul.
  rewrite (mapM_Ok_ext _ (λ r : list R, [Np.dot r v])).
  - unfold Np.newaxis, mvmul. rewrite map_map. reflexivity.
  - eapply Forall_impl; [exact Ha|]. intros r Hr. cbn beta.
    rewrite decide_True by (rewrite length_newaxis; exact Hr).
    rewrite transpose_newaxis by exact Hv. reflexivity.
Qed.

Lemma fold_left_app_concat (ls : list (list R)) (acc : list R) :
  fold_left (λ acc m, acc ++ m) ls acc = acc ++ concat ls.
Proof.
  revert acc. induction ls as [|l ls IH]; intros acc; cbn.
  - rewrite app_nil_r. reflexivity.
  - rewrite IH, app_assoc. reflexivity.
Qed.

Lemma concatenate_rows_Ok (n : nat) (a b : list (list R)) :
  Forall (λ r, length r = n) b → Np.concatenate_rows n a b = Ok (a ++ b).
Proof.
  intros Hb. unfold Np.concatenate_rows.
  destruct (list_find _ b) as [[i r]|] eqn:E; [|reflexivity].
  apply list_find_Some in E as (Hi & Hr & _).
  rewrite Forall_forall in Hb. contradiction Hr.
  eapply Hb, list_elem_of_lookup_2, Hi.
Qed.

Lemma fold_concatenate_rows (n : nat) (blocks : list (list (list R)))
    (acc : list (list R)) :
  Forall (Forall (λ r, length r = n)) blocks →
  foldl (λ acc j, jacobianMatrix ← acc; Np.concatenate_rows n jacobianMatrix j)
    (Ok acc) blocks
  = Ok (acc ++ concat blocks).
Proof.
  intros Hb. revert acc. induction Hb as [|b blocks Hb _ IH]; intros acc.
  - cbn. rewrite app_nil_r. reflexivity.
  - cbn [foldl]. rewrite bind_Ok, concatenate_rows_Ok by exact Hb.
    rewrite IH. cbn [concat]. rewrite app_assoc. reflexivity.
Qed.
End ColumnArrays.

Section Solver.
Context {R : Type} `{Scalar R}.
Variable n_q n_markers : nat.
Variable model_markers : list R → list (list R).
Variable model_markersJacobian : list R → list (list (list R)).
Variable pinv : list (list R) → list (list R).
Hypothesis shapes :
  well_shaped model_markers model_markersJacobian pinv n_q n_markers.

Local Notation "'fk'" := (simulated model_markers).
Local Notation "'jac'" := (jacobian model_markersJacobian).
Local Notation "'update'" :=
  (ik_update model_markers model_markersJacobian pinv).
Local Notation "'events'" := (ik_events model_markersJacobian).
Local Notation "'trace'" :=
  (ik_trace model_markers model_markersJacobian pinv).
Local Notation "'body'" :=
  (inverse_kinematics_body n_q model_markers model_markersJacobian pinv).
Local Notation "'loop'" :=
  (inverse_kinematics_loop n_q model_markers model_markersJacobian pinv).

Lemma length_concat_fixed {A} (k : nat) (ls : list (list A)) :
  Forall (λ l, length l = k) ls → length (concat ls) = length ls * k.
Proof.
  induction 1 as [|l ls Hl _ IH]; [reflexivity|].
  cbn. rewrite length_app, Hl, IH. reflexivity.
Qed.

Lemma length_fk (q : list R) : length q = n_q → length (fk q) = 3 * n_markers.
Proof.
  intros Hq. destruct shapes as (Hm & _ & _).
  destruct (Hm q Hq) as [Hlen Hall].
  unfold simulated. rewrite (length_concat_fixed 3) by exact Hall. lia.
Qed.

Lemma jac_is_mat (q : list R) :
  length q = n_q → is_mat (3 * n_markers) n_q (jac q).
Proof.
  intros Hq. destruct shapes as (_ & HJ & _).
  destruct (HJ q Hq) as [Hlen Hall]. unfold jacobian. split.
  - rewrite (length_concat_fixed 3); [lia|].
    eapply Forall_impl; [exact Hall|]. intros b [Hb _]. exact Hb.
  - apply Forall_concat. eapply Forall_impl; [exact Hall|].
    intros b [_ Hb]. exact Hb.
Qed.

Lemma pinv_jac_is_mat (q : list R) :
  length q = n_q → is_mat n_q (3 * n_markers) (pinv (jac q)).
Proof.
  intros Hq. destruct shapes as (_ & _ & Hp). apply Hp, jac_is_mat, Hq.
Qed.

Lemma length_update (observed q : list R) :
  length q = n_q → length (update observed q) = n_q.
Proof.
  intros Hq. unfold ik_update, vsub, mvmul.
  rewrite length_zip_with, length_map.
  destruct (pinv_jac_is_mat q Hq) as [-> _]. lia.
Qed.

Lemma forward_kinematics_run (q : list R) (w : world R) :
  forward_kinematics model_markers q w
  = (Ok (Np.newaxis (fk q)), World (heap w) (calls w ++ [Ev_markers q])).
Proof.
  unfold forward_kinematics. rewrite py_bind_run. cbn [call heap calls].
  rewrite fold_left_app_concat. reflexivity.
Qed.

Lemma marker_jacobian_run (q : list R) (w : world R) :
  length q = n_q →
  marker_jacobian n_q model_markersJacobian q w
  = (Ok (jac q), World (heap w) (calls w ++ [Ev_markersJacobian q])).
Proof.
  intros Hq. unfold marker_jacobian. rewrite py_bind_run.
  cbn [call heap calls]. unfold lift.
  destruct shapes as (_ & HJ & _). destruct (HJ q Hq) as [_ Hall].
  rewrite fold_concatenate_rows; [reflexivity|].
  eapply Forall_impl; [exact Hall|]. intros b [_ Hb]. exact Hb.
Qed.

(** One iteration on well-shaped operands: the three collaborators are
    consulted at the current [q], and the array of [q] is overwritten
    with the updated [q]. *)
Lemma body_run (r p : nat) (observed q : list R) (w : world R) :
  1 ≤ n_markers →
  heap w !! r = Some (Np.newaxis observed) →
  heap w !! p = Some (Np.newaxis q) →
  length observed = 3 * n_markers → length q = n_q →
  body r p w
  = (Ok (), World (<[p := Np.newaxis (update observed q)]> (heap w))
                  (calls w ++ events q)).
Proof.
  intros Hn Hr Hp Hobs Hq. unfold inverse_kinematics_body.
  rewrite py_bind_run. unfold load at 1. rewrite Hp.
  rewrite py_bind_run. unfold lift at 1. rewrite col_newaxis.
  rewrite py_bind_run, forward_kinematics_run.
  rewrite py_bind_run. unfold load at 1. cbn [heap]. rewrite Hp.
  rewrite py_bind_run. unfold lift at 1. rewrite col_newaxis.
  rewrite py_bind_run, marker_jacobian_run by exact Hq.
  rewrite py_bind_run. cbn [call heap calls].
  rewrite py_bind_run. unfold load at 1. cbn [heap]. rewrite Hr.
  rewrite py_bind_run. unfold lift at 1.
  rewrite sub2_columns by (rewrite length_fk by exact Hq; lia).
  rewrite py_bind_run. unfold lift at 1.
  pose proof (length_fk q Hq) as Hfk.
  destruct (pinv_jac_is_mat q Hq) as [Hrows Hcols].
  rewrite matmul_column.
  - rewrite py_bind_run. unfold load at 1. cbn [heap]. rewrite Hp.
    rewrite py_bind_run. unfold lift at 1.
    rewrite isub2_columns
      by (unfold mvmul; rewrite length_map, Hrows; exact Hq).
    unfold store. cbn [heap calls].
    rewrite <- !app_assoc. reflexivity.
  - intros Hnil. apply (f_equal length) in Hnil.
    unfold vsub in Hnil. rewrite length_zip_with, Hfk, Hobs in Hnil.
    cbn in Hnil. lia.
  - eapply Forall_impl; [exact Hcols|]. intros row Hrow. cbn beta.
    unfold vsub. rewrite length_zip_with, Hfk, Hobs, Hrow. lia.
Qed.

Lemma loop_run_ik (n r p : nat) (observed q : list R) (w : world R) :
  1 ≤ n_markers → r ≠ p →
  heap w !! r = Some (Np.newaxis observed) →
  heap w !! p = Some (Np.newaxis q) →
  length observed = 3 * n_markers → length q = n_q →
  loop n r p w
  = (Ok (), World (<[p := Np.newaxis (Nat.iter n (update observed) q)]>
                     (heap w))
                  (calls w ++ trace observed q n)).
Proof.
  intros Hn Hrp. revert q w.
  induction n as [|n IH]; intros q w Hr Hp Hobs Hq.
  - cbn [inverse_kinematics_loop Nat.iter ik_trace].
    rewrite app_nil_r, insert_id by exact Hp. 
    destruct w. reflexivity.
  - cbn [inverse_kinematics_loop]. rewrite py_bind_run.
    rewrite (body_run r p observed q) by assumption.
    rewrite (IH (update observed q)).
    + cbn [heap calls ik_trace]. rewrite insert_insert_eq, <- app_assoc.
      rewrite Nat.iter_succ_r. reflexivity.
    + cbn [heap]. rewrite lookup_insert_ne by congruence. exact Hr.
    + cbn [heap]. apply lookup_insert_eq.
    + exact Hobs.
    + apply length_update, Hq.
Qed.
End Solver.

Section SolverResults.
Context {R : Type} `{Scalar R}.
Variable n_q n_markers : nat.
Variable model_markers : list R → list (list R).
Variable model_markersJacobian : list R → list (list (list R)).
Variable pinv : list (list R) → list (list R).

Local Notation "'update'" :=
  (ik_update model_markers model_markersJacobian pinv).
Local Notation "'trace'" :=
  (ik_trace model_markers model_markersJacobian pinv).
Local Notation "'solve'" :=
  (inverse_kinematics n_q model_markers model_markersJacobian pinv).

Lemma length_trace (observed q : list R) (n : nat) :
  length (trace observed q n) = 3 * n.
Proof.
  revert q. induction n as [|n IH]; intros q; [reflexivity|].
  cbn [ik_trace]. rewrite length_app, IH. cbn [ik_events length]. lia.
Qed.

Lemma solve_run (r p : nat) (observed q0 : list R) (N : Z) (w : world R) :
  well_shaped model_markers model_markersJacobian pinv n_q n_markers →
  1 ≤ n_markers → r ≠ p →
  heap w !! r = Some (Np.newaxis observed) →
  heap w !! p = Some (Np.newaxis q0) →
  length observed = 3 * n_markers → length q0 = n_q →
  solve r p N w
  = (Ok p,
     World (<[p := Np.newaxis (Nat.iter (Z.to_nat N) (update observed) q0)]>
              (heap w))
           (calls w ++ trace observed q0 (Z.to_nat N))).
Proof.
  intros Hshapes Hn Hrp Hr Hp Hobs Hq. unfold inverse_kinematics.
  rewrite py_bind_run.
  rewrite (loop_run_ik n_q n_markers _ _ _ Hshapes _ r p observed q0)
    by assumption.
  reflexivity.
Qed.

(** C1.  On well-shaped operands [inverse_kinematics] runs the body of
    its loop exactly [N] times, without a test of convergence: the [N]
    iterations consult the markers, the Jacobian and its pseudo-inverse
    at the successive values of [q] and nothing else, each replaces [q]
    by [q − pinv(J(q)) · (simulated(q) − observed)], and the array that is
    returned holds the [N]-th such update of the initial guess. *)
Theorem inverse_kinematics_iterates (r p : nat) (observed q0 : list R)
    (N : Z) (w : world R) :
  well_shaped model_markers model_markersJacobian pinv n_q n_markers →
  1 ≤ n_markers → r ≠ p →
  heap w !! r = Some (Np.newaxis observed) →
  heap w !! p = Some (Np.newaxis q0) →
  length observed = 3 * n_markers → length q0 = n_q →
  ∃ q w',
    solve r p N w = (Ok q, w') ∧
    heap w' !! q
    = Some (Np.newaxis (Nat.iter (Z.to_nat N) (update observed) q0)) ∧
    calls w' = calls w ++ trace observed q0 (Z.to_nat N) ∧
    length (trace observed q0 (Z.to_nat N)) = 3 * Z.to_nat N.
Proof.
  intros Hshapes Hn Hrp Hr Hp Hobs Hq.
  eexists _, _. split; [apply solve_run; eassumption|].
  cbn [heap calls]. split; [apply lookup_insert_eq|].
  split; [reflexivity | apply length_trace].
Qed.

(** C9.  [inverse_kinematics] works in the caller's array: it returns
    the very array it was given as the initial guess, after the call that
    array holds the solved [q] and no longer the guess, and no other
    array of the caller has changed. *)
Theorem inverse_kinematics_in_place (r p : nat) (observed q0 : list R)
    (N : Z) (w : world R) :
  well_shaped model_markers model_markersJacobian pinv n_q n_markers →
  1 ≤ n_markers → r ≠ p →
  heap w !! r = Some (Np.newaxis observed) →
  heap w !! p = Some (Np.newaxis q0) →
  length observed = 3 * n_markers → length q0 = n_q →
  (1 ≤ N)%Z →
  ∃ w',
    solve r p N w = (Ok p, w') ∧
    heap w'
    = <[p := Np.newaxis (Nat.iter (Z.to_nat N) (update observed) q0)]>
        (heap w) ∧
    Nat.iter (Z.to_nat N) (update observed) q0
    = update observed (Nat.iter (Z.to_nat N - 1) (update observed) q0) ∧
    (∀ l, l ≠ p → heap w' !! l = heap w !! l).
Proof.
  intros Hshapes Hn Hrp Hr Hp Hobs Hq HN.
  eexists. split; [apply solve_run; eassumption|].
  cbn [heap]. split; [reflexivity|]. split.
  - destruct (Z.to_nat N) as [|n] eqn:E; [lia|].
    replace (S n - 1) with n by lia. reflexivity.
  - intros l Hl. apply lookup_insert_ne. congruence.
Qed.

(** X16.  A caller that wants to keep its guess copies it before the
    call: the copy is another array, and the solver leaves it alone. *)
Lemma guess_survives_in_copy (r p : nat) (observed q0 : list R)
    (N : Z) (w : world R) :
  well_shaped model_markers model_markersJacobian pinv n_q n_markers →
  1 ≤ n_markers → r ≠ p →
  heap w !! r = Some (Np.newaxis observed) →
  heap w !! p = Some (Np.newaxis q0) →
  length observed = 3 * n_markers → length q0 = n_q →
  ∃ kept w',
    (kept ← copy p; solved ← solve r p N; mret (kept, solved)) w
    = (Ok (kept, p), w') ∧
    kept ≠ p ∧
    heap w' !! kept = Some (Np.newaxis q0) ∧
    heap w' !! p
    = Some (Np.newaxis (Nat.iter (Z.to_nat N) (update observed) q0)).
Proof.
  intros Hshapes Hn Hrp Hr Hp Hobs Hq.
  set (kept := fresh (dom (heap w))).
  assert (heap w !! kept = None) as Hfresh
    by (apply not_elem_of_dom, is_fresh).
  assert (kept ≠ p) as Hkp by congruence.
  assert (kept ≠ r) as Hkr by congruence.
  eexists kept, _. split; [|split; [exact Hkp|]].
  - rewrite py_bind_run. unfold copy. rewrite Hp. fold kept.
    rewrite py_bind_run.
    rewrite (solve_run r p observed q0 N); try assumption.
    + reflexivity.
    + cbn [heap]. rewrite lookup_insert_ne by congruence. exact Hr.
    + cbn [heap]. rewrite lookup_insert_ne by congruence. exact Hp.
  - cbn [heap]. split.
    + rewrite lookup_insert_ne by congruence. apply lookup_insert_eq.
    + apply lookup_insert_eq.
Qed.

(** C7, as the code has it.  The solver checks no dimension.  When the
    observed column is neither as long as the simulated markers nor of
    length one, the first iteration consults the markers, the Jacobian
    and its pseudo-inverse at the initial guess, and then the difference
    of the simulated and the observed markers raises numpy's broadcasting
    error; the initial guess is left as it was. *)
Theorem inverse_kinematics_mismatch (r p : nat) (observed q0 : list R)
    (N : Z) (w : world R) :
  well_shaped model_markers model_markersJacobian pinv n_q n_markers →
  heap w !! r = Some (Np.newaxis observed) →
  heap w !! p = Some (Np.newaxis q0) →
  length q0 = n_q →
  length observed ≠ 3 * n_markers → length observed ≠ 1 →
  (1 ≤ N)%Z →
  solve r p N w
  = (Raise (ValueError_broadcast (3 * n_markers) (length observed)),
     World (heap w)
           (calls w ++ ik_events model_markersJacobian q0)).
Proof.
  intros Hshapes Hr Hp Hq Hobs Hone HN. unfold inverse_kinematics.
  destruct (Z.to_nat N) as [|n] eqn:E; [lia|].
  cbn [inverse_kinematics_loop]. rewrite !py_bind_run.
  unfold inverse_kinematics_body.
  rewrite py_bind_run. unfold load at 1. rewrite Hp.
  rewrite py_bind_run. unfold lift at 1. rewrite col_newaxis.
  rewrite py_bind_run, forward_kinematics_run.
  rewrite py_bind_run. unfold load at 1. cbn [heap]. rewrite Hp.
  rewrite py_bind_run. unfold lift at 1. rewrite col_newaxis.
  rewrite py_bind_run, (marker_jacobian_run n_q n_markers _ _ _ Hshapes)
    by exact Hq.
  rewrite py_bind_run. cbn [call heap calls].
  rewrite py_bind_run. unfold load at 1. cbn [heap]. rewrite Hr.
  rewrite py_bind_run. unfold lift at 1.
  pose proof (length_fk n_q n_markers _ _ _ Hshapes q0 Hq) as Hfk.
  unfold Np.sub2, Np.bcast at 1. rewrite !length_newaxis, Hfk.
  rewrite decide_False by congruence.
  rewrite <- !app_assoc. cbn [app ik_events].
  destruct (simulated model_markers q0) as [|s [|s' sim]];
    destruct observed as [|o [|o' obs]]; cbn in *; try lia; reflexivity.
Qed.
End SolverResults.

(** ** The optimal-control cell *)

Section Shooting.
Context {R : Type} `{Scalar R}.

(** C8, as the code has it.  The cell validates neither the bounds nor
    the initial guess: whatever they are, it hands them unchanged to the
    external optimizer, it raises exactly when the optimizer raises, and
    otherwise it returns the optimizer's vector split at [2·n_q]. *)
Theorem shooting_solver_defers_to_optimizer (n_q n_muscles : nat)
    (target_position : list R) (final_time dt : R)
    (x_dot_fun : list R → list R → result (list R))
    (integration_method :
       R → list R → (list R → list R → result (list R)) → list R →
       result (list R))
    (numpy_pi : R)
    (optimize_minimize :
       (list R → option (result R)) → list R → list (R * R) →
       result (list R))
    (fuel : nat) :
  shooting_solver n_q n_muscles target_position final_time dt x_dot_fun
    integration_method numpy_pi optimize_minimize fuel
  = match
      optimize_minimize
        (lagrange_cost_function n_q target_position final_time dt x_dot_fun
           integration_method fuel)
        (initial_guess n_q target_position)
        (bounds n_q n_muscles numpy_pi)
    with
    | Ok x => Ok (take (n_q * 2) x, drop (n_q * 2) x)
    | Raise e => Raise e
    end.
Proof.
  unfold shooting_solver.
  destruct (optimize_minimize _ _ _); reflexivity.
Qed.
End Shooting.

(** * The driver, the cost and the steps in any arithmetic *)

(** The results of this part hold for every [Scalar], binary64 included;
    what exact arithmetic adds is stated under [ExactArith], as a
    hypothesis of its own. *)

(** ** The trajectory of a conforming step function *)

Section AnyArithmetic.
Context {R : Type} `{Scalar R}.
Variable final_time dt : R.
Variable x0 : list R.
Variable f : list R → list R → result (list R).
Variable u : list R.
Variable g :
  R → list R → (list R → list R → result (list R)) → list R →
  result (list R).
Variable step : list R → list R.
Hypothesis g_conforming : conforming g dt f u x0 step.

Local Notation "'clock'" := (running_time dt).
Local Notation "'state'" := (nth_state step x0).
Local Notation "'before'" :=
  (λ n, ∀ j, j < n → sle (running_time dt j) final_time).
Local Notation "'past'" := (λ n, slt final_time (running_time dt n)).



Lemma clock_next (k : nat) :
  map clock (seq 0 (S k)) ++ [(clock k + dt)%S] = map clock (seq 0 (S (S k))).
Proof. rewrite (seq_S (S k)), map_app. reflexivity. Qed.

Lemma state_next (k : nat) :
  map state (seq 0 (S k)) ++ [state (S k)] = map state (seq 0 (S (S k))).
Proof. rewrite (seq_S (S k)), map_app. reflexivity. Qed.

Lemma last_clock (k : nat) : List.last (map clock (seq 0 (S k))) s0 = clock k.
Proof. rewrite seq_S, map_app. apply last_last. Qed.

(** The loop, entered with the samples up to index [k]: either the fuel
    runs out, or it leaves with the samples up to the first index [n]
    whose running time fails the test.  It never raises. *)
Lemma loop_outcome (fuel k : nat) :
  perform_integration_loop fuel final_time dt f u g
    (map clock (seq 0 (S k))) (map state (seq 0 (S k))) (state k) = None
  ∨ ∃ n, k ≤ n ∧ n - k < fuel ∧
         (∀ j, k ≤ j < n → sle (clock j) final_time) ∧ past n ∧
         perform_integration_loop fuel final_time dt f u g
           (map clock (seq 0 (S k))) (map state (seq 0 (S k))) (state k)
         = Some (Ok (map clock (seq 0 (S n)), map state (seq 0 (S n)))).
Proof.
  revert k. induction fuel as [|fuel IH]; intros k; [left; reflexivity|].
  cbn [perform_integration_loop]. rewrite last_clock.
  destruct (sleb (clock k) final_time) eqn:Htest.
  - rewrite (g_state dt x0 f u g step g_conforming k), last_last.
    rewrite clock_next, state_next.
    destruct (IH (S k)) as [Hnone|(n & Hkn & Hfuel & Hb & Hp & Hrun)].
    + left. exact Hnone.
    + right. exists n. split; [lia|]. split; [lia|].
      split; [|split; [exact Hp | exact Hrun]].
      intros j Hj. destruct (decide (j = k)) as [->|Hne]; [exact Htest|].
      apply Hb. lia.
  - right. exists k. split; [lia|]. split; [lia|].
    split; [intros j Hj; lia|]. split; [exact Htest | reflexivity].
Qed.

Lemma loop_run_any (fuel k n : nat) :
  k ≤ n → n - k < fuel → before n → past n →
  perform_integration_loop fuel final_time dt f u g
    (map clock (seq 0 (S k))) (map state (seq 0 (S k))) (state k)
  = Some (Ok (map clock (seq 0 (S n)), map state (seq 0 (S n)))).
Proof.
  intros Hkn Hfuel Hb Hp. revert k Hkn Hfuel.
  induction fuel as [|fuel IH]; intros k Hkn Hfuel; [lia|].
  cbn [perform_integration_loop]. rewrite last_clock.
  destruct (decide (k = n)) as [->|Hne].
  - rewrite Hp. reflexivity.
  - rewrite (Hb k) by lia.
    rewrite (g_state dt x0 f u g step g_conforming k), last_last.
    rewrite clock_next, state_next. apply IH; lia.
Qed.

Lemma states_rectangular (n : nat) :
  Forall (λ r, length r = length x0) (map state (seq 0 (S n))).
Proof.
  apply Forall_forall. intros r Hr.
  apply list_elem_of_In, in_map_iff in Hr as (k & <- & _).
  apply (length_state dt x0 f u g step g_conforming).
Qed.

(** With fuel for its [n + 1] tests the driver returns the samples up to
    the first index [n] whose running time is past [final_time]. *)
Lemma perform_integration_run_any (fuel n : nat) :
  n < fuel → before n → past n →
  perform_integration fuel final_time dt x0 f u g
  = Some (Ok (map clock (seq 0 (S n)),
              Np.transpose (map state (seq 0 (S n))))).
Proof.
  intros Hfuel Hb Hp. unfold perform_integration.
  assert (perform_integration_loop fuel final_time dt f u g [s0] [x0] x0
          = Some (Ok (map clock (seq 0 (S n)), map state (seq 0 (S n)))))
    as Hloop
    by (apply (loop_run_any fuel 0 n); assumption || lia).
  rewrite Hloop. cbn [mbind option_bind]. f_equal. rewrite bind_Ok.
  rewrite (array_rectangular (length x0)) by apply states_rectangular.
  reflexivity.
Qed.

(** Whatever the fuel, the driver runs out of it or returns these
    samples; it does not raise. *)
Lemma perform_integration_outcome (fuel : nat) :
  perform_integration fuel final_time dt x0 f u g = None
  ∨ ∃ n, n < fuel ∧ before n ∧ past n ∧
         perform_integration fuel final_time dt x0 f u g
         = Some (Ok (map clock (seq 0 (S n)),
                     Np.transpose (map state (seq 0 (S n))))).
Proof.
  destruct (loop_outcome fuel 0) as [Hnone|(n & _ & Hfuel & Hb & Hp & Hrun)].
  - left. unfold perform_integration.
    change (perform_integration_loop fuel final_time dt f u g [s0] [x0] x0
            = None) in Hnone.
    rewrite Hnone. reflexivity.
  - right. exists n. split; [lia|].
    assert (before n) as Hb' by (intros j Hj; apply Hb; lia).
    split; [exact Hb'|]. split; [exact Hp|].
    apply perform_integration_run_any; [lia | exact Hb' | exact Hp].
Qed.



End AnyArithmetic.

Section TrajectoryAny.
Context {R : Type} `{Scalar R}.

(** C2.  For a step function [g] that honours the contract, in any
    arithmetic, binary64 included: the states are the iterates
    [x(k+1) = g(Δt, xk, f, u)]; the times are the running sums
    [t0 = 0], [t(k+1) = tk + Δt]; the loop runs while the last time is
    [<= final_time], so when [n] is the first index whose time fails
    that test, [perform_integration] returns, given fuel for its [n + 1]
    tests, exactly the [n + 1] samples [(tk, xk)], [k = 0 … n]; whenever
    it returns, what it returns is of this form; and it never raises.
    In exact arithmetic with a positive step such an [n] always exists,
    so the driver returns; there [tk = k·Δt], and the last sample is the
    first one at or after [final_time] or the one right after that. *)
Theorem perform_integration_trajectory (final_time dt : R) (x0 : list R)
    (f : list R → list R → result (list R)) (u : list R)
    (g : R → list R → (list R → list R → result (list R)) → list R →
         result (list R))
    (step : list R → list R) :
  conforming g dt f u x0 step →
  (∀ k, g dt (nth_state step x0 k) f u = Ok (nth_state step x0 (S k))) ∧
  (∀ n,
     (∀ j, j < n → sle (running_time dt j) final_time) →
     slt final_time (running_time dt n) →
     (∀ fuel, n < fuel →
        perform_integration fuel final_time dt x0 f u g
        = Some (Ok (map (running_time dt) (seq 0 (S n)),
                    Np.transpose (map (nth_state step x0) (seq 0 (S n)))))) ∧
     (∀ k, k ≤ n →
        Np.col k (Np.transpose (map (nth_state step x0) (seq 0 (S n))))
        = Ok (nth_state step x0 k))) ∧
  (∀ fuel times all_x,
     perform_integration fuel final_time dt x0 f u g
     = Some (Ok (times, all_x)) →
     ∃ n, n < fuel ∧
          (∀ j, j < n → sle (running_time dt j) final_time) ∧
          slt final_time (running_time dt n) ∧
          times = map (running_time dt) (seq 0 (S n)) ∧
          all_x = Np.transpose (map (nth_state step x0) (seq 0 (S n)))) ∧
  (∀ fuel e,
     perform_integration fuel final_time dt x0 f u g ≠ Some (Raise e)) ∧
  (ExactArith R → slt s0 dt →
   ∃ n,
     (∀ k, running_time dt k = sample_time dt k) ∧
     (∀ k, k < n → sle (sample_time dt k) final_time) ∧
     slt final_time (sample_time dt n) ∧
     (∀ fuel, n < fuel →
        perform_integration fuel final_time dt x0 f u g
        = Some (Ok (map (sample_time dt) (seq 0 (S n)),
                    Np.transpose (map (nth_state step x0) (seq 0 (S n)))))) ∧
     (∃ m, sle final_time (sample_time dt m) ∧
           (∀ k, k < m → slt (sample_time dt k) final_time) ∧
           (n = m ∨ n = S m))).
Proof.
  intros Hg. split; [|split; [|split; [|split]]].
  - intros k. apply (g_state dt x0 f u g step Hg).
  - intros n Hb Hp. split.
    + intros fuel Hfuel.
      apply (perform_integration_run_any final_time dt x0 f u g step Hg);
        assumption.
    + intros k Hk. apply (col_state dt x0 f u g step Hg), Hk.
  - intros fuel times all_x Hrun.
    destruct (perform_integration_outcome final_time dt x0 f u g step Hg fuel)
      as [Hnone|(n & Hfuel & Hb & Hp & Hrun')]; [congruence|].
    exists n. rewrite Hrun' in Hrun.
    repeat split; try assumption; congruence.
  - intros fuel e Hrun.
    destruct (perform_integration_outcome final_time dt x0 f u g step Hg fuel)
      as [Hnone|(n & _ & _ & _ & Hrun')]; congruence.
  - intros Hexact Hdt.
    destruct (perform_integration_trajectory_exact final_time dt x0 f u g
                step Hdt Hg)
      as (n & Hrun & _ & _ & Hb & Hp & Hfirst).
    exists n. split; [intros k; apply running_time_exact|].
    split; [exact Hb|]. split; [exact Hp|]. split; [exact Hrun | exact Hfirst].
Qed.

End TrajectoryAny.

(** ** The cost along the trajectory *)

Section CostAny.
Context {R : Type} `{Scalar R}.


End CostAny.

(** ** The two steps on a derivative that ignores the state *)

Section StepsAny.
Context {R : Type} `{Scalar R}.

(** C10.  When the derivative does not depend on the state,
    [f(y, u) = c], in any arithmetic, binary64 included: the Euler step
    is numpy's sum [x + c·Δt], and for [c] as long as [x] the Runge-Kutta
    step returns [x + Δt/6·(c + 2·c + 2·c + c)], each entry computed
    with the operations in this order.  In exact arithmetic the two
    steps coincide, and both are [x + Δt·c]. *)
Theorem rk4_euler_constant_derivative (dt : R) (x u c : list R)
    (f : list R → list R → result (list R)) :
  (∀ y, f y u = Ok c) →
  euler dt x f u = Np.add x (Np.mul_scalar c dt) ∧
  (length c = length x →
   euler dt x f u = Ok (vadd x (Np.mul_scalar c dt)) ∧
   rk4 dt x f u
   = Ok (vadd x
           (vscale (dt / snat 6)%S
              (vadd (vadd (vadd c (vscale (snat 2) c)) (vscale (snat 2) c))
                    c)))) ∧
  (ExactArith R →
   rk4 dt x f u = euler dt x f u ∧
   euler dt x f u = Np.add x (Np.scalar_mul dt c) ∧
   (length c = length x → euler dt x f u = Ok (vadd x (vscale dt c)))).
Proof.
  intros Hf.
  assert (euler dt x f u = Np.add x (Np.mul_scalar c dt)) as He
    by (unfold euler; rewrite Hf; reflexivity).
  split; [exact He|]. split.
  - intros Hlen. split; [rewrite He; apply add_same_length; vlen|].
    unfold rk4. rewrite Hf. rk_step.
    rewrite (add_same_length x) by vlen. rk_step. rewrite Hf. rk_step.
    rewrite (add_same_length x) by vlen. rk_step. rewrite Hf. rk_step.
    rewrite (add_same_length x) by vlen. rk_step. rewrite Hf. rk_step.
    rewrite (add_same_length c) by vlen. rk_step.
    rewrite (add_same_length (vadd c _)) by vlen. rk_step.
    rewrite (add_same_length (vadd (vadd c _) _)) by vlen. rk_step.
    apply add_same_length. vlen.
  - intros Hexact.
    apply (rk4_euler_constant_derivative_exact dt x u c f Hf).
Qed.
End StepsAny.

(** * Further properties of the two notebooks *)

(** ** The muscle states *)

Section MuscleStates.
Context {R : Type} `{Scalar R}.
Variable model_stateSet : list R.
Variable model_ForwardDynamics : list R → list R → list R → list R.

(** X1.  The states the model receives: as many as the model has
    muscles, whatever the length of [activation]; the first ones carry the
    activations, in order, surplus activations are dropped, and the muscles
    that got no activation keep the one they had.  The acceleration is the
    forward dynamics of the torque the model returns for these states. *)
Theorem muscular_joint_torque_states (torque : list R → list R → list R → list R)
    (activation q qdot : list R) :
  ∃ states,
    muscular_joint_torque model_stateSet torque activation q qdot
    = torque states q qdot ∧
    muscular_joint_acceleration model_stateSet torque model_ForwardDynamics
      activation q qdot
    = model_ForwardDynamics q qdot (torque states q qdot) ∧
    length states = length model_stateSet ∧
    (∀ i, i < length model_stateSet →
          states !! i = if decide (i < length activation)
                        then activation !! i else model_stateSet !! i).
Proof.
  exists (take (length model_stateSet) activation
          ++ drop (length activation) model_stateSet).
  split; [reflexivity|]. split; [reflexivity|]. split.
  - rewrite length_app, length_take, length_drop. lia.
  - intros i Hi. case_decide as Ha.
    + rewrite lookup_app_l by (rewrite length_take; lia).
      apply lookup_take_lt. exact Hi.
    + rewrite lookup_app_r by (rewrite length_take; lia).
      rewrite lookup_drop, length_take. f_equal. lia.
Qed.
End MuscleStates.

(** ** Steps on a model with several degrees of freedom *)

Section SeveralDegrees.
Context {R : Type} `{Scalar R}.
Variable n_q : nat.
Variable model_stateSet : list R.
Variable model_muscularJointTorque : list R → list R → list R → list R.
Variable model_ForwardDynamics : list R → list R → list R → list R.

Local Notation "'xdot'" :=
  (x_dot n_q model_stateSet model_muscularJointTorque model_ForwardDynamics).
Local Notation "'acceleration'" :=
  (muscular_joint_acceleration model_stateSet model_muscularJointTorque
     model_ForwardDynamics).

Lemma add_two_entries (x d : list R) :
  2 < length x → length d = 2 →
  Np.add x d = Raise (ValueError_broadcast (length x) 2).
Proof.
  intros Hx Hd. rewrite add_closed_form.
  rewrite decide_False by lia.
  destruct x as [|? [|? ?]]; try (cbn in Hx; lia).
  destruct d as [|? [|? [|? ?]]]; try discriminate Hd.
  reflexivity.
Qed.

(** X4.  With two degrees of freedom or more, on a state of length
    [2·n_q] and a model whose acceleration has [n_q] entries, neither
    step function returns: the derivative has two entries, and the first
    sum of the state and a multiple of it raises numpy's broadcasting
    error. *)
Theorem several_degrees_step_raises (dt : R) (x u : list R) :
  2 ≤ n_q → length x = 2 * n_q →
  length (acceleration u (take n_q x) (drop n_q x)) = n_q →
  euler dt x xdot u = Raise (ValueError_broadcast (2 * n_q) 2) ∧
  rk4 dt x xdot u = Raise (ValueError_broadcast (2 * n_q) 2).
Proof.
  intros Hn Hx Ha.
  assert (length (drop n_q x) = n_q) as Hv by (rewrite length_drop; lia).
  destruct (drop n_q x) as [|v vs] eqn:Ev; [cbn in Hv; lia|].
  destruct (acceleration u (take n_q x) (v :: vs)) as [|a as_] eqn:Ea;
    [cbn in Ha; lia|].
  assert (xdot x u = Ok [v; a]) as Hdot.
  { apply (x_dot_first_entries n_q model_stateSet model_muscularJointTorque
             model_ForwardDynamics x u v a vs as_); [exact Ev | |].
    - rewrite Ev. exact Ea.
    - cbn in Hv, Ha. lia. }
  rewrite <- Hx. split.
  - unfold euler. rewrite Hdot. ok_step.
    apply add_two_entries; [lia | reflexivity].
  - unfold rk4. rewrite Hdot. ok_step.
    rewrite add_two_entries; [reflexivity | lia | reflexivity].
Qed.
End SeveralDegrees.

(** ** What the trajectory driver returns, in any arithmetic *)

Section TrajectoryArrays.
Context {R : Type} `{Scalar R}.
Variable final_time dt : R.
Variable f : list R → list R → result (list R).
Variable u : list R.
Variable g :
  R → list R → (list R → list R → result (list R)) → list R →
  result (list R).

(** The loop only appends to the states it was entered with. *)
Lemma loop_appends (fuel : nat) (tv tv' : list R)
    (ax ax' : list (list R)) (x : list R) :
  perform_integration_loop fuel final_time dt f u g tv ax x
  = Some (Ok (tv', ax')) →
  ∃ more, ax' = ax ++ more ∧ length tv' = length tv + length more.
Proof.
  revert tv ax x.
  induction fuel as [|fuel IH]; intros tv ax x Hrun; [discriminate|].
  cbn [perform_integration_loop] in Hrun.
  destruct (sleb (List.last tv s0) final_time).
  - destruct (g dt x f u) as [x'|e]; [|discriminate].
    apply IH in Hrun as (more & -> & Hlen).
    exists (x' :: more). rewrite <- app_assoc. split; [reflexivity|].
    rewrite Hlen, length_app. cbn [length]. lia.
  - injection Hrun as <- <-. exists []. rewrite app_nil_r.
    split; [reflexivity | cbn [length]; lia].
Qed.

Lemma array_Ok_rectangular (r : list R) (rs m : list (list R)) :
  Np.array (r :: rs) = Ok m →
  m = r :: rs ∧ Forall (λ r', length r' = length r) (r :: rs).
Proof.
  unfold Np.array. destruct (forallb _ rs) eqn:Hall; [|discriminate].
  intros [= <-]. split; [reflexivity|].
  apply Forall_cons. split; [reflexivity|].
  apply Forall_forall. intros r' Hr'.
  rewrite forallb_forall in Hall.
  apply Nat.eqb_eq, Hall, list_elem_of_In, Hr'.
Qed.

Lemma transpose_is_mat (d : nat) (rows : list (list R)) :
  Forall (λ r, length r = d) rows → rows ≠ [] →
  is_mat d (length rows) (Np.transpose rows).
Proof.
  intros Hrows Hne. unfold Np.transpose.
  rewrite (ncols_rectangular d) by assumption. split.
  - rewrite length_map, length_seq. reflexivity.
  - apply Forall_forall. intros r Hr.
    apply list_elem_of_In, in_map_iff in Hr as (j & <- & _).
    apply length_map.
Qed.

(** X6.  Whenever [perform_integration] returns, in any arithmetic
    and with any step function, the state array has one row per entry of
    the initial state and one column per returned time, its first column
    is the initial state, and there are at least two times unless
    [final_time] is negative: the first step is taken before any time
    is compared with a time after zero. *)
Theorem perform_integration_shape (fuel : nat) (x0 : list R)
    (times : list R) (all_x : list (list R)) :
  perform_integration fuel final_time dt x0 f u g = Some (Ok (times, all_x)) →
  is_mat (length x0) (length times) all_x ∧
  Np.col 0 all_x = Ok x0 ∧
  List.hd s0 times = s0 ∧
  (sle s0 final_time → 2 ≤ length times) ∧
  (slt final_time s0 → times = [s0] ∧ all_x = Np.newaxis x0).
Proof.
  unfold perform_integration. intros Hrun.
  destruct (perform_integration_loop _ _ _ _ _ _ _ _ _)
    as [[[tv ax]|e]|] eqn:Hloop; try discriminate Hrun.
  cbn [mbind option_bind] in Hrun. rewrite bind_Ok in Hrun.
  pose proof Hloop as Happ.
  apply loop_appends in Happ as (more & -> & Hlen).
  change ([x0] ++ more) with (x0 :: more) in *.
  destruct (Np.array (x0 :: more)) as [m|e] eqn:Harr; [|discriminate Hrun].
  rewrite bind_Ok in Hrun. injection Hrun as <- <-.
  apply array_Ok_rectangular in Harr as [-> Hrect].
  apply (loop_returns final_time dt f u g fuel 0) in Hloop; [|reflexivity].
  destruct Hloop as (n & _ & Htv & _ & Hbefore & Hpast).
  rewrite Nat.sub_0_r in Htv.
  split; [|split; [|split; [|split]]].
  - replace (length tv) with (length (x0 :: more))
      by (rewrite Hlen; reflexivity).
    apply transpose_is_mat; [exact Hrect | discriminate].
  - rewrite (col_transpose (length x0));
      [reflexivity | exact Hrect | cbn [length]; lia].
  - rewrite Htv. reflexivity.
  - intros Hle. destruct n as [|n].
    + exfalso. cbn in Hpast. unfold slt in Hpast. unfold sle in Hle.
      congruence.
    + rewrite Htv, length_app, length_map, length_seq. cbn [length]. lia.
  - intros Hneg. destruct n as [|n].
    + cbn [seq map] in Htv. rewrite app_nil_r in Htv. subst tv.
      split; [reflexivity|].
      destruct more as [|? ?]; [|cbn [length] in Hlen; lia].
      unfold Np.transpose, Np.newaxis. cbn [Np.ncols map].
      transitivity (map (λ v : R, [v])
                      (map (λ j, nth j x0 s0) (seq 0 (length x0))));
        [rewrite map_map; reflexivity | rewrite map_nth_seq_id; reflexivity].
    + exfalso. specialize (Hbefore 0). cbn in Hbefore.
      unfold slt in Hneg. unfold sle in Hbefore.
      rewrite Hbefore in Hneg by lia. discriminate.
Qed.

(** X7.  An exception of the step function ends the integration:
    when the steps from [x0] succeed [k] times and the next one raises
    while the running time is still within [final_time], the driver
    raises that exception, and no part of the trajectory is returned. *)
Theorem perform_integration_step_raises (fuel k : nat) (x0 : list R)
    (step : list R → list R) (e : exn) :
  (∀ j, j < k → g dt (nth_state step x0 j) f u
                = Ok (nth_state step x0 (S j))) →
  g dt (nth_state step x0 k) f u = Raise e →
  (∀ j, j ≤ k → sle (running_time dt j) final_time) →
  k < fuel →
  perform_integration fuel final_time dt x0 f u g = Some (Raise e).
Proof.
  intros Hsteps Hraise Htimes Hfuel.
  assert (∀ n j tv ax,
            j ≤ k → k - j < n →
            List.last tv s0 = running_time dt j →
            perform_integration_loop n final_time dt f u g tv ax
              (nth_state step x0 j) = Some (Raise e)) as Hloop.
  { induction n as [|n IH]; intros j tv ax Hj Hn Hlast; [lia|].
    cbn [perform_integration_loop]. rewrite Hlast.
    rewrite (Htimes j Hj).
    destruct (decide (j = k)) as [->|Hne].
    - rewrite Hraise. reflexivity.
    - rewrite Hsteps by lia. rewrite last_last.
      apply IH; [lia | lia | apply last_last]. }
  unfold perform_integration.
  rewrite (Hloop fuel 0 [s0] [x0]); [reflexivity | lia | lia | reflexivity].
Qed.
End TrajectoryArrays.

(** ** The steps on a linear derivative *)

Section LinearDerivative.
Context {R : Type} `{ExactArith R}.

Add Field scalar_field_ld : ea_field.

Lemma two_nonzero : (s1 + s1)%S ≠ (s0 : R).
Proof.
  intros Heq. apply (snat_nonzero (R:=R) 1). rewrite <- Heq.
  rewrite !snat_S, snat_0. ring.
Qed.

Lemma twenty_four_nonzero :
  ((s1 + s1) * ((s1 + s1) * ((s1 + s1) * (s1 + (s1 + s1)))))%S ≠ (s0 : R).
Proof.
  intros Heq. apply (snat_nonzero (R:=R) 23). rewrite <- Heq.
  rewrite !snat_S, snat_0. ring.
Qed.

(** One entry of the Runge-Kutta step when the derivative is [a·y]. *)
Lemma rk4_linear_entry (dt a v : R) :
  (v + dt / snat 6
       * (a * v
          + snat 2 * (a * (v + dt / snat 2 * (a * v)))
          + snat 2 * (a * (v + dt / snat 2
                                 * (a * (v + dt / snat 2 * (a * v)))))
          + a * (v + dt * (a * (v + dt / snat 2
                                      * (a * (v + dt / snat 2 * (a * v)))))))
   = taylor4 (dt * a) * v)%S.
Proof.
  unfold taylor4. rewrite !snat_S, !snat_0. field.
  split; [exact twenty_four_nonzero|].
  split; [exact six_nonzero | exact two_nonzero].
Qed.

Lemma rk4_linear_stages (dt a : R) (x : list R) :
  let k1 := vscale a x in
  let k2 := vscale a (vadd x (vscale (dt / snat 2)%S k1)) in
  let k3 := vscale a (vadd x (vscale (dt / snat 2)%S k2)) in
  let k4 := vscale a (vadd x (vscale dt k3)) in
  vadd x (vscale (dt / snat 6)%S
            (vadd (vadd (vadd k1 (vscale (snat 2) k2)) (vscale (snat 2) k3))
                  k4))
  = vscale (taylor4 (dt * a)%S) x.
Proof.
  cbv zeta. unfold vadd, vscale.
  induction x as [|v x IH]; [reflexivity|].
  cbn [map zip_with]. rewrite IH. f_equal. apply rk4_linear_entry.
Qed.

Lemma euler_linear_stage (dt a : R) (x : list R) :
  vadd x (Np.mul_scalar (vscale a x) dt) = vscale (s1 + dt * a)%S x.
Proof.
  unfold vadd, vscale, Np.mul_scalar.
  induction x as [|v x IH]; [reflexivity|].
  cbn [map zip_with]. rewrite IH. f_equal. ring.
Qed.

(** X8.  On a linear derivative [f(y, u) = a·y] the Runge-Kutta step
    multiplies the state by [1 + z + z²/2 + z³/6 + z⁴/24] with
    [z = Δt·a], the exponential series up to the fourth power; the Euler
    step multiplies it by [1 + z]. *)
Theorem rk4_linear_derivative (dt a : R) (x u : list R)
    (f : list R → list R → result (list R)) :
  (∀ y, length y = length x → f y u = Ok (vscale a y)) →
  rk4 dt x f u = Ok (vscale (taylor4 (dt * a)%S) x) ∧
  euler dt x f u = Ok (vscale (s1 + dt * a)%S x).
Proof.
  intros Hf. split.
  - unfold rk4.
    rewrite Hf by reflexivity. rk_step.
    rewrite (add_same_length x) by vlen. rk_step.
    rewrite Hf by vlen. rk_step.
    rewrite (add_same_length x) by vlen. rk_step.
    rewrite Hf by vlen. rk_step.
    rewrite (add_same_length x) by vlen. rk_step.
    rewrite Hf by vlen. rk_step.
    rewrite (add_same_length (vscale a x)) by vlen. rk_step.
    rewrite (add_same_length (vadd (vscale a x) _)) by vlen. rk_step.
    rewrite (add_same_length (vadd (vadd (vscale a x) _) _)) by vlen. rk_step.
    rewrite (add_same_length x) by vlen.
    f_equal. apply rk4_linear_stages.
  - unfold euler. rewrite Hf by reflexivity. ok_step.
    rewrite (add_same_length x) by vlen.
    f_equal. apply euler_linear_stage.
Qed.
End LinearDerivative.

(** ** The order, sums and decimal literals *)

Section OrderFacts.
Context {R : Type} `{ExactArith R}.

Add Field scalar_field_of : ea_field.

Lemma sle_add_mono (a b c d : R) :
  sle a b → sle c d → sle (a + c)%S (b + d)%S.
Proof.
  intros Hab Hcd. apply ea_le_trans with (a + d)%S.
  - apply ea_add_le, Hcd.
  - replace (a + d)%S with (d + a)%S by ring.
    replace (b + d)%S with (d + b)%S by ring.
    apply ea_add_le, Hab.
Qed.

Lemma sle_add_nonneg (a b : R) : sle s0 a → sle s0 b → sle s0 (a + b)%S.
Proof.
  intros Ha Hb. replace s0 with (s0 + s0 : R)%S by ring.
  apply sle_add_mono; assumption.
Qed.

Lemma sle_opp (a : R) : sle a s0 → sle s0 (- a)%S.
Proof.
  intros Ha. apply (ea_add_le _ _ (- a)%S) in Ha.
  replace (- a + a)%S with (s0 : R) in Ha by ring.
  replace (- a + s0)%S with (- a)%S in Ha by ring. exact Ha.
Qed.

Lemma slt_opp (a : R) : slt a s0 → slt s0 (- a)%S.
Proof.
  intros Ha. apply (add_slt _ _ (- a)%S) in Ha.
  replace (- a + a)%S with (s0 : R) in Ha by ring.
  replace (- a + s0)%S with (- a)%S in Ha by ring. exact Ha.
Qed.

Lemma snat_add (a b : nat) : snat (a + b) = (snat a + snat b : R)%S.
Proof.
  induction a as [|a IH]; cbn [Nat.add].
  - rewrite snat_0. ring.
  - rewrite !snat_S, IH. ring.
Qed.

Lemma snat_mul (a b : nat) : snat (a * b) = (snat a * snat b : R)%S.
Proof.
  induction a as [|a IH]; cbn [Nat.mul].
  - rewrite snat_0. ring.
  - rewrite snat_add, snat_S, IH. ring.
Qed.

Lemma snat_mul_nonneg (n : nat) (e : R) : sle s0 e → sle s0 (snat n * e)%S.
Proof.
  intros He. induction n as [|n IH].
  - rewrite snat_0. replace (s0 * e)%S with (s0 : R) by ring. apply sle_refl.
  - rewrite snat_S. replace ((snat n + s1) * e)%S with (snat n * e + e)%S by ring.
    apply sle_add_nonneg; assumption.
Qed.

Lemma snat_mul_pos (n : nat) (e : R) : slt s0 e → slt s0 (snat (S n) * e)%S.
Proof.
  intros He. rewrite snat_S.
  replace ((snat n + s1) * e)%S with (snat n * e + e)%S by ring.
  eapply sle_slt_trans; [apply (snat_mul_nonneg n e), slt_sle, He|].
  replace (snat n * e)%S with (snat n * e + s0)%S at 1 by ring.
  apply add_slt, He.
Qed.

(** The reciprocal of a positive whole number is positive. *)
Lemma reciprocal_pos (n : nat) : slt (s0 : R) (s1 / snat (S n))%S.
Proof.
  apply slt_not_sle. intros Hle. apply sle_opp in Hle.
  apply (snat_mul_nonneg (S n)) in Hle.
  replace (snat (S n) * - (s1 / snat (S n)))%S with (- s1)%S in Hle
    by (field; apply snat_nonzero).
  apply (ea_add_le _ _ s1) in Hle.
  replace (s1 + s0)%S with (s1 : R) in Hle by ring.
  replace (s1 + - s1)%S with (s0 : R) in Hle by ring.
  apply (proj1 (slt_not_sle s0 s1) ea_0_lt_1). exact Hle.
Qed.

(** Fractions with one denominator compare as their numerators. *)
Lemma fraction_lt (a b d : nat) :
  a < b → slt (snat a / snat (S d) : R)%S (snat b / snat (S d))%S.
Proof.
  intros Hab. replace b with (a + S (b - a - 1)) by lia.
  rewrite snat_add.
  replace ((snat a + snat (S (b - a - 1))) / snat (S d))%S
    with (snat a / snat (S d) + snat (S (b - a - 1)) * (s1 / snat (S d)))%S
    by (field; apply snat_nonzero).
  replace (snat a / snat (S d))%S
    with (snat a / snat (S d) + s0)%S at 1 by ring.
  apply add_slt, snat_mul_pos, reciprocal_pos.
Qed.

Lemma scale_fraction (a b : R) :
  a ≠ s0 → b ≠ s0 → (a / (a * b) = s1 / b)%S.
Proof. intros Ha Hb. field. split; assumption. Qed.

(** [0.0001 < 0.001] and [0.001 < 0.999], the literals of the controls
    and of their bounds. *)
Lemma guess_below_bound : slt (sdec 1 10000 : R) (sdec 1 1000).
Proof.
  unfold sdec.
  change (N.to_nat 1) with 1. change (N.to_nat 1000) with (S 999).
  change (N.to_nat 10000) with (10 * S 999).
  replace (snat 1 / snat (S 999))%S
    with (snat 10 / snat (10 * S 999))%S.
  - change (10 * S 999) with (S (9 + 10 * 999)).
    apply fraction_lt. lia.
  - rewrite snat_mul, scale_fraction by apply snat_nonzero.
    f_equal. rewrite snat_S, snat_0. ring.
Qed.

Lemma muscle_bound_ordered : slt (sdec 1 1000 : R) (sdec 999 1000).
Proof.
  unfold sdec.
  change (N.to_nat 1) with 1. change (N.to_nat 999) with 999.
  change (N.to_nat 1000) with (S 999).
  apply fraction_lt. lia.
Qed.
End OrderFacts.

(** ** The optimal-control cell *)

Section OptimalControlCell.
Context {R : Type} `{ExactArith R}.

Add Ring scalar_ring_oc : (F_R ea_field).

Lemma symmetric_bound (n : nat) (pi : R) :
  sle s0 pi → sle (- snat n * pi)%S (snat n * pi)%S.
Proof.
  intros Hpi. apply ea_le_trans with s0.
  - apply (snat_mul_nonneg n) in Hpi.
    apply (ea_add_le _ _ (- snat n * pi)%S) in Hpi.
    replace (- snat n * pi + s0)%S with (- snat n * pi)%S in Hpi by ring.
    replace (- snat n * pi + snat n * pi)%S with (s0 : R) in Hpi by ring.
    exact Hpi.
  - apply snat_mul_nonneg, Hpi.
Qed.

(** X10.  The bounds of the cell: one pair per state and one per muscle,
    and, [numpy.pi] being non-negative, no lower bound above its upper
    bound. *)
Theorem bounds_well_ordered (n_q n_muscles : nat) (numpy_pi : R) :
  sle s0 numpy_pi →
  length (bounds n_q n_muscles numpy_pi) = 2 * n_q + n_muscles ∧
  ∀ i b, bounds n_q n_muscles numpy_pi !! i = Some b → sle b.1 b.2.
Proof.
  intros Hpi. unfold bounds. split.
  - rewrite !length_app, !repeat_length. lia.
  - intros i b Hb.
    apply list_elem_of_lookup_2 in Hb.
    rewrite !elem_of_app in Hb.
    destruct Hb as [Hb|[Hb|Hb]];
      apply list_elem_of_In, repeat_spec in Hb; subst b; cbn [fst snd].
    + apply symmetric_bound, Hpi.
    + apply symmetric_bound, Hpi.
    + apply slt_sle. exact muscle_bound_ordered.
Qed.

(** X11.  The initial vector of the cell against its bounds, for a
    target with one entry per degree of freedom: the vector has
    [2·n_q + 2] entries, so it is as long as the bounds only for a model
    with two muscles; and with two muscles or more its last entry, the
    activation [0.0001], lies below the lower bound [0.001] of its
    muscle, so the bounds exclude the initial vector. *)
Theorem initial_guess_outside_bounds (n_q n_muscles : nat)
    (target_position : list R) (numpy_pi : R) :
  length target_position = n_q →
  2 ≤ n_muscles →
  let guess := initial_guess n_q target_position in
  let bounds := bounds n_q n_muscles numpy_pi in
  length guess = 2 * n_q + 2 ∧
  (length guess = length bounds ↔ n_muscles = 2) ∧
  guess !! (n_q * 2 + 1) = Some (sdec 1 10000) ∧
  bounds !! (n_q * 2 + 1) = Some (sdec 1 1000, sdec 999 1000) ∧
  slt (sdec 1 10000 : R) (sdec 1 1000) ∧
  invalid_bounds n_q bounds guess.
Proof.
  intros Htarget Hmuscles guess bnds.
  assert (length guess = 2 * n_q + 2) as Hlen.
  { unfold guess, initial_guess, states, controls.
    rewrite !length_app, repeat_length. cbn [length]. lia. }
  assert (length bnds = 2 * n_q + n_muscles) as Hlenb.
  { unfold bnds, bounds. rewrite !length_app, !repeat_length. lia. }
  assert (guess !! (n_q * 2 + 1) = Some (sdec 1 10000)) as Hguess.
  { unfold guess, initial_guess, states, controls.
    rewrite lookup_app_r;
      rewrite length_app, repeat_length, Htarget; [|lia].
    replace (n_q * 2 + 1 - (n_q + n_q)) with 1 by lia. reflexivity. }
  assert (bnds !! (n_q * 2 + 1) = Some (sdec 1 1000, sdec 999 1000)) as Hbnd.
  { unfold bnds, bounds.
    rewrite lookup_app_r; rewrite repeat_length; [|lia].
    rewrite lookup_app_r; rewrite repeat_length; [|lia].
    rewrite (lookup_nth _ _ (sdec 1 1000, sdec 999 1000))
      by (rewrite repeat_length; lia).
    rewrite nth_repeat. reflexivity. }
  split; [exact Hlen|]. split; [rewrite Hlen, Hlenb; lia|].
  split; [exact Hguess|]. split; [exact Hbnd|].
  split; [exact guess_below_bound|].
  right. exists (n_q * 2 + 1), (sdec 1 1000, sdec 999 1000), (sdec 1 10000).
  split; [lia|]. split; [exact Hbnd|]. split; [exact Hguess|].
  left. exact guess_below_bound.
Qed.
End OptimalControlCell.

(** ** The sign of the cost *)

#[export] Instance Qc_OrderedArith : OrderedArith Qc.
Proof.
  split. intros a b. rewrite !Qc_slt. intros Ha Hb.
  apply (Qcmult_lt_compat_r _ _ b Hb) in Ha.
  rewrite Qcmult_0_l in Ha. exact Ha.
Qed.

Section CostSign.
Context {R : Type} `{OrderedArith R}.

Add Ring scalar_ring_cs : (F_R ea_field).

Lemma square_nonneg (a : R) : sle s0 (a * a)%S.
Proof.
  destruct (ea_le_total s0 a) as [Ha|Ha];
    apply sle_lt_or_eq in Ha as [Hlt|Heq].
  - apply slt_sle, oa_mul_pos; exact Hlt.
  - subst a. replace (s0 * s0)%S with (s0 : R) by ring. apply sle_refl.
  - apply slt_opp in Hlt.
    replace (a * a)%S with (- a * - a)%S by ring.
    apply slt_sle, oa_mul_pos; exact Hlt.
  - subst a. replace (s0 * s0)%S with (s0 : R) by ring. apply sle_refl.
Qed.

Lemma square_zero (a : R) : (a * a)%S = s0 → a = s0.
Proof.
  intros Hsq.
  destruct (ea_le_total s0 a) as [Ha|Ha];
    apply sle_lt_or_eq in Ha as [Hlt|Heq]; try congruence.
  - exfalso. apply (slt_irrefl (s0 : R)).
    rewrite <- Hsq at 2. apply oa_mul_pos; exact Hlt.
  - exfalso. apply slt_opp in Hlt. apply (slt_irrefl (s0 : R)).
    rewrite <- Hsq at 2. replace (a * a)%S with (- a * - a)%S by ring.
    apply oa_mul_pos; exact Hlt.
Qed.

Lemma sum_nonneg (l : list R) : Forall (sle s0) l → sle s0 (Np.sum l).
Proof.
  induction 1 as [|v l Hv _ IH]; [apply sle_refl|].
  rewrite sum_cons. apply sle_add_nonneg; assumption.
Qed.

Lemma sum_nonneg_zero (l : list R) :
  Forall (sle s0) l → Np.sum l = s0 → Forall (λ v, v = s0) l.
Proof.
  induction 1 as [|v l Hv Hl IH]; intros Hsum; [constructor|].
  rewrite sum_cons in Hsum.
  assert (v = s0) as Hv0.
  { apply ea_le_antisym; [|exact Hv].
    rewrite <- Hsum. replace v with (v + s0)%S at 1 by ring.
    apply ea_add_le, sum_nonneg, Hl. }
  constructor; [exact Hv0|]. apply IH.
  rewrite Hv0 in Hsum. rewrite <- Hsum. ring.
Qed.

Lemma sum_all_zero (l : list R) : Forall (λ v, v = s0) l → Np.sum l = s0.
Proof.
  induction 1 as [|v l Hv _ IH]; [reflexivity|].
  rewrite sum_cons, Hv, IH. ring.
Qed.

Lemma squares_nonneg (row : list R) :
  Forall (sle s0) (map (λ v, (v * v)%S) row).
Proof. apply Forall_map, Forall_forall. intros v _. apply square_nonneg. Qed.

Lemma sum2_square2_nonneg (d : list (list R)) :
  sle s0 (Np.sum2 (Np.square2 d)).
Proof.
  unfold Np.sum2, Np.square2. apply sum_nonneg.
  rewrite map_map. apply Forall_map, Forall_forall. intros row _.
  apply sum_nonneg, squares_nonneg.
Qed.

Lemma sum2_square2_zero (d : list (list R)) :
  Np.sum2 (Np.square2 d) = s0 ↔ Forall (Forall (λ v, v = s0)) d.
Proof.
  unfold Np.sum2, Np.square2. rewrite map_map. split.
  - intros Hsum. apply sum_nonneg_zero in Hsum.
    + rewrite Forall_map in Hsum. eapply Forall_impl; [exact Hsum|].
      intros row Hrow. cbn beta in Hrow.
      apply sum_nonneg_zero in Hrow; [|apply squares_nonneg].
      rewrite Forall_map in Hrow. eapply Forall_impl; [exact Hrow|].
      intros v Hv. apply square_zero, Hv.
    + apply Forall_map, Forall_forall. intros row _.
      apply sum_nonneg, squares_nonneg.
  - intros Hzero. apply sum_all_zero, Forall_map.
    eapply Forall_impl; [exact Hzero|]. intros row Hrow. cbn beta.
    apply sum_all_zero, Forall_map.
    eapply Forall_impl; [exact Hrow|]. intros v ->. cbn beta. ring.
Qed.

(** X9.  Whenever the cost function returns a number, that number is
    not negative, and it is zero exactly when the difference of the
    integrated positions and the target, as numpy forms it, is zero in
    every entry. *)
Theorem lagrange_cost_sign (n_q : nat) (target_position : list R)
    (final_time dt : R) (f : list R → list R → result (list R))
    (g : R → list R → (list R → list R → result (list R)) → list R →
         result (list R))
    (fuel : nat) (x : list R) (c : R) :
  lagrange_cost_function n_q target_position final_time dt f g fuel x
  = Some (Ok c) →
  sle s0 c ∧
  ∃ t x_integrated d,
    perform_integration fuel final_time dt (take (n_q * 2) x) f
      (drop (n_q * 2) x) g
    = Some (Ok (t, x_integrated)) ∧
    Np.sub21 (take n_q x_integrated) target_position = Ok d ∧
    (c = s0 ↔ Forall (Forall (λ v, v = s0)) d).
Proof.
  unfold lagrange_cost_function. intros Hcost.
  destruct (perform_integration _ _ _ _ _ _ _) as [[[t X]|e]|] eqn:Hrun;
    try discriminate Hcost.
  cbn [mbind option_bind] in Hcost. rewrite bind_Ok in Hcost.
  destruct (Np.sub21 (take n_q X) target_position) as [d|e] eqn:Hd;
    [|discriminate Hcost].
  rewrite bind_Ok in Hcost. injection Hcost as <-.
  split; [apply sum2_square2_nonneg|].
  exists t, X, d. split; [reflexivity|]. split; [exact Hd|].
  apply sum2_square2_zero.
Qed.
End CostSign.

(** ** Columns, rows and transposes *)

Section ColumnsAndRows.
Context {R : Type} `{Scalar R}.

Lemma col_Ok (j : nat) (a : list (list R)) :
  Forall (λ row, j < length row) a →
  Np.col j a = Ok (map (λ row, nth j row s0) a).
Proof.
  intros Ha. unfold Np.col. apply mapM_Ok_ext.
  eapply Forall_impl; [exact Ha|]. intros row Hrow. cbn beta.
  rewrite (lookup_nth _ _ s0) by exact Hrow. reflexivity.
Qed.

Lemma is_mat_col (r c j : nat) (a : list (list R)) :
  is_mat r c a → j < c → Np.col j a = Ok (map (λ row, nth j row s0) a).
Proof.
  intros [_ Hcols] Hj. apply col_Ok.
  eapply Forall_impl; [exact Hcols|]. intros row Hrow. cbn beta in *. lia.
Qed.

Lemma nth_repeat_lt (v d : R) (n k : nat) : k < n → nth k (repeat v n) d = v.
Proof.
  intros Hk. rewrite (nth_indep _ d v) by (rewrite repeat_length; exact Hk).
  apply nth_repeat.
Qed.

Lemma transpose_row (v : list R) : Np.transpose [v] = Np.newaxis v.
Proof.
  unfold Np.transpose, Np.newaxis. cbn [Np.ncols map].
  transitivity (map (λ x : R, [x]) (map (λ j, nth j v s0) (seq 0 (length v))));
    [rewrite map_map; reflexivity | rewrite map_nth_seq_id; reflexivity].
Qed.

Lemma repeat_cols_newaxis (v : list R) (n : nat) :
  Np2.repeat_cols (Np.newaxis v) n = map (λ x, repeat x n) v.
Proof.
  unfold Np2.repeat_cols, Np.newaxis. rewrite map_map.
  apply map_ext. intros x. cbn [map concat]. apply app_nil_r.
Qed.

Lemma zeros_column (n : nat) : Np2.zeros n 1 = Np.newaxis (repeat (s0 : R) n).
Proof.
  unfold Np2.zeros, Np.newaxis.
  induction n as [|n IH]; [reflexivity|].
  cbn [repeat map] in *. f_equal. exact IH.
Qed.

Lemma overwrite_row (row v : list R) :
  length v = length row → Np.ibcast (λ (_ x : R), Ok x) row v = Ok v.
Proof.
  intros Hlen.
  rewrite (ibcast_zip _ (λ _ x : R, x))
    by (apply Forall2_same_length_lookup_2; [symmetry; exact Hlen|];
        reflexivity).
  f_equal. revert row Hlen.
  induction v as [|x v IH]; intros [|y row] Hlen; try discriminate Hlen;
    [reflexivity|].
  cbn [zip_with]. f_equal. apply IH. cbn [length] in Hlen. lia.
Qed.

Lemma map_insert_row (j i : nat) (v : list R) (a : list (list R)) :
  map (λ row : list R, nth j row s0) (<[i := v]> a)
  = <[i := nth j v s0]> (map (λ row : list R, nth j row s0) a).
Proof.
  revert i. induction a as [|row a IH]; intros [|i]; try reflexivity.
  cbn. f_equal. apply IH.
Qed.

(** [a[:, j] = v] on a matrix with a column [j] and as many rows as [v]
    has entries. *)
Lemma set_col_run (r c j : nat) (v : list R) (a : list (list R)) :
  is_mat r c a → j < c → length v = r →
  Np2.set_col j v a = Ok (zip_with (λ (row : list R) x, <[j := x]> row) a v).
Proof.
  intros [Hrows Hcols] Hj Hv. unfold Np2.set_col.
  destruct (list_find _ a) as [[i row]|] eqn:E.
  - apply list_find_Some in E as (Hi & Hrow & _).
    rewrite Forall_forall in Hcols.
    rewrite (Hcols row) in Hrow by (eapply list_elem_of_lookup_2, Hi). lia.
  - apply ibcast_zip, Forall2_same_length_lookup_2; [lia|]. reflexivity.
Qed.

Lemma set_col_is_mat (r c j : nat) (v : list R) (a : list (list R)) :
  is_mat r c a → length v = r →
  is_mat r c (zip_with (λ (row : list R) x, <[j := x]> row) a v).
Proof.
  intros [Hrows Hcols] Hv. split.
  - rewrite length_zip_with. lia.
  - revert v r Hrows Hv. induction Hcols as [|row a Hrow _ IH];
      intros [|x v] r Hrows Hv; cbn [zip_with]; try constructor.
    + rewrite length_insert. exact Hrow.
    + apply (IH v (length a)); [reflexivity|].
      cbn [length] in Hrows, Hv. lia.
Qed.

Lemma set_col_same (r c j : nat) (v : list R) (a : list (list R)) :
  is_mat r c a → j < c → length v = r →
  map (λ row : list R, nth j row s0)
      (zip_with (λ (row : list R) x, <[j := x]> row) a v) = v.
Proof.
  intros [Hrows Hcols] Hj Hv. revert v r Hrows Hv.
  induction Hcols as [|row a Hrow _ IH]; intros [|x v] r Hrows Hv;
    cbn [length] in Hrows, Hv; try lia; [reflexivity|].
  cbn [zip_with map]. f_equal.
  - apply nth_lookup_Some, list_lookup_insert_eq. lia.
  - apply (IH v (length a)); [reflexivity | lia].
Qed.

Lemma set_col_other (j k : nat) (v : list R) (a : list (list R)) :
  length v = length a → j ≠ k →
  map (λ row : list R, nth k row s0)
      (zip_with (λ (row : list R) x, <[j := x]> row) a v)
  = map (λ row : list R, nth k row s0) a.
Proof.
  intros Hv Hjk. revert v Hv.
  induction a as [|row a IH]; intros [|x v] Hv; try discriminate Hv;
    [reflexivity|].
  cbn [zip_with map]. f_equal.
  - rewrite !nth_lookup, list_lookup_insert_ne by exact Hjk. reflexivity.
  - apply IH. cbn [length] in Hv. lia.
Qed.

(** Transposing twice gives the array back. *)
Lemma transpose_transpose (d : nat) (rows : list (list R)) :
  Forall (λ r, length r = d) rows → 0 < d →
  Np.transpose (Np.transpose rows) = rows.
Proof.
  intros Hrows Hd. destruct rows as [|row rows]; [reflexivity|].
  set (a := row :: rows) in *.
  assert (Np.ncols a = d) as Hn
    by (apply ncols_rectangular; [exact Hrows | discriminate]).
  assert (Np.ncols (Np.transpose a) = length a) as Hn'.
  { unfold Np.transpose. rewrite Hn.
    destruct d as [|d]; [lia|]. cbn [seq map Np.ncols].
    apply length_map. }
  unfold Np.transpose at 1. rewrite Hn'.
  apply nth_ext with (d := []) (d' := []).
  - rewrite length_map, length_seq. reflexivity.
  - intros i Hi. rewrite length_map, length_seq in Hi.
    rewrite (nth_map_default _ _ _ 0) by (rewrite length_seq; exact Hi).
    rewrite seq_nth by exact Hi. cbn [Nat.add].
    unfold Np.transpose. rewrite Hn, map_map.
    assert (length (nth i a []) = d) as Hrow.
    { rewrite Forall_forall in Hrows.
      apply Hrows, list_elem_of_In, nth_In, Hi. }
    rewrite <- (map_nth_seq_id (nth i a [])). rewrite Hrow.
    apply map_ext. intros j.
    apply (nth_map_default (λ r : list R, nth j r s0)), Hi.
Qed.
End ColumnsAndRows.

(** ** The body positions *)

Section BodyPositions.
Context {R : Type} `{Scalar R}.

(** X17.  The body positions have one row per degree of freedom and
    one column per frame; column [f] is the initial pose with the entry
    of the arm replaced by the arm's position at frame [f]. *)
Theorem full_body_positions_columns (initial_pose : list R)
    (arm_index : nat) (arm_position_over_time_noised : list R)
    (number_frames : nat) :
  arm_index < length initial_pose →
  length arm_position_over_time_noised = number_frames →
  ∃ full_body_all_position,
    full_body_positions initial_pose arm_index arm_position_over_time_noised
      number_frames
    = Ok full_body_all_position ∧
    is_mat (length initial_pose) number_frames full_body_all_position ∧
    ∀ f v, arm_position_over_time_noised !! f = Some v →
           Np.col f full_body_all_position
           = Ok (<[arm_index := v]> initial_pose).
Proof.
  intros Hi Harm. unfold full_body_positions.
  change (Np.array [initial_pose]) with (Ok [initial_pose] : result _).
  rewrite bind_Ok, transpose_row, repeat_cols_newaxis.
  unfold Np2.set_row.
  rewrite (lookup_nth _ _ []) by (rewrite length_map; exact Hi).
  rewrite (nth_map_default _ _ _ s0) by exact Hi.
  rewrite overwrite_row by (rewrite repeat_length; exact Harm).
  rewrite bind_Ok. eexists. split; [reflexivity|].
  assert (is_mat (length initial_pose) number_frames
            (<[arm_index := arm_position_over_time_noised]>
               (map (λ x, repeat x number_frames) initial_pose))) as Hmat.
  { split; [rewrite length_insert, length_map; reflexivity|].
    apply Forall_insert; [|exact Harm].
    apply Forall_map, Forall_forall. intros x _. apply repeat_length. }
  split; [exact Hmat|]. intros f v Hf.
  assert (f < number_frames) as Hlt
    by (rewrite <- Harm; eapply lookup_lt_Some, Hf).
  rewrite (is_mat_col _ _ _ _ Hmat Hlt). f_equal.
  rewrite map_insert_row, map_map.
  rewrite (nth_lookup_Some _ _ _ _ Hf). f_equal.
  rewrite <- (map_id initial_pose) at 2. apply map_ext. intros x.
  apply nth_repeat_lt, Hlt.
Qed.
End BodyPositions.

(** ** The collected markers *)

Section Collection.
Context {R : Type} `{Scalar R}.
Variable n_q n_markers : nat.
Variable model_markers : list R → list (list R).

Hypothesis marker_shapes :
  ∀ q, length q = n_q →
       length (model_markers q) = n_markers ∧
       Forall (λ m, length m = 3) (model_markers q).

Local Notation "'column'" := (λ a f, map (λ row : list R, nth f row s0) a).

Lemma collect_run (positions : list (list R)) (number_frames : nat)
    (frames : list nat) (w : world R) :
  is_mat n_q number_frames positions →
  Forall (λ f, f < number_frames) frames →
  mapM (λ f,
          q ← lift (Np.col f positions);
          call (Ev_markers q);;
          skin_markers ← lift (Np.array (model_markers q));
          mret (Np.transpose skin_markers)) frames w
  = (Ok (map (λ f, Np.transpose (model_markers (column positions f))) frames),
     World (heap w)
           (calls w ++ map (λ f, Ev_markers (column positions f)) frames)).
Proof.
  intros Hmat Hframes. revert w.
  induction Hframes as [|f frames Hf _ IH]; intros w.
  - cbn. rewrite app_nil_r. destruct w. reflexivity.
  - cbn [mapM]. rewrite !py_bind_run. unfold lift at 1.
    rewrite (is_mat_col _ _ _ _ Hmat Hf).
    rewrite !py_bind_run. cbn [call]. rewrite !py_bind_run. unfold lift at 1.
    rewrite (array_rectangular 3)
      by (apply marker_shapes; rewrite length_map; apply Hmat).
    cbn [mret py_ret]. rewrite py_bind_run, IH.
    cbn [heap calls map]. rewrite <- app_assoc. reflexivity.
Qed.

(** X18.  Collecting and reading back: the collection loop consults
    the markers once per frame, at the column of the body positions of
    that frame, and keeps a [3 × n markers] array per frame; what the
    notebook then extracts from frame [f] as the observed markers is the
    column of the simulated markers at the positions of frame [f], the
    very vector [forward_kinematics] builds there. *)
Theorem collected_markers_round_trip (positions : list (list R))
    (number_frames : nat) (w : world R) :
  is_mat n_q number_frames positions → 1 ≤ n_markers →
  ∃ all_skin_markers qs,
    collect_skin_markers model_markers positions number_frames w
    = (Ok all_skin_markers, World (heap w) (calls w ++ map Ev_markers qs)) ∧
    length all_skin_markers = number_frames ∧
    length qs = number_frames ∧
    ∀ f, f < number_frames →
      ∃ q a,
        Np.col f positions = Ok q ∧ qs !! f = Some q ∧
        all_skin_markers !! f = Some a ∧ is_mat 3 n_markers a ∧
        frame_markers all_skin_markers f
        = Ok (Np.newaxis (simulated model_markers q)).
Proof.
  intros Hmat Hmarkers.
  exists (map (λ f, Np.transpose (model_markers (column positions f)))
              (seq 0 number_frames)),
         (map (column positions) (seq 0 number_frames)).
  split; [|split; [|split]].
  - unfold collect_skin_markers.
    rewrite (collect_run positions number_frames) by
      (exact Hmat || (apply Forall_forall; intros f Hf;
                      apply list_elem_of_In, in_seq in Hf; lia)).
    rewrite map_map. reflexivity.
  - rewrite length_map, length_seq. reflexivity.
  - rewrite length_map, length_seq. reflexivity.
  - intros f Hf.
    assert (length (column positions f) = n_q) as Hq
      by (rewrite length_map; apply Hmat).
    destruct (marker_shapes _ Hq) as [Hlen Hall].
    exists (column positions f), (Np.transpose (model_markers (column positions f))).
    split; [apply (is_mat_col _ _ _ _ Hmat Hf)|].
    assert (∀ {A} (F : nat → A),
              map F (seq 0 number_frames) !! f = Some (F f)) as Hlook.
    { intros A F. rewrite (lookup_nth _ _ (F 0))
        by (rewrite length_map, length_seq; exact Hf).
      rewrite (nth_map_default _ _ _ 0) by (rewrite length_seq; exact Hf).
      rewrite seq_nth by exact Hf. reflexivity. }
    split; [apply (Hlook _ (column positions))|].
    split; [apply (Hlook _ (λ f, Np.transpose (model_markers (column positions f))))|].
    split.
    + rewrite <- Hlen. apply transpose_is_mat; [exact Hall|].
      intros Hnil. rewrite Hnil in Hlen. cbn [length] in Hlen. lia.
    + unfold frame_markers.
      rewrite (Hlook _ (λ f, Np.transpose (model_markers (column positions f)))).
      rewrite (transpose_transpose 3) by (exact Hall || lia).
      reflexivity.
Qed.
End Collection.

(** ** The solver at a solution, and on an affine model *)

Section SolverExact.
Context {R : Type} `{ExactArith R}.
Variable n_q n_markers : nat.
Variable model_markers : list R → list (list R).
Variable model_markersJacobian : list R → list (list (list R)).
Variable pinv : list (list R) → list (list R).
Hypothesis shapes :
  well_shaped model_markers model_markersJacobian pinv n_q n_markers.

Add Ring scalar_ring_se : (F_R ea_field).

Local Notation "'fk'" := (simulated model_markers).
Local Notation "'jac'" := (jacobian model_markersJacobian).
Local Notation "'update'" :=
  (ik_update model_markers model_markersJacobian pinv).
Local Notation "'trace'" :=
  (ik_trace model_markers model_markersJacobian pinv).
Local Notation "'solve'" :=
  (inverse_kinematics n_q model_markers model_markersJacobian pinv).

Lemma vsub_self (a : list R) : vsub a a = map (λ _, s0) a.
Proof.
  unfold vsub. induction a as [|v a IH]; [reflexivity|].
  cbn [zip_with map]. rewrite IH. f_equal. ring.
Qed.

Lemma dot_zeros {A} (row : list R) (l : list A) :
  Np.dot row (map (λ _, s0) l) = s0.
Proof.
  unfold Np.dot. revert l.
  induction row as [|x row IH]; intros [|y l]; try reflexivity.
  cbn [map zip_with]. rewrite sum_cons, IH. ring.
Qed.

Lemma mvmul_zeros {A} (a : list (list R)) (l : list A) :
  mvmul a (map (λ _, s0) l) = map (λ _, s0) a.
Proof. unfold mvmul. apply map_ext. intros row. apply dot_zeros. Qed.

Lemma vsub_zeros {A} (q : list R) (l : list A) :
  length l = length q → vsub q (map (λ _, s0) l) = q.
Proof.
  unfold vsub. revert l.
  induction q as [|v q IH]; intros [|y l] Hlen; try discriminate Hlen;
    [reflexivity|].
  cbn [map zip_with]. rewrite IH by (cbn [length] in Hlen; lia).
  f_equal. ring.
Qed.

Lemma ik_update_fixed (q : list R) :
  length q = n_q → update (fk q) q = q.
Proof.
  intros Hq. unfold ik_update, residual.
  rewrite vsub_self, mvmul_zeros. apply vsub_zeros.
  destruct (pinv_jac_is_mat _ _ _ _ _ shapes q Hq) as [Hrows _].
  rewrite Hrows, Hq. reflexivity.
Qed.

(** X12.  At a solution the solver stays: when the observed markers are
    the simulated markers of the initial guess, every iteration consults
    the collaborators at that guess and returns it unchanged, however
    many iterations are asked for and whatever the pseudo-inverse is. *)
Theorem inverse_kinematics_fixed_point (r p : nat) (q0 : list R)
    (N : Z) (w : world R) :
  1 ≤ n_markers → r ≠ p →
  heap w !! r = Some (Np.newaxis (fk q0)) →
  heap w !! p = Some (Np.newaxis q0) →
  length q0 = n_q →
  solve r p N w
  = (Ok p,
     World (heap w)
           (calls w
            ++ concat (repeat (ik_events model_markersJacobian q0)
                         (Z.to_nat N)))).
Proof.
  intros Hn Hrp Hr Hp Hq.
  rewrite (solve_run n_q n_markers _ _ _ r p (fk q0) q0 N w shapes Hn Hrp Hr Hp)
    by (apply (length_fk _ _ _ _ _ shapes), Hq || exact Hq).
  assert (∀ n, Nat.iter n (update (fk q0)) q0 = q0) as Hiter.
  { induction n as [|n IH]; [reflexivity|].
    rewrite Nat.iter_succ, IH. apply ik_update_fixed, Hq. }
  assert (∀ n, trace (fk q0) q0 n
               = concat (repeat (ik_events model_markersJacobian q0) n))
    as Htrace.
  { induction n as [|n IH]; [reflexivity|].
    cbn [ik_trace repeat concat].
    rewrite ik_update_fixed by exact Hq. rewrite IH. reflexivity. }
  rewrite Hiter, Htrace, insert_id by exact Hp. reflexivity.
Qed.

Lemma dot_vsub (row a b : list R) :
  length a = length b →
  Np.dot row (vsub a b) = (Np.dot row a - Np.dot row b)%S.
Proof.
  unfold Np.dot, vsub. revert a b.
  induction row as [|x row IH]; intros [|y a] [|z b] Hlen;
    try discriminate Hlen; cbn [zip_with]; rewrite ?sum_nil; try ring.
  rewrite !sum_cons, IH by (cbn [length] in Hlen; lia). ring.
Qed.

Lemma mvmul_vsub (a : list (list R)) (q q' : list R) :
  length q = length q' →
  mvmul a (vsub q q') = vsub (mvmul a q) (mvmul a q').
Proof.
  intros Hlen. unfold mvmul.
  induction a as [|row a IH]; [reflexivity|].
  cbn [map]. rewrite IH, dot_vsub by exact Hlen. reflexivity.
Qed.

Lemma vsub_vadd_cancel (x y b : list R) :
  length x = length y → length x ≤ length b →
  vsub (vadd x b) (vadd y b) = vsub x y.
Proof.
  unfold vsub, vadd. revert y b.
  induction x as [|u x IH]; intros [|v y] [|c b] Hxy Hb;
    try discriminate Hxy; try reflexivity; cbn [length] in Hb; try lia.
  cbn [zip_with]. rewrite IH by (cbn [length] in Hxy; lia).
  f_equal. ring.
Qed.

Lemma vsub_vsub (q q' : list R) :
  length q = length q' → vsub q (vsub q q') = q'.
Proof.
  unfold vsub. revert q'.
  induction q as [|u q IH]; intros [|v q'] Hlen; try discriminate Hlen;
    [reflexivity|].
  cbn [zip_with]. rewrite IH by (cbn [length] in Hlen; lia).
  f_equal. ring.
Qed.

(** On an affine model one update lands on the joint positions that
    produced the observed markers, from any guess. *)
Lemma ik_update_affine (a : list (list R)) (b q_true q : list R) :
  affine_model model_markers model_markersJacobian pinv n_q a b →
  length q_true = n_q → length q = n_q →
  update (fk q_true) q = q_true.
Proof.
  intros (Hfk & Hjac & Hinv) Htrue Hq.
  pose proof (jac_is_mat _ _ _ _ _ shapes q Hq) as [Hrows _].
  rewrite Hjac in Hrows by exact Hq.
  pose proof (length_fk _ _ _ _ _ shapes q Hq) as Hlen.
  rewrite Hfk in Hlen by exact Hq.
  unfold vadd, mvmul in Hlen. rewrite length_zip_with, length_map in Hlen.
  unfold ik_update, residual.
  rewrite Hjac, !Hfk by assumption.
  rewrite vsub_vadd_cancel
    by (unfold mvmul; rewrite !length_map; lia).
  rewrite <- mvmul_vsub by congruence.
  rewrite Hinv by (unfold vsub; rewrite length_zip_with; lia).
  apply vsub_vsub. congruence.
Qed.

(** X13.  On a model whose markers are affine in the joint positions,
    with a pseudo-inverse that undoes the Jacobian on the left, the
    solver is exact after one iteration: from any initial guess, and
    for any positive number of iterations, it returns the joint
    positions that produced the observed markers. *)
Theorem inverse_kinematics_affine_exact (a : list (list R))
    (b q_true q0 : list R) (r p : nat) (N : Z) (w : world R) :
  affine_model model_markers model_markersJacobian pinv n_q a b →
  1 ≤ n_markers → r ≠ p →
  length q_true = n_q → length q0 = n_q →
  heap w !! r = Some (Np.newaxis (fk q_true)) →
  heap w !! p = Some (Np.newaxis q0) →
  (1 ≤ N)%Z →
  ∃ w', solve r p N w = (Ok p, w') ∧
        heap w' !! p = Some (Np.newaxis q_true) ∧
        ∀ l, l ≠ p → heap w' !! l = heap w !! l.
Proof.
  intros Haff Hn Hrp Htrue Hq Hr Hp HN.
  rewrite (solve_run n_q n_markers _ _ _ r p (fk q_true) q0 N w shapes Hn Hrp
             Hr Hp)
    by (apply (length_fk _ _ _ _ _ shapes), Htrue || exact Hq).
  eexists. split; [reflexivity|]. cbn [heap].
  assert (∀ n, length (Nat.iter n (update (fk q_true)) q0) = n_q) as Hlen.
  { induction n as [|n IH]; [exact Hq|].
    rewrite Nat.iter_succ. apply (length_update _ _ _ _ _ shapes), IH. }
  destruct (Z.to_nat N) as [|n] eqn:E; [lia|].
  rewrite Nat.iter_succ, (ik_update_affine a b)
    by (assumption || apply Hlen).
  split; [apply lookup_insert_eq|].
  intros l Hl. apply lookup_insert_ne. congruence.
Qed.
End SolverExact.

(** ** A Jacobian of the wrong width *)

Section JacobianWidth.
Context {R : Type} `{Scalar R}.
Variable n_q : nat.
Variable model_markers : list R → list (list R).
Variable model_markersJacobian : list R → list (list (list R)).
Variable pinv : list (list R) → list (list R).

Lemma foldl_Raise (e : exn) (blocks : list (list (list R))) :
  foldl (λ acc j, jacobianMatrix ← acc;
                  Np.concatenate_rows n_q jacobianMatrix j)
        (Raise e) blocks
  = Raise e.
Proof. induction blocks as [|b blocks IH]; [reflexivity | exact IH]. Qed.

Lemma concatenate_rows_Raise (a rows rows' : list (list R)) (row : list R) :
  Forall (λ r, length r = n_q) rows → length row ≠ n_q →
  Np.concatenate_rows n_q a (rows ++ row :: rows')
  = Raise (ValueError_concatenate n_q (length row)).
Proof.
  intros Hrows Hrow. unfold Np.concatenate_rows.
  assert (list_find (λ r : list R, length r ≠ n_q) (rows ++ row :: rows')
          = Some (length rows, row)) as ->; [|reflexivity].
  apply list_find_Some. split; [|split; [exact Hrow|]].
  - rewrite lookup_app_r, Nat.sub_diag by lia. reflexivity.
  - intros j y Hy Hj Hbad. rewrite lookup_app_l in Hy by exact Hj.
    rewrite Forall_forall in Hrows.
    apply Hbad, Hrows. eapply list_elem_of_lookup_2, Hy.
Qed.

(** X14.  The solver does not check the width of the Jacobian.  When
    a block of the Jacobian has a row that is not [n_q] wide, the first
    iteration consults the markers and the Jacobian at the initial
    guess, and then stacking the blocks raises numpy's concatenation
    error; the pseudo-inverse is not asked for, and the initial guess
    is left as it was. *)
Theorem inverse_kinematics_jacobian_width (r p : nat) (q0 : list R)
    (N : Z) (w : world R)
    (blocks blocks' : list (list (list R))) (rows rows' : list (list R))
    (row : list R) :
  heap w !! p = Some (Np.newaxis q0) →
  (1 ≤ N)%Z →
  model_markersJacobian q0 = blocks ++ (rows ++ row :: rows') :: blocks' →
  Forall (Forall (λ r, length r = n_q)) blocks →
  Forall (λ r, length r = n_q) rows →
  length row ≠ n_q →
  inverse_kinematics n_q model_markers model_markersJacobian pinv r p N w
  = (Raise (ValueError_concatenate n_q (length row)),
     World (heap w) (calls w ++ [Ev_markers q0; Ev_markersJacobian q0])).
Proof.
  intros Hp HN Hjac Hblocks Hrows Hrow. unfold inverse_kinematics.
  destruct (Z.to_nat N) as [|n] eqn:E; [lia|].
  cbn [inverse_kinematics_loop]. rewrite !py_bind_run.
  unfold inverse_kinematics_body.
  rewrite py_bind_run. unfold load at 1. rewrite Hp.
  rewrite py_bind_run. unfold lift at 1. rewrite col_newaxis.
  rewrite py_bind_run, forward_kinematics_run.
  rewrite py_bind_run. unfold load at 1. cbn [heap]. rewrite Hp.
  rewrite py_bind_run. unfold lift at 1. rewrite col_newaxis.
  rewrite py_bind_run. unfold marker_jacobian.
  rewrite py_bind_run. cbn [call heap calls]. unfold lift at 1.
  rewrite Hjac, foldl_app, fold_concatenate_rows by exact Hblocks.
  cbn [foldl]. rewrite bind_Ok, concatenate_rows_Raise by assumption.
  rewrite foldl_Raise, <- app_assoc. reflexivity.
Qed.
End JacobianWidth.

(** ** The reconstruction of every frame *)

Section WarmStart.
Context {R : Type} `{Scalar R}.
Variable n_q n_markers number_frames : nat.
Variable model_markers : list R → list (list R).
Variable model_markersJacobian : list R → list (list (list R)).
Variable pinv : list (list R) → list (list R).
Variable numpy_ndarray : nat → nat → list (list R).
Hypothesis shapes :
  well_shaped model_markers model_markersJacobian pinv n_q n_markers.
Hypothesis markers_present : 1 ≤ n_markers.

Local Notation "'update'" :=
  (ik_update model_markers model_markersJacobian pinv).
Local Notation "'column'" := (λ a f, map (λ row : list R, nth f row s0) a).
Local Notation "'set_column'" :=
  (λ f v a, zip_with (λ (row : list R) x, <[f := x]> row) a v).

Lemma fresh_is_new (h : gmap nat (list (list R))) (l : nat) :
  is_Some (h !! l) → l ≠ fresh (dom h).
Proof.
  intros [a Ha] ->.
  pose proof (is_fresh (dom h)) as Hfresh.
  apply not_elem_of_dom in Hfresh. congruence.
Qed.

Lemma lookup_map_Some {A B} (F : A → B) (l : list A) (i : nat) (y : B) :
  map F l !! i = Some y → ∃ x, l !! i = Some x ∧ F x = y.
Proof.
  revert i. induction l as [|x l IH]; intros [|i] Hi; try discriminate Hi.
  - injection Hi as <-. exists x. split; reflexivity.
  - apply IH. exact Hi.
Qed.

Lemma length_warm_starts (F : list R → list R → list R) (guess : list R)
    (n : nat) (observations : list (list R)) :
  length (warm_starts F guess n observations) = length observations.
Proof.
  revert guess n. induction observations as [|o observations IH];
    intros guess n; [reflexivity|].
  cbn [warm_starts length]. rewrite IH. reflexivity.
Qed.

Lemma length_iter_update (observed guess : list R) (n : nat) :
  length guess = n_q → length (Nat.iter n (update observed) guess) = n_q.
Proof.
  intros Hq. induction n as [|n IH]; [exact Hq|].
  rewrite Nat.iter_succ. apply (length_update _ _ _ _ _ shapes), IH.
Qed.

(** One frame: the solver runs in the array of the guess, its solution
    is written into the frame's column, and a new array with that
    column becomes the next guess. *)
Lemma reconstruct_frame_run (all_skin_markers : list (list (list R)))
    (q_inverse frame q_init : nat) (n : Z) (observed guess : list R)
    (M : list (list R)) (w : world R) :
  frame_markers all_skin_markers frame = Ok (Np.newaxis observed) →
  length observed = 3 * n_markers →
  frame < number_frames →
  heap w !! q_inverse = Some M → is_mat n_q number_frames M →
  heap w !! q_init = Some (Np.newaxis guess) → length guess = n_q →
  q_init ≠ q_inverse →
  let solved := Nat.iter (Z.to_nat n) (update observed) guess in
  ∃ w' q_init',
    reconstruct_frame n_q model_markers model_markersJacobian pinv
      all_skin_markers q_inverse frame q_init n w
    = (Ok q_init', w') ∧
    heap w' !! q_inverse = Some (set_column frame solved M) ∧
    heap w' !! q_init' = Some (Np.newaxis solved) ∧
    q_init' ≠ q_inverse ∧
    (∀ l, is_Some (heap w !! l) → l ≠ q_init') ∧
    (∀ l, is_Some (heap w !! l) → l ≠ q_inverse → l ≠ q_init →
          heap w' !! l = heap w !! l).
Proof.
  intros Hframe Hobs Hlt HM Hmat Hguess Hq Hne solved.
  assert (length solved = n_q) as Hsolved
    by (apply length_iter_update, Hq).
  set (r := fresh (dom (heap w))).
  assert (r ≠ q_init) as Hr1
    by (intros Heq; apply (fresh_is_new (heap w) q_init); [eauto | symmetry; exact Heq]).
  assert (r ≠ q_inverse) as Hr2
    by (intros Heq; apply (fresh_is_new (heap w) q_inverse);
        [eauto | symmetry; exact Heq]).
  set (h1 := <[r := Np.newaxis observed]> (heap w)).
  set (h2 := <[q_init := Np.newaxis solved]> h1).
  set (h3 := <[q_inverse := set_column frame solved M]> h2).
  set (p' := fresh (dom h3)).
  assert (h3 !! q_inverse = Some (set_column frame solved M)) as H3
    by apply lookup_insert_eq.
  assert (p' ≠ q_inverse) as Hp'
    by (intros Heq; apply (fresh_is_new h3 q_inverse); [eauto | symmetry; exact Heq]).
  exists (World (<[p' := Np.newaxis solved]> h3)
                (calls w
                 ++ ik_trace model_markers model_markersJacobian pinv
                      observed guess (Z.to_nat n))), p'.
  split; [|split; [|split; [|split; [|split]]]].
  - unfold reconstruct_frame.
    rewrite py_bind_run. unfold lift at 1. rewrite Hframe.
    rewrite py_bind_run. unfold alloc at 1. fold r. fold h1.
    rewrite py_bind_run.
    rewrite (solve_run n_q n_markers _ _ _ r q_init observed guess n
               (World h1 (calls w)) shapes markers_present Hr1);
      [|apply lookup_insert_eq
       |cbn [heap]; unfold h1; rewrite lookup_insert_ne by exact Hr1;
        exact Hguess
       |exact Hobs | exact Hq].
    cbn [heap calls]. fold solved. fold h2.
    rewrite py_bind_run. unfold load at 1. cbn [heap].
    unfold h2 at 1. rewrite lookup_insert_eq.
    rewrite py_bind_run. unfold lift at 1. rewrite col_newaxis.
    rewrite py_bind_run. unfold load at 1. cbn [heap].
    assert (h2 !! q_inverse = Some M) as ->.
    { unfold h2, h1. rewrite !lookup_insert_ne by congruence. exact HM. }
    rewrite py_bind_run. unfold lift at 1.
    rewrite (set_col_run n_q number_frames) by assumption.
    rewrite py_bind_run. unfold store at 1. cbn [heap calls]. fold h3.
    rewrite py_bind_run. unfold load at 1. cbn [heap]. rewrite H3.
    rewrite py_bind_run. unfold lift at 1.
    rewrite (is_mat_col n_q number_frames)
      by (exact Hlt || apply set_col_is_mat; assumption).
    rewrite (set_col_same n_q number_frames) by assumption.
    reflexivity.
  - cbn [heap]. rewrite lookup_insert_ne by congruence. exact H3.
  - cbn [heap]. apply lookup_insert_eq.
  - exact Hp'.
  - intros l Hl Heq. apply (fresh_is_new h3 l); [|exact Heq].
    unfold h3, h2, h1.
    destruct (decide (l = q_inverse)) as [->|?];
      [rewrite lookup_insert_eq; eauto|].
    rewrite lookup_insert_ne by congruence.
    destruct (decide (l = q_init)) as [->|?];
      [rewrite lookup_insert_eq; eauto|].
    rewrite lookup_insert_ne by congruence.
    destruct (decide (l = r)) as [->|?];
      [rewrite lookup_insert_eq; eauto|].
    rewrite lookup_insert_ne by congruence. exact Hl.
  - intros l Hl Hl1 Hl2. cbn [heap].
    assert (l ≠ p') as Hl3.
    { intros Heq. apply (fresh_is_new h3 l); [|exact Heq].
      unfold h3, h2, h1. rewrite !lookup_insert_ne by congruence.
      destruct (decide (l = r)) as [->|?];
        [rewrite lookup_insert_eq; eauto|].
      rewrite lookup_insert_ne by congruence. exact Hl. }
    assert (l ≠ r) as Hl4 by (apply fresh_is_new, Hl).
    unfold h3, h2, h1. rewrite !lookup_insert_ne by congruence.
    reflexivity.
Qed.

Lemma reconstruct_loop_run (all_skin_markers : list (list (list R)))
    (q_inverse : nat) (observations : list (list R)) :
  ∀ (k : nat) (guess : list R) (n : Z) (M : list (list R)) (w : world R)
    (q_init : nat),
  (∀ i observed, observations !! i = Some observed →
     frame_markers all_skin_markers (k + i) = Ok (Np.newaxis observed) ∧
     length observed = 3 * n_markers) →
  k + length observations ≤ number_frames →
  heap w !! q_inverse = Some M → is_mat n_q number_frames M →
  heap w !! q_init = Some (Np.newaxis guess) → length guess = n_q →
  q_init ≠ q_inverse →
  ∃ w' M',
    reconstruct_loop n_q model_markers model_markersJacobian pinv
      (seq k (length observations)) all_skin_markers q_inverse q_init n w
    = (Ok (), w') ∧
    heap w' !! q_inverse = Some M' ∧ is_mat n_q number_frames M' ∧
    (∀ i solved,
       warm_starts update guess (Z.to_nat n) observations !! i = Some solved →
       column M' (k + i) = solved) ∧
    (∀ j, j < k ∨ k + length observations ≤ j → column M' j = column M j) ∧
    (∀ l, is_Some (heap w !! l) → l ≠ q_inverse → l ≠ q_init →
          heap w' !! l = heap w !! l).
Proof.
  induction observations as [|observed observations IH];
    intros k guess n M w q_init Hobs Hk HM Hmat Hguess Hq Hne.
  - exists w, M. split; [reflexivity|]. split; [exact HM|].
    split; [exact Hmat|]. split; [intros i s Hs; discriminate Hs|].
    split; reflexivity.
  - cbn [length] in Hk. cbn [length seq reconstruct_loop].
    destruct (Hobs 0 observed eq_refl) as [Hframe Hlen].
    rewrite Nat.add_0_r in Hframe.
    destruct (reconstruct_frame_run all_skin_markers q_inverse k q_init n
                observed guess M w Hframe Hlen ltac:(lia) HM Hmat Hguess Hq Hne)
      as (w1 & q1 & Hrun & HM1 & Hq1 & Hne1 & Hnew & Hkeep).
    set (solved := Nat.iter (Z.to_nat n) (update observed) guess) in *.
    assert (length solved = n_q) as Hsolved
      by (apply length_iter_update, Hq).
    destruct (IH (S k) solved 2%Z (set_column k solved M) w1 q1)
      as (w' & M' & Hloop & HM' & Hmat' & Hcols & Hrest & Hkeep');
      try assumption.
    { intros i o Ho. replace (S k + i) with (k + S i) by lia.
      apply Hobs. exact Ho. }
    { lia. }
    { apply set_col_is_mat; assumption. }
    exists w', M'. split; [|split; [exact HM'|split; [exact Hmat'|split; [|split]]]].
    + rewrite py_bind_run, Hrun. exact Hloop.
    + intros [|i] s Hs; cbn [warm_starts] in Hs.
      * injection Hs as <-. rewrite Nat.add_0_r, Hrest by lia.
        apply (set_col_same n_q number_frames); [assumption | lia | assumption].
      * replace (k + S i) with (S k + i) by lia. apply Hcols. exact Hs.
    + intros j Hj. rewrite Hrest by lia.
      apply set_col_other; [destruct Hmat; lia | lia].
    + intros l Hl Hl1 Hl2. rewrite <- (Hkeep l) by assumption.
      apply Hkeep'; [rewrite Hkeep by assumption; exact Hl | exact Hl1|].
      apply Hnew, Hl.
Qed.

Lemma length_frame_observation (a : list (list R)) :
  is_mat 3 n_markers a →
  length (Np2.flatten (Np.transpose a)) = 3 * n_markers.
Proof.
  intros [Hrows Hcols].
  assert (a ≠ []) as Hne by (intros ->; discriminate Hrows).
  destruct (transpose_is_mat n_markers a Hcols Hne) as [Hlen Hall].
  unfold Np2.flatten.
  rewrite (length_concat_fixed (length a)) by exact Hall.
  rewrite Hlen, Hrows. lia.
Qed.

(** X19.  The cell that reconstructs every frame, on a list of
    [3 × n markers] arrays no longer than [number_frames]: it returns a
    new [n_q × number_frames] array whose column [f] is the solution of
    frame [f], where frame 0 is solved from the zero vector with five
    iterations and every later frame from the solution of the frame
    before it with two; the columns of the frames that were not
    collected are what [numpy.ndarray] left in them, and no array that
    existed before the cell is changed. *)
Theorem reconstruct_warm_start (all_skin_markers : list (list (list R)))
    (w : world R) :
  Forall (is_mat 3 n_markers) all_skin_markers →
  length all_skin_markers ≤ number_frames →
  is_mat n_q number_frames (numpy_ndarray n_q number_frames) →
  let observations :=
    map (λ a, Np2.flatten (Np.transpose a)) all_skin_markers in
  ∃ q_inverse w' M,
    reconstruct n_q model_markers model_markersJacobian pinv numpy_ndarray
      all_skin_markers number_frames w
    = (Ok q_inverse, w') ∧
    heap w !! q_inverse = None ∧
    heap w' !! q_inverse = Some M ∧ is_mat n_q number_frames M ∧
    (∀ f solved,
       warm_starts update (repeat s0 n_q) 5 observations !! f = Some solved →
       Np.col f M = Ok solved) ∧
    (∀ f, length all_skin_markers ≤ f < number_frames →
          Np.col f M = Np.col f (numpy_ndarray n_q number_frames)) ∧
    (∀ l, is_Some (heap w !! l) → heap w' !! l = heap w !! l).
Proof.
  intros Hall Hlen Hnd observations.
  set (p := fresh (dom (heap w))).
  set (h1 := <[p := Np2.zeros n_q 1]> (heap w)).
  set (q := fresh (dom h1)).
  set (h2 := <[q := numpy_ndarray n_q number_frames]> h1).
  assert (q ≠ p) as Hqp.
  { intros Heq. apply (fresh_is_new h1 p); [|symmetry; exact Heq].
    unfold h1. rewrite lookup_insert_eq. eauto. }
  assert (heap w !! p = None) as Hp
    by (apply not_elem_of_dom, is_fresh).
  assert (heap w !! q = None) as Hq.
  { destruct (heap w !! q) as [a|] eqn:E; [|reflexivity].
    exfalso. apply (fresh_is_new h1 q); [|reflexivity].
    unfold h1. rewrite lookup_insert_ne by congruence. eauto. }
  destruct (reconstruct_loop_run all_skin_markers q observations 0
              (repeat s0 n_q) 5%Z (numpy_ndarray n_q number_frames)
              (World h2 (calls w)) p)
    as (w' & M & Hloop & HM & Hmat & Hcols & Hrest & Hkeep).
  { intros i observed Hi. cbn [Nat.add].
    unfold observations in Hi.
    apply lookup_map_Some in Hi as (a & Hi & Heq).
    unfold frame_markers. rewrite Hi, Heq. split; [reflexivity|].
    rewrite <- Heq. apply length_frame_observation.
    rewrite Forall_forall in Hall.
    eapply Hall, list_elem_of_lookup_2, Hi. }
  { unfold observations. rewrite length_map. cbn [Nat.add]. exact Hlen. }
  { cbn [heap]. apply lookup_insert_eq. }
  { exact Hnd. }
  { cbn [heap]. unfold h2, h1. rewrite lookup_insert_ne by congruence.
    rewrite lookup_insert_eq, zeros_column. reflexivity. }
  { apply repeat_length. }
  { congruence. }
  exists q, w', M.
  split; [|split; [exact Hq|split; [exact HM|split; [exact Hmat|split; [|split]]]]].
  - unfold reconstruct.
    rewrite py_bind_run. unfold alloc at 1. fold p. fold h1.
    rewrite py_bind_run. unfold alloc at 1. cbn [heap calls]. fold q. fold h2.
    rewrite py_bind_run.
    unfold observations in Hloop. rewrite length_map in Hloop.
    rewrite Hloop. reflexivity.
  - intros f s Hs. specialize (Hcols f s Hs). cbn [Nat.add] in Hcols.
    rewrite (is_mat_col _ _ _ _ Hmat); [rewrite Hcols; reflexivity|].
    apply lookup_lt_Some in Hs. rewrite length_warm_starts in Hs.
    unfold observations in Hs. rewrite length_map in Hs. lia.
  - intros f Hf. rewrite (is_mat_col _ _ _ _ Hmat) by lia.
    rewrite (is_mat_col _ _ _ _ Hnd) by lia. f_equal.
    apply Hrest. right. unfold observations. rewrite length_map. lia.
  - intros l Hl. rewrite (Hkeep l).
    + cbn [heap]. unfold h2, h1.
      rewrite !lookup_insert_ne; [reflexivity | |].
      * intros <-. rewrite Hp in Hl. destruct Hl; discriminate.
      * intros <-. rewrite Hq in Hl. destruct Hl; discriminate.
    + cbn [heap]. unfold h2, h1.
      rewrite !lookup_insert_ne; [exact Hl | |].
      * intros <-. rewrite Hp in Hl. destruct Hl; discriminate.
      * intros <-. rewrite Hq in Hl. destruct Hl; discriminate.
    + intros ->. rewrite Hq in Hl. destruct Hl; discriminate.
    + intros ->. rewrite Hp in Hl. destruct Hl; discriminate.
Qed.
End WarmStart.

(** ** An observed array with a single entry *)

Section StretchedObservation.
Context {R : Type} `{Scalar R}.
Variable n_q n_markers : nat.
Variable model_markers : list R → list (list R).
Variable model_markersJacobian : list R → list (list (list R)).
Variable pinv : list (list R) → list (list R).
Hypothesis shapes :
  well_shaped model_markers model_markersJacobian pinv n_q n_markers.

Local Notation "'fk'" := (simulated model_markers).
Local Notation "'jac'" := (jacobian model_markersJacobian).
Local Notation "'stretched'" :=
  (ik_update_stretched model_markers model_markersJacobian pinv).

Lemma sub2_stretched (a : list R) (v : R) :
  2 ≤ length a →
  Np.sub2 (Np.newaxis a) [[v]]
  = Ok (Np.newaxis (map (λ s, (s - v)%S) a)).
Proof.
  intros Ha. unfold Np.sub2, Np.bcast at 1.
  rewrite decide_False by (rewrite length_newaxis; cbn [length]; lia).
  destruct a as [|x [|y a]]; try (cbn [length] in Ha; lia).
  cbn [Np.newaxis map].
  change ([x] :: [y] :: map (λ v0 : R, [v0]) a) with (Np.newaxis (x :: y :: a)).
  rewrite (mapM_Ok_ext _ (λ row : list R, zip_with ssub row [v])).
  - unfold Np.newaxis. rewrite !map_map. reflexivity.
  - apply Forall_forall. intros row Hrow.
    apply list_elem_of_In, in_map_iff in Hrow as (s & <- & _).
    reflexivity.
Qed.

Lemma length_stretched (v : R) (q : list R) :
  length q = n_q → length (stretched v q) = n_q.
Proof.
  intros Hq. unfold ik_update_stretched, vsub, mvmul.
  rewrite length_zip_with, length_map.
  destruct (pinv_jac_is_mat _ _ _ _ _ shapes q Hq) as [-> _]. lia.
Qed.

Lemma body_stretched (r p : nat) (v : R) (q : list R) (w : world R) :
  1 ≤ n_markers →
  heap w !! r = Some [[v]] →
  heap w !! p = Some (Np.newaxis q) →
  length q = n_q →
  inverse_kinematics_body n_q model_markers model_markersJacobian pinv r p w
  = (Ok (), World (<[p := Np.newaxis (stretched v q)]> (heap w))
                  (calls w ++ ik_events model_markersJacobian q)).
Proof.
  intros Hn Hr Hp Hq. unfold inverse_kinematics_body.
  pose proof (length_fk _ _ _ _ _ shapes q Hq) as Hfk.
  destruct (pinv_jac_is_mat _ _ _ _ _ shapes q Hq) as [Hrows Hcols].
  rewrite py_bind_run. unfold load at 1. rewrite Hp.
  rewrite py_bind_run. unfold lift at 1. rewrite col_newaxis.
  rewrite py_bind_run, forward_kinematics_run.
  rewrite py_bind_run. unfold load at 1. cbn [heap]. rewrite Hp.
  rewrite py_bind_run. unfold lift at 1. rewrite col_newaxis.
  rewrite py_bind_run, (marker_jacobian_run _ _ _ _ _ shapes) by exact Hq.
  rewrite py_bind_run. cbn [call heap calls].
  rewrite py_bind_run. unfold load at 1. cbn [heap]. rewrite Hr.
  rewrite py_bind_run. unfold lift at 1.
  rewrite sub2_stretched by lia.
  rewrite py_bind_run. unfold lift at 1.
  rewrite matmul_column.
  - rewrite py_bind_run. unfold load at 1. cbn [heap]. rewrite Hp.
    rewrite py_bind_run. unfold lift at 1.
    rewrite isub2_columns
      by (unfold mvmul; rewrite length_map, Hrows; exact Hq).
    unfold store. cbn [heap calls].
    rewrite <- !app_assoc. reflexivity.
  - intros Hnil. apply (f_equal length) in Hnil.
    rewrite length_map, Hfk in Hnil. cbn in Hnil. lia.
  - eapply Forall_impl; [exact Hcols|]. intros row Hrow. cbn beta.
    rewrite length_map, Hfk, Hrow. reflexivity.
Qed.

(** X15.  An observed array with one entry, where the model has three
    coordinates or more, raises nothing: numpy stretches the entry over
    all simulated coordinates, every iteration subtracts it from each of
    them, and the array of the guess ends up with the iterate of that
    update. *)
Theorem inverse_kinematics_stretches_observation (r p : nat) (v : R)
    (q0 : list R) (N : Z) (w : world R) :
  1 ≤ n_markers → r ≠ p →
  heap w !! r = Some [[v]] →
  heap w !! p = Some (Np.newaxis q0) →
  length q0 = n_q →
  ∃ w',
    inverse_kinematics n_q model_markers model_markersJacobian pinv r p N w
    = (Ok p, w') ∧
    heap w' !! p
    = Some (Np.newaxis (Nat.iter (Z.to_nat N) (stretched v) q0)) ∧
    ∀ l, l ≠ p → heap w' !! l = heap w !! l.
Proof.
  intros Hn Hrp Hr Hp Hq. unfold inverse_kinematics.
  assert (∀ n q w,
            heap w !! r = Some [[v]] → heap w !! p = Some (Np.newaxis q) →
            length q = n_q →
            ∃ w',
              inverse_kinematics_loop n_q model_markers model_markersJacobian
                pinv n r p w = (Ok (), w') ∧
              heap w' !! p = Some (Np.newaxis (Nat.iter n (stretched v) q)) ∧
              ∀ l, l ≠ p → heap w' !! l = heap w !! l) as Hloop.
  { induction n as [|n IH]; intros q w1 Hr1 Hp1 Hq1.
    - exists w1. split; [reflexivity|]. split; [exact Hp1 | reflexivity].
    - cbn [inverse_kinematics_loop]. rewrite py_bind_run.
      rewrite (body_stretched r p v q) by assumption.
      destruct (IH (stretched v q)
                  (World (<[p := Np.newaxis (stretched v q)]> (heap w1))
                         (calls w1 ++ ik_events model_markersJacobian q)))
        as (w' & Hrun & Hp' & Hkeep).
      + cbn [heap]. rewrite lookup_insert_ne by congruence. exact Hr1.
      + cbn [heap]. apply lookup_insert_eq.
      + apply length_stretched, Hq1.
      + exists w'. split; [exact Hrun|]. split.
        * rewrite Nat.iter_succ_r. exact Hp'.
        * intros l Hl. rewrite Hkeep by exact Hl. cbn [heap].
          apply lookup_insert_ne. congruence. }
  destruct (Hloop (Z.to_nat N) q0 w Hr Hp Hq) as (w' & Hrun & Hp' & Hkeep).
  exists w'. rewrite py_bind_run, Hrun. split; [reflexivity|].
  split; assumption.
Qed.
End StretchedObservation.

(** ** The definitions at work *)

Module Runs.
(** *** A model with two degrees of freedom *)

(** C6 fails on the code.  For the state [(10, 20, 30, 40)] of a model
    with two degrees of freedom and the acceleration [(7, 8)], the
    derivative should be [(30, 40, 7, 8)]; [x_dot] returns [(30, 7)],
    the first column of the two stacked rows. *)
Lemma x_dot_two_dof_drops_entries :
  let x := [10; 20; 30; 40]%Z in
  let qddot := Toy.two_dof_acceleration (take 2 x) (drop 2 x) [] in
  x_dot 2 [] (λ states q qdot, []) Toy.two_dof_acceleration x []
  = Ok [30; 7]%Z ∧
  drop 2 x ++ qddot = [30; 40; 7; 8]%Z.
Proof. split; reflexivity. Qed.

(** The Euler step then cannot add the derivative to the state. *)
Lemma euler_two_dof_raises :
  euler 1%Z [10; 20; 30; 40]%Z
    (x_dot 2 [] (λ states q qdot, []) Toy.two_dof_acceleration) []
  = Raise (ValueError_broadcast 4 2).
Proof. reflexivity. Qed.

(** *** The spring *)

Lemma spring_dot_run (q v : Qc) (u : list Qc) :
  Toy.spring_dot [q; v] u = Ok [v; (- q)%Qc].
Proof. reflexivity. Qed.

Lemma spring_conforming (dt : Qc) (u x0 : list Qc) :
  length x0 = 2 →
  conforming euler dt Toy.spring_dot u x0 (Toy.spring_euler dt).
Proof.
  intros Hx0 x Hx. rewrite Hx0 in Hx.
  destruct x as [|q [|v [|? ?]]]; try discriminate Hx.
  split; [reflexivity | rewrite Hx0; reflexivity].
Qed.

Lemma half_positive : slt (s0 : Qc) (sdec 1 2).
Proof. vm_compute. reflexivity. Qed.

(** One Runge-Kutta step of a derivative that is defined at the four
    stages only. *)
Lemma rk4_four_stages_witness :
  rk4 6%Z [1; 2]%Z Toy.double []
  = Ok (vadd [1; 2]%Z
          (vscale (6%Z / snat 6)%S
             (vadd (vadd (vadd [2; 4]%Z (vscale (snat 2) [14; 28]%Z))
                         (vscale (snat 2) [86; 172]%Z))
                   [1034; 2068]%Z))).
Proof.
  apply (rk4_four_stages 6%Z [1; 2]%Z Toy.double []
           [2; 4]%Z [14; 28]%Z [86; 172]%Z [1034; 2068]%Z);
    reflexivity.
Defined.

(** A steady derivative over the rationals. *)
Lemma rk4_euler_constant_derivative_exact_run :
  let dt : Qc := sdec 1 10 in
  let c : list Qc := [snat 1; snat 2] in
  let x : list Qc := [snat 3; snat 4] in
  rk4 dt x (Toy.steady c) [] = euler dt x (Toy.steady c) [] ∧
  euler dt x (Toy.steady c) [] = Np.add x (Np.scalar_mul dt c) ∧
  (length c = length x →
   euler dt x (Toy.steady c) [] = Ok (vadd x (vscale dt c))).
Proof.
  intros dt c x.
  apply (rk4_euler_constant_derivative_exact dt x [] c (Toy.steady c)).
  intros y. reflexivity.
Defined.

(** The spring, integrated by Euler steps of one half up to time two. *)
Lemma perform_integration_trajectory_exact_run :
  let final_time : Qc := snat 2 in
  let dt : Qc := sdec 1 2 in
  let x0 : list Qc := [snat 1; snat 0] in
  let step := Toy.spring_euler dt in
  ∃ n,
    (∀ fuel, n < fuel →
       perform_integration fuel final_time dt x0 Toy.spring_dot [] euler
       = Some (Ok (map (sample_time dt) (seq 0 (S n)),
                   Np.transpose (map (nth_state step x0) (seq 0 (S n)))))) ∧
    (∀ k, k ≤ n →
       Np.col k (Np.transpose (map (nth_state step x0) (seq 0 (S n))))
       = Ok (nth_state step x0 k)) ∧
    (∀ k, euler dt (nth_state step x0 k) Toy.spring_dot []
          = Ok (nth_state step x0 (S k))) ∧
    (∀ k, k < n → sle (sample_time dt k) final_time) ∧
    slt final_time (sample_time dt n) ∧
    (∃ m, sle final_time (sample_time dt m) ∧
          (∀ k, k < m → slt (sample_time dt k) final_time) ∧
          (n = m ∨ n = S m)).
Proof.
  intros final_time dt x0 step.
  apply (perform_integration_trajectory_exact final_time dt x0 Toy.spring_dot []
           euler step).
  - exact half_positive.
  - apply spring_conforming. reflexivity.
Defined.

Lemma perform_integration_times_increasing_exact_run :
  let final_time : Qc := snat 2 in
  let dt : Qc := sdec 1 2 in
  let x0 : list Qc := [snat 1; snat 0] in
  let step := Toy.spring_euler dt in
  ∃ n times all_x,
    (∀ fuel, n < fuel →
       perform_integration fuel final_time dt x0 Toy.spring_dot [] euler
       = Some (Ok (times, all_x))) ∧
    length times = S n ∧
    (∀ k, k ≤ n →
       times !! k = Some (sample_time dt k) ∧
       Np.col k all_x = Ok (nth_state step x0 k)) ∧
    StronglySorted slt times ∧
    (∃ m t, m ≤ n ∧ times !! m = Some t ∧ sle final_time t ∧
            (∀ k t', k < m → times !! k = Some t' → slt t' final_time) ∧
            Np.col m all_x = Ok (nth_state step x0 m)).
Proof.
  intros final_time dt x0 step.
  apply (perform_integration_times_increasing_exact final_time dt x0
           Toy.spring_dot [] euler step).
  - exact half_positive.
  - apply spring_conforming. reflexivity.
Defined.

(** The cost of the notebook's initial guess, on the spring. *)
Lemma lagrange_cost_is_path_cost_exact_run :
  let θ : Qc := sdec 12 10 in
  let final_time : Qc := snat 2 in
  let dt : Qc := sdec 1 2 in
  let x : list Qc := initial_guess 1 [θ] in
  ∃ n, ∀ fuel, n < fuel →
    ∃ t x_integrated,
      perform_integration fuel final_time dt (take (1 * 2) x) Toy.spring_dot
        (drop (1 * 2) x) euler
      = Some (Ok (t, x_integrated)) ∧
      length t = S n ∧
      (∀ k, k ≤ n →
         Np.col k x_integrated
         = Ok (nth_state (Toy.spring_euler dt) (take (1 * 2) x) k)) ∧
      lagrange_cost_function 1 [θ] final_time dt Toy.spring_dot euler fuel x
      = Some (Ok (Np.sum
                    (map (λ k, squared_deviation θ
                                 (take 1
                                    (nth_state (Toy.spring_euler dt)
                                       (take (1 * 2) x) k)))
                         (seq 0 (S n))))).
Proof.
  intros θ final_time dt x.
  apply (lagrange_cost_is_path_cost_exact 1 θ final_time dt Toy.spring_dot euler
           x (Toy.spring_euler dt)).
  - exact half_positive.
  - apply spring_conforming. reflexivity.
Defined.

(** *** The sliding marker *)

Lemma toy_well_shaped :
  well_shaped Toy.markers Toy.markersJacobian Toy.pinv 1 1.
Proof.
  split; [|split].
  - intros q _. split; [reflexivity|]. repeat constructor.
  - intros q _. split; [reflexivity|]. repeat constructor.
  - intros a [Hlen Hrows].
    destruct a as [|r1 [|r2 [|r3 [|? ?]]]]; try discriminate Hlen.
    apply Forall_cons in Hrows as [H1 Hrows].
    apply Forall_cons in Hrows as [H2 Hrows].
    apply Forall_cons in Hrows as [H3 _].
    destruct r1 as [|x [|? ?]]; try discriminate H1.
    destruct r2 as [|y [|? ?]]; try discriminate H2.
    destruct r3 as [|z [|? ?]]; try discriminate H3.
    split; [reflexivity|]. repeat constructor.
Qed.

(** Three iterations towards a marker observed at [(5, 0, 0)]. *)
Lemma inverse_kinematics_iterates_witness :
  let w := Toy.world_of [5; 0; 0]%Z [0%Z] in
  ∃ q w',
    inverse_kinematics 1 Toy.markers Toy.markersJacobian Toy.pinv 0 1 3 w
    = (Ok q, w') ∧
    heap w' !! q
    = Some (Np.newaxis
              (Nat.iter (Z.to_nat 3)
                 (ik_update Toy.markers Toy.markersJacobian Toy.pinv
                    [5; 0; 0]%Z) [0%Z])) ∧
    calls w'
    = calls w ++ ik_trace Toy.markers Toy.markersJacobian Toy.pinv
                   [5; 0; 0]%Z [0%Z] (Z.to_nat 3) ∧
    length (ik_trace Toy.markers Toy.markersJacobian Toy.pinv
              [5; 0; 0]%Z [0%Z] (Z.to_nat 3)) = 3 * Z.to_nat 3.
Proof.
  intros w.
  apply (inverse_kinematics_iterates 1 1 Toy.markers Toy.markersJacobian
           Toy.pinv 0 1 [5; 0; 0]%Z [0%Z] 3 w).
  - exact toy_well_shaped.
  - lia.
  - lia.
  - reflexivity.
  - reflexivity.
  - reflexivity.
  - reflexivity.
Defined.

Lemma inverse_kinematics_in_place_witness :
  let w := Toy.world_of [5; 0; 0]%Z [0%Z] in
  let solved :=
    Nat.iter (Z.to_nat 3)
      (ik_update Toy.markers Toy.markersJacobian Toy.pinv [5; 0; 0]%Z)
      [0%Z] in
  ∃ w',
    inverse_kinematics 1 Toy.markers Toy.markersJacobian Toy.pinv 0 1 3 w
    = (Ok 1, w') ∧
    heap w' = <[1 := Np.newaxis solved]> (heap w) ∧
    solved
    = ik_update Toy.markers Toy.markersJacobian Toy.pinv [5; 0; 0]%Z
        (Nat.iter (Z.to_nat 3 - 1)
           (ik_update Toy.markers Toy.markersJacobian Toy.pinv [5; 0; 0]%Z)
           [0%Z]) ∧
    (∀ l, l ≠ 1 → heap w' !! l = heap w !! l).
Proof.
  intros w solved.
  apply (inverse_kinematics_in_place 1 1 Toy.markers Toy.markersJacobian
           Toy.pinv 0 1 [5; 0; 0]%Z [0%Z] 3 w).
  - exact toy_well_shaped.
  - lia.
  - lia.
  - reflexivity.
  - reflexivity.
  - reflexivity.
  - reflexivity.
  - lia.
Defined.

(** The guess the caller passed is gone: its array now holds [5]. *)
Lemma inverse_kinematics_overwrites_guess :
  let w := Toy.world_of [5; 0; 0]%Z [0%Z] in
  heap w !! 1 = Some [[0%Z]] ∧
  heap (inverse_kinematics 1 Toy.markers Toy.markersJacobian Toy.pinv
          0 1 3 w).2 !! 1 = Some [[5%Z]].
Proof. split; reflexivity. Qed.

(** Two observed coordinates where the model has three. *)
Lemma inverse_kinematics_mismatch_witness :
  let w := Toy.world_of [5; 4]%Z [0%Z] in
  inverse_kinematics 1 Toy.markers Toy.markersJacobian Toy.pinv 0 1 1 w
  = (Raise (ValueError_broadcast (3 * 1) (length [5; 4]%Z)),
     World (heap w) (calls w ++ ik_events Toy.markersJacobian [0%Z])).
Proof.
  intros w.
  apply (inverse_kinematics_mismatch 1 1 Toy.markers Toy.markersJacobian
           Toy.pinv 0 1 [5; 4]%Z [0%Z] 1 w).
  - exact toy_well_shaped.
  - reflexivity.
  - reflexivity.
  - reflexivity.
  - cbn. lia.
  - cbn. lia.
  - lia.
Defined.

(** C7 fails on the code.  One observed coordinate where the model has
    three: numpy stretches it, no exception is raised, and the initial
    guess is overwritten. *)
Lemma inverse_kinematics_accepts_mismatch :
  let w := Toy.world_of [5%Z] [0%Z] in
  length [5%Z] ≠ 3 * length (Toy.markers [0%Z]) ∧
  ¬ fails_fast
      (inverse_kinematics 1 Toy.markers Toy.markersJacobian Toy.pinv
         0 1 1 w) w.
Proof.
  intros w. split; [cbn; lia|].
  intros [e He]. vm_compute in He. discriminate He.
Qed.

(** *** The notebook's own bounds *)

(** C8 fails on the code.  In the notebook's own call the second control
    of the initial guess, [0.0001], lies below its lower bound [0.001];
    the cell calls the optimizer all the same and returns its result. *)
Lemma shooting_solver_accepts_invalid_bounds :
  let target_position : list Qc := [sdec 12 10] in
  let numpy_pi : Qc := sdec 355 113 in
  invalid_bounds 1 (bounds 1 2 numpy_pi) (initial_guess 1 target_position) ∧
  ¬ ∃ e,
      shooting_solver 1 2 target_position (snat 2) (sdec 1 10)
        Toy.spring_dot rk4 numpy_pi Toy.minimize 30
      = Raise e.
Proof.
  intros target_position numpy_pi. split.
  - right. exists 3, (sdec 1 1000, sdec 999 1000), (sdec 1 10000).
    split; [lia|]. split; [reflexivity|]. split; [reflexivity|].
    left. vm_compute. reflexivity.
  - intros [e He]. unfold shooting_solver, Toy.minimize in He.
    discriminate He.
Qed.
(** *** Further runs: steps and trajectories *)

(** Two degrees of freedom: neither step returns. *)
Lemma several_degrees_step_raises_witness :
  let xdot := x_dot 2 [] (λ states q qdot, []) Toy.two_dof_acceleration in
  euler 1%Z [10; 20; 30; 40]%Z xdot []
  = Raise (ValueError_broadcast (2 * 2) 2) ∧
  rk4 1%Z [10; 20; 30; 40]%Z xdot []
  = Raise (ValueError_broadcast (2 * 2) 2).
Proof.
  intros xdot.
  apply (several_degrees_step_raises 2 [] (λ states q qdot, [])
           Toy.two_dof_acceleration 1%Z [10; 20; 30; 40]%Z []).
  - lia.
  - reflexivity.
  - reflexivity.
Defined.

(** Three samples of a state that grows by one per unit of time. *)
Lemma perform_integration_shape_witness :
  let x0 := [3; 4]%Z in
  let times := [0; 1; 2]%Z in
  let all_x := [[3; 4; 5]; [4; 5; 6]]%Z in
  is_mat (length x0) (length times) all_x ∧
  Np.col 0 all_x = Ok x0 ∧
  List.hd s0 times = s0 ∧
  (sle s0 1%Z → 2 ≤ length times) ∧
  (slt 1%Z s0 → times = [s0] ∧ all_x = Np.newaxis x0).
Proof.
  intros x0 times all_x.
  apply (perform_integration_shape 1%Z 1%Z (λ x u, Ok [1; 1]%Z) [] euler 5
           x0 times all_x).
  reflexivity.
Defined.

(** Euler steps of size three on the doubling that is defined at four
    states only: the third step leaves them. *)
Lemma perform_integration_step_raises_witness :
  perform_integration 3 10%Z 3%Z [1; 2]%Z Toy.double [] euler
  = Some (Raise KeyError).
Proof.
  apply (perform_integration_step_raises 10%Z 3%Z Toy.double [] euler 3 2
           [1; 2]%Z (map (Z.mul 7)) KeyError).
  - intros [|[|j]] Hj; [reflexivity | reflexivity | lia].
  - reflexivity.
  - intros [|[|[|j]]] Hj; [reflexivity | reflexivity | reflexivity | lia].
  - lia.
Defined.

(** A decay [y' = −y] with a step of one half. *)
Lemma rk4_linear_derivative_witness :
  let dt : Qc := sdec 1 2 in
  let a : Qc := (- s1)%S in
  let x : list Qc := [snat 1; snat 2] in
  let f := λ y u : list Qc, Ok (vscale a y) in
  rk4 dt x f [] = Ok (vscale (taylor4 (dt * a)%S) x) ∧
  euler dt x f [] = Ok (vscale (s1 + dt * a)%S x).
Proof.
  intros dt a x f.
  apply (rk4_linear_derivative dt a x [] f).
  intros y _. reflexivity.
Defined.

(** *** Further runs: the cost and the bounds *)

(** The spring, released at one and aimed at zero: the cost is [41/16]. *)
Lemma lagrange_cost_sign_witness :
  let dt : Qc := sdec 1 2 in
  let x : list Qc := [snat 1; s0] in
  let c : Qc := sdec 41 16 in
  sle s0 c ∧
  ∃ t x_integrated d,
    perform_integration 5 dt dt (take (1 * 2) x) Toy.spring_dot
      (drop (1 * 2) x) euler
    = Some (Ok (t, x_integrated)) ∧
    Np.sub21 (take 1 x_integrated) [s0] = Ok d ∧
    (c = s0 ↔ Forall (Forall (λ v, v = s0)) d).
Proof.
  intros dt x c.
  apply (lagrange_cost_sign 1 [s0] dt dt Toy.spring_dot euler 5 x c).
  vm_compute. reflexivity.
Defined.

Lemma pi_nonnegative : sle (s0 : Qc) (sdec 355 113).
Proof. vm_compute. reflexivity. Qed.

Lemma bounds_well_ordered_witness :
  let numpy_pi : Qc := sdec 355 113 in
  length (bounds 1 2 numpy_pi) = 2 * 1 + 2 ∧
  ∀ i b, bounds 1 2 numpy_pi !! i = Some b → sle b.1 b.2.
Proof.
  intros numpy_pi.
  apply (bounds_well_ordered 1 2 numpy_pi). exact pi_nonnegative.
Defined.

(** The notebook's own cell: one degree of freedom, two muscles. *)
Lemma initial_guess_outside_bounds_witness :
  let guess := initial_guess 1 [sdec 12 10 : Qc] in
  let bounds := bounds 1 2 (sdec 355 113 : Qc) in
  length guess = 2 * 1 + 2 ∧
  (length guess = length bounds ↔ 2 = 2) ∧
  guess !! (1 * 2 + 1) = Some (sdec 1 10000) ∧
  bounds !! (1 * 2 + 1) = Some (sdec 1 1000, sdec 999 1000) ∧
  slt (sdec 1 10000 : Qc) (sdec 1 1000) ∧
  invalid_bounds 1 bounds guess.
Proof.
  exact (initial_guess_outside_bounds 1 2 [sdec 12 10 : Qc]
           (sdec 355 113 : Qc) eq_refl (le_n 2)).
Defined.

(** *** Further runs: the marker at [(q + 1, 0, 0)] *)

Lemma slider_well_shaped {R} `{Scalar R} :
  well_shaped (Slider.markers (R:=R)) Slider.markersJacobian Slider.pinv 1 1.
Proof.
  split; [|split].
  - intros q _. split; [reflexivity|]. repeat constructor.
  - intros q _. split; [reflexivity|]. repeat constructor.
  - intros a [Hlen Hrows].
    destruct a as [|r1 [|r2 [|r3 [|? ?]]]]; try discriminate Hlen.
    apply Forall_cons in Hrows as [H1 Hrows].
    apply Forall_cons in Hrows as [H2 Hrows].
    apply Forall_cons in Hrows as [H3 _].
    destruct r1 as [|x [|? ?]]; try discriminate H1.
    destruct r2 as [|y [|? ?]]; try discriminate H2.
    destruct r3 as [|z [|? ?]]; try discriminate H3.
    split; [reflexivity|]. repeat constructor.
Qed.

Lemma slider_affine :
  affine_model (Slider.markers (R:=Qc)) Slider.markersJacobian Slider.pinv 1
    Slider.matrix Slider.offset.
Proof.
  split; [|split].
  - intros q Hq. destruct q as [|x [|? ?]]; try discriminate Hq.
    unfold simulated, Slider.markers, Slider.matrix, Slider.offset, mvmul,
      vadd, Np.dot, Np.sum.
    cbn [concat app map nth zip_with fold_left].
    repeat f_equal; cbn; ring.
  - intros q _. reflexivity.
  - intros v Hv. destruct v as [|x [|? ?]]; try discriminate Hv.
    unfold Slider.pinv, Slider.matrix, mvmul, Np.dot, Np.sum, Np.transpose.
    cbn [Np.ncols length seq map nth zip_with fold_left].
    f_equal. cbn. ring.
Qed.

(** Started at the joint position that produced the markers, the
    solver consults the model four times there and stays. *)
Lemma inverse_kinematics_fixed_point_witness :
  let q0 : list Qc := [snat 3] in
  let w := Slider.world_of (simulated Slider.markers q0) q0 in
  inverse_kinematics 1 Slider.markers Slider.markersJacobian Slider.pinv
    0 1 4 w
  = (Ok 1,
     World (heap w)
           (calls w
            ++ concat (repeat (ik_events Slider.markersJacobian q0)
                         (Z.to_nat 4)))).
Proof.
  intros q0 w.
  apply (inverse_kinematics_fixed_point 1 1 Slider.markers
           Slider.markersJacobian Slider.pinv slider_well_shaped 0 1 q0 4 w).
  - lia.
  - lia.
  - reflexivity.
  - reflexivity.
  - reflexivity.
Defined.

(** Markers produced at [q = 7], a guess of zero, two iterations. *)
Lemma inverse_kinematics_affine_exact_witness :
  let q_true : list Qc := [snat 7] in
  let q0 : list Qc := [s0] in
  let w := Slider.world_of (simulated Slider.markers q_true) q0 in
  ∃ w',
    inverse_kinematics 1 Slider.markers Slider.markersJacobian Slider.pinv
      0 1 2 w
    = (Ok 1, w') ∧
    heap w' !! 1 = Some (Np.newaxis q_true) ∧
    ∀ l, l ≠ 1 → heap w' !! l = heap w !! l.
Proof.
  intros q_true q0 w.
  apply (inverse_kinematics_affine_exact 1 1 Slider.markers
           Slider.markersJacobian Slider.pinv slider_well_shaped
           Slider.matrix Slider.offset q_true q0 0 1 2 w).
  - exact slider_affine.
  - lia.
  - lia.
  - reflexivity.
  - reflexivity.
  - reflexivity.
  - reflexivity.
  - lia.
Defined.

(** A Jacobian block whose first row is two wide where [n_q] is one. *)
Lemma inverse_kinematics_jacobian_width_witness :
  let w := Toy.world_of [5; 0; 0]%Z [0%Z] in
  let jacobians := λ q : list Z, [[[1; 9]; [0]; [0]]]%Z in
  inverse_kinematics 1 Toy.markers jacobians Toy.pinv 0 1 1 w
  = (Raise (ValueError_concatenate 1 (length [1; 9]%Z)),
     World (heap w) (calls w ++ [Ev_markers [0%Z]; Ev_markersJacobian [0%Z]])).
Proof.
  intros w jacobians.
  apply (inverse_kinematics_jacobian_width 1 Toy.markers jacobians Toy.pinv
           0 1 [0%Z] 1 w [] [] [] [[0]; [0]]%Z [1; 9]%Z).
  - reflexivity.
  - lia.
  - reflexivity.
  - constructor.
  - constructor.
  - cbn. lia.
Defined.

(** *** Further runs: the frames *)

(** Three degrees of freedom, two frames, the arm in the middle. *)
Lemma full_body_positions_columns_witness :
  let initial_pose := [1; 2; 3]%Z in
  let arm := [20; 21]%Z in
  ∃ full_body_all_position,
    full_body_positions initial_pose 1 arm 2 = Ok full_body_all_position ∧
    is_mat (length initial_pose) 2 full_body_all_position ∧
    ∀ f v, arm !! f = Some v →
           Np.col f full_body_all_position = Ok (<[1 := v]> initial_pose).
Proof.
  intros initial_pose arm.
  apply (full_body_positions_columns initial_pose 1 arm 2).
  - cbn. lia.
  - reflexivity.
Defined.

(** Three frames of the sliding marker. *)
Lemma collected_markers_round_trip_witness :
  let positions := [[4; 5; 6]]%Z in
  let w : world Z := World ∅ [] in
  ∃ all_skin_markers qs,
    collect_skin_markers Toy.markers positions 3 w
    = (Ok all_skin_markers, World (heap w) (calls w ++ map Ev_markers qs)) ∧
    length all_skin_markers = 3 ∧
    length qs = 3 ∧
    ∀ f, f < 3 →
      ∃ q a,
        Np.col f positions = Ok q ∧ qs !! f = Some q ∧
        all_skin_markers !! f = Some a ∧ is_mat 3 1 a ∧
        frame_markers all_skin_markers f
        = Ok (Np.newaxis (simulated Toy.markers q)).
Proof.
  intros positions w.
  apply (collected_markers_round_trip 1 1 Toy.markers
           (proj1 toy_well_shaped) positions 3 w).
  - split; [reflexivity|]. repeat constructor.
  - lia.
Defined.

(** Two collected frames out of three: the marker seen at five, then at
    six; the third column keeps what the new array held. *)
Lemma reconstruct_warm_start_witness :
  let all_skin_markers := [[[5]; [0]; [0]]; [[6]; [0]; [0]]]%Z in
  let numpy_ndarray := λ r c : nat, repeat (repeat 99%Z c) r in
  let w : world Z := World ∅ [] in
  let observations :=
    map (λ a, Np2.flatten (Np.transpose a)) all_skin_markers in
  ∃ q_inverse w' M,
    reconstruct 1 Toy.markers Toy.markersJacobian Toy.pinv numpy_ndarray
      all_skin_markers 3 w
    = (Ok q_inverse, w') ∧
    heap w !! q_inverse = None ∧
    heap w' !! q_inverse = Some M ∧ is_mat 1 3 M ∧
    (∀ f solved,
       warm_starts (ik_update Toy.markers Toy.markersJacobian Toy.pinv)
         (repeat s0 1) 5 observations !! f = Some solved →
       Np.col f M = Ok solved) ∧
    (∀ f, length all_skin_markers ≤ f < 3 →
          Np.col f M = Np.col f (numpy_ndarray 1 3)) ∧
    (∀ l, is_Some (heap w !! l) → heap w' !! l = heap w !! l).
Proof.
  intros all_skin_markers numpy_ndarray w observations.
  apply (reconstruct_warm_start 1 1 3 Toy.markers Toy.markersJacobian
           Toy.pinv numpy_ndarray toy_well_shaped (le_n 1)
           all_skin_markers w).
  - repeat constructor.
  - cbn. lia.
  - split; [reflexivity|]. repeat constructor.
Defined.

(** What the reconstruction leaves in its array on these frames. *)
Lemma reconstruct_columns :
  let w : world Z := World ∅ [] in
  let out :=
    reconstruct 1 Toy.markers Toy.markersJacobian Toy.pinv
      (λ r c, repeat (repeat 99%Z c) r)
      [[[5]; [0]; [0]]; [[6]; [0]; [0]]]%Z 3 w in
  out.1 = Ok 1 ∧ heap out.2 !! 1 = Some [[5; 6; 99]]%Z.
Proof. split; reflexivity. Qed.

(** *** Further runs: the derivative, the times, the copy *)

Lemma x_dot_returns_two_entries_witness :
  let x := [10; 20; 30; 40]%Z in
  let v := nth 2 x s0 in
  let a :=
    nth 0 (muscular_joint_acceleration [] (λ states q qdot, [])
             Toy.two_dof_acceleration [] (take 2 x) (drop 2 x)) s0 in
  x_dot 2 [] (λ states q qdot, []) Toy.two_dof_acceleration x []
  = Ok [v; a] ∧
  (length [v; a] = length x ↔ 2 = 1).
Proof.
  intros x.
  apply (x_dot_returns_two_entries 2 [] (λ states q qdot, [])
           Toy.two_dof_acceleration x []).
  - lia.
  - reflexivity.
  - reflexivity.
Defined.

(** The spring has one degree of freedom. *)
Lemma x_dot_one_dof_witness :
  let x : list Qc := [snat 1; snat 2] in
  x_dot 1 [] (λ states q qdot, []) Toy.spring x []
  = Ok (drop 1 x
        ++ muscular_joint_acceleration [] (λ states q qdot, []) Toy.spring
             [] (take 1 x) (drop 1 x)).
Proof.
  intros x.
  apply (x_dot_one_dof 1 [] (λ states q qdot, []) Toy.spring x []);
    reflexivity.
Defined.

Lemma perform_integration_returns_witness :
  let times := [0; 1; 2]%Z in
  ∃ n, times = map (running_time 1%Z) (seq 0 (S n)) ∧
       (∀ j, j < n → sle (running_time 1%Z j) 1%Z) ∧
       slt 1%Z (running_time 1%Z n).
Proof.
  intros times.
  apply (perform_integration_returns 1%Z 1%Z (λ x u, Ok [1; 1]%Z) [] euler 5
           [3; 4]%Z times [[3; 4; 5]; [4; 5; 6]]%Z).
  reflexivity.
Defined.

(** The guess is copied, the solver runs three times in the original. *)
Lemma guess_survives_in_copy_witness :
  let w := Toy.world_of [5; 0; 0]%Z [0%Z] in
  ∃ kept w',
    (kept ← copy 1;
     solved ← inverse_kinematics 1 Toy.markers Toy.markersJacobian Toy.pinv
                0 1 3;
     mret (kept, solved)) w
    = (Ok (kept, 1), w') ∧
    kept ≠ 1 ∧
    heap w' !! kept = Some (Np.newaxis [0%Z]) ∧
    heap w' !! 1
    = Some (Np.newaxis
              (Nat.iter (Z.to_nat 3)
                 (ik_update Toy.markers Toy.markersJacobian Toy.pinv
                    [5; 0; 0]%Z) [0%Z])).
Proof.
  intros w.
  apply (guess_survives_in_copy 1 1 Toy.markers Toy.markersJacobian Toy.pinv
           0 1 [5; 0; 0]%Z [0%Z] 3 w).
  - exact toy_well_shaped.
  - lia.
  - lia.
  - reflexivity.
  - reflexivity.
  - reflexivity.
  - reflexivity.
Defined.

(** One observed coordinate where the model has three, two iterations. *)
Lemma inverse_kinematics_stretches_observation_witness :
  let w := Toy.world_of [5%Z] [0%Z] in
  ∃ w',
    inverse_kinematics 1 Toy.markers Toy.markersJacobian Toy.pinv 0 1 2 w
    = (Ok 1, w') ∧
    heap w' !! 1
    = Some (Np.newaxis
              (Nat.iter (Z.to_nat 2)
                 (ik_update_stretched Toy.markers Toy.markersJacobian
                    Toy.pinv 5%Z) [0%Z])) ∧
    ∀ l, l ≠ 1 → heap w' !! l = heap w !! l.
Proof.
  intros w.
  apply (inverse_kinematics_stretches_observation 1 1 Toy.markers
           Toy.markersJacobian Toy.pinv toy_well_shaped 0 1 5%Z [0%Z] 2 w).
  - lia.
  - lia.
  - reflexivity.
  - reflexivity.
  - reflexivity.
Defined.

(** *** Runs in binary64 *)

Lemma ramp_conforming (dt : float) :
  conforming euler dt Binary64.ramp [] [s0] (Binary64.ramp_step dt).
Proof.
  intros x Hx. destruct x as [|a [|? ?]]; try discriminate Hx.
  split; reflexivity.
Qed.


(** With an infinite step and an infinite final time every time after
    the first is infinite, and the test [t <= final_time] never fails. *)
Lemma binary64_never_returns (fuel : nat) :
  perform_integration fuel infinity infinity [s0] Binary64.ramp [] euler
  = None.
Proof.
  assert (∀ n tv ax,
            List.last tv s0 = infinity →
            perform_integration_loop n infinity infinity Binary64.ramp []
              euler tv ax [infinity] = None) as Hloop.
  { induction n as [|n IH]; intros tv ax Hlast; [reflexivity|].
    cbn [perform_integration_loop]. rewrite Hlast.
    change (sleb infinity infinity) with true. cbv iota.
    change (euler infinity [infinity] Binary64.ramp [])
      with (@Ok (list float) [infinity]).
    cbv beta iota. rewrite last_last. apply IH. rewrite last_last. reflexivity. }
  unfold perform_integration. destruct fuel as [|fuel]; [reflexivity|].
  cbn [perform_integration_loop List.last].
  change (sleb s0 infinity) with true. cbv iota.
  change (euler infinity [s0] Binary64.ramp [])
    with (@Ok (list float) [infinity]).
  cbv beta iota. cbn [app List.last]. rewrite Hloop; reflexivity.
Qed.

(** C2 fails on the code.  In binary64, with [final_time = 2] and
    [Δt = 0.1], both positive, and Euler steps of a state that grows by
    one per unit of time: the driver returns 21 samples; its ninth time
    is a running sum below [8·Δt]; and [20·Δt <= final_time], so the
    sequence [0, Δt, 2Δt, …] extended while the last time is
    [<= final_time] has a 22nd entry.  With [final_time] and [Δt]
    infinite, the driver does not return at all. *)
Lemma perform_integration_binary64_times :
  let final_time : float := snat 2 in
  let dt : float := sdec 1 10 in
  (slt s0 final_time ∧ slt s0 dt ∧ slt (s0 : float) infinity) ∧
  (∃ times all_x,
     perform_integration 30 final_time dt [s0] Binary64.ramp [] euler
     = Some (Ok (times, all_x)) ∧
     length times = 21 ∧
     (∃ t, times !! 8 = Some t ∧ slt t (sample_time dt 8)) ∧
     sle (sample_time dt 20) final_time) ∧
  (∀ fuel,
     perform_integration fuel infinity infinity [s0] Binary64.ramp [] euler
     = None).
Proof.
  intros final_time dt. split; [|split].
  - repeat split; vm_compute; reflexivity.
  - eexists _, _. split; [vm_compute; reflexivity|].
    split; [reflexivity|]. split; [|vm_compute; reflexivity].
    eexists. split; [reflexivity | vm_compute; reflexivity].
  - exact binary64_never_returns.
Qed.


(** C10 fails on the code.  In binary64, with [Δt = 7], [x = (0)] and
    the constant derivative [(9)], the Euler step returns [63] and the
    Runge-Kutta step a number above [63]: [7/6] is rounded before it is
    multiplied by [54]. *)
Lemma rk4_euler_differ_in_binary64 :
  let dt : float := snat 7 in
  let c : list float := [snat 9] in
  let f := λ y u : list float, Ok c in
  euler dt [s0] f [] = Ok [snat 63] ∧
  (∃ v, rk4 dt [s0] f [] = Ok [v] ∧ slt (snat 63) v) ∧
  rk4 dt [s0] f [] ≠ euler dt [s0] f [].
Proof.
  intros dt c f. split; [vm_compute; reflexivity|]. split.
  - eexists. split; vm_compute; reflexivity.
  - intros Heq.
    apply (f_equal (λ r, match r with
                         | Ok [v] => sleb v (snat 63)
                         | _ => true
                         end)) in Heq.
    vm_compute in Heq. discriminate Heq.
Qed.

(** The cost of a state that stays at one, aimed at zero, is the number
    of samples: 21 in binary64, 22 in exact arithmetic. *)
Lemma lagrange_cost_counts_samples :
  lagrange_cost_function 1 [s0] (snat 2) (sdec 1 10) Binary64.still euler
    30 [s1; s0]
  = Some (Ok (snat 21)) ∧
  lagrange_cost_function 1 [s0 : Qc] (snat 2) (sdec 1 10)
    (λ x u, Ok [s0; s0]) euler 30 [s1; s0]
  = Some (Ok (snat 22)).
Proof. split; vm_compute; reflexivity. Qed.
(** The growing state in binary64, [final_time = 2], [Δt = 0.1]. *)
Lemma perform_integration_trajectory_witness :
  let final_time : float := snat 2 in
  let dt : float := sdec 1 10 in
  let x0 : list float := [s0] in
  let step := Binary64.ramp_step dt in
  (∀ k, euler dt (nth_state step x0 k) Binary64.ramp []
        = Ok (nth_state step x0 (S k))) ∧
  (∀ n,
     (∀ j, j < n → sle (running_time dt j) final_time) →
     slt final_time (running_time dt n) →
     (∀ fuel, n < fuel →
        perform_integration fuel final_time dt x0 Binary64.ramp [] euler
        = Some (Ok (map (running_time dt) (seq 0 (S n)),
                    Np.transpose (map (nth_state step x0) (seq 0 (S n)))))) ∧
     (∀ k, k ≤ n →
        Np.col k (Np.transpose (map (nth_state step x0) (seq 0 (S n))))
        = Ok (nth_state step x0 k))) ∧
  (∀ fuel times all_x,
     perform_integration fuel final_time dt x0 Binary64.ramp [] euler
     = Some (Ok (times, all_x)) →
     ∃ n, n < fuel ∧
          (∀ j, j < n → sle (running_time dt j) final_time) ∧
          slt final_time (running_time dt n) ∧
          times = map (running_time dt) (seq 0 (S n)) ∧
          all_x = Np.transpose (map (nth_state step x0) (seq 0 (S n)))) ∧
  (∀ fuel e,
     perform_integration fuel final_time dt x0 Binary64.ramp [] euler
     ≠ Some (Raise e)) ∧
  (ExactArith float → slt s0 dt →
   ∃ n,
     (∀ k, running_time dt k = sample_time dt k) ∧
     (∀ k, k < n → sle (sample_time dt k) final_time) ∧
     slt final_time (sample_time dt n) ∧
     (∀ fuel, n < fuel →
        perform_integration fuel final_time dt x0 Binary64.ramp [] euler
        = Some (Ok (map (sample_time dt) (seq 0 (S n)),
                    Np.transpose (map (nth_state step x0) (seq 0 (S n)))))) ∧
     (∃ m, sle final_time (sample_time dt m) ∧
           (∀ k, k < m → slt (sample_time dt k) final_time) ∧
           (n = m ∨ n = S m))).
Proof.
  intros final_time dt x0 step.
  apply (perform_integration_trajectory final_time dt x0 Binary64.ramp []
           euler step).
  apply ramp_conforming.
Defined.



(** Step seven, state zero, derivative nine, in binary64. *)
Lemma rk4_euler_constant_derivative_witness :
  let dt : float := snat 7 in
  let x : list float := [s0] in
  let c : list float := [snat 9] in
  let f := λ y u : list float, Ok c in
  euler dt x f [] = Np.add x (Np.mul_scalar c dt) ∧
  (length c = length x →
   euler dt x f [] = Ok (vadd x (Np.mul_scalar c dt)) ∧
   rk4 dt x f []
   = Ok (vadd x
           (vscale (dt / snat 6)%S
              (vadd (vadd (vadd c (vscale (snat 2) c)) (vscale (snat 2) c))
                    c)))) ∧
  (ExactArith float →
   rk4 dt x f [] = euler dt x f [] ∧
   euler dt x f [] = Np.add x (Np.scalar_mul dt c) ∧
   (length c = length x → euler dt x f [] = Ok (vadd x (vscale dt c)))).
Proof.
  intros dt x c f.
  apply (rk4_euler_constant_derivative dt x [] c f).
  intros y. reflexivity.
Defined.

End Runs.
